(** * Topology generator: address pool, node/channel/interface graph,
      route distribution and route aggregation

    A shallow embedding of [topology-generator/generator.py].  Python
    objects live in a heap of three arrays (nodes, channels, interfaces);
    an object reference is its index, so reference identity ([is], the
    default [==] and [hash] of the three classes) is equality of indices.
    The part of the standard [ipaddress] module that the generator calls
    is embedded as well, on integers. *)

From stdpp Require Import base option list list_numbers sets gmap strings pretty sorting.
From Stdlib Require Import ZArith Lia.

Local Open Scope Z_scope.

(** ** Exceptions *)

Inductive exn := IndexError | ValueError.

Inductive result (A : Type) :=
  | Ok (a : A)
  | Raise (e : exn).
Arguments Ok {A} a.
Arguments Raise {A} e.

Definition result_bind {A B} (m : result A) (k : A → result B) : result B :=
  match m with
  | Ok a => k a
  | Raise e => Raise e
  end.

(** ** [ipaddress]: IPv4 networks on integers *)

Record IPv4Network := mkNet { network_address : Z; prefixlen : nat }.

#[global] Instance IPv4Network_eq_dec : EqDecision IPv4Network.
Proof. solve_decision. Defined.

Definition ALL_ONES : Z := 2 ^ 32 - 1.
Definition max_prefixlen : nat := 32.

(** [_ip_int_from_prefix] *)
Definition netmask (n : IPv4Network) : Z :=
  Z.lxor ALL_ONES (Z.shiftr ALL_ONES (Z.of_nat (prefixlen n))).

Definition hostmask (n : IPv4Network) : Z := Z.lxor (netmask n) ALL_ONES.

Definition broadcast_address (n : IPv4Network) : Z :=
  Z.lor (network_address n) (hostmask n).

(** What the constructor [IPv4Network((address, prefix))] accepts (strict
    mode): a 32-bit address, a prefix length of at most 32, no host bit
    set. *)
Definition valid_network (n : IPv4Network) : Prop :=
  (prefixlen n ≤ max_prefixlen)%nat ∧
  0 ≤ network_address n ≤ ALL_ONES ∧
  Z.land (network_address n) (netmask n) = network_address n.

#[global] Instance valid_network_dec n : Decision (valid_network n).
Proof. unfold valid_network. apply _. Defined.

(** [_BaseNetwork.__eq__]: same address and same mask. *)
Definition net_eqb (a b : IPv4Network) : bool :=
  (network_address a =? network_address b) && (netmask a =? netmask b).

(** [_BaseNetwork.__lt__] *)
Definition net_ltb (a b : IPv4Network) : bool :=
  if negb (network_address a =? network_address b)
  then network_address a <? network_address b
  else if negb (netmask a =? netmask b)
  then netmask a <? netmask b
  else false.

(** [_BaseNetwork.supernet()] with its default [prefixlen_diff=1].  It
    ends in a call of the constructor, whose check always passes here
    ([supernet_valid]). *)
Definition supernet (n : IPv4Network) : IPv4Network :=
  if decide (prefixlen n = 0%nat) then n
  else mkNet (Z.land (network_address n) (Z.shiftl (netmask n) 1))
             (prefixlen n - 1).

(** [range(start, stop, step)] for a positive step. *)
Definition py_range (start stop step : Z) : list Z :=
  (λ k, start + k * step) <$> seqZ 0 ((stop - start + step - 1) / step).

(** [_BaseNetwork.subnets(new_prefix=...)].  A network of one address
    yields itself whatever [new_prefix] is; the constructor calls in the
    loop always pass their check ([nth_block_in_partition]). *)
Definition subnets (n : IPv4Network) (new_prefix : nat) : result (list IPv4Network) :=
  if decide (prefixlen n = max_prefixlen) then Ok [n]
  else if decide (new_prefix < prefixlen n)%nat then Raise ValueError
  else
    let prefixlen_diff := (new_prefix - prefixlen n)%nat in
    let new_prefixlen := (prefixlen n + prefixlen_diff)%nat in
    if decide (max_prefixlen < new_prefixlen)%nat then Raise ValueError
    else
      let start := network_address n in
      let stop := broadcast_address n + 1 in
      let step := Z.shiftr (hostmask n + 1) (Z.of_nat prefixlen_diff) in
      Ok ((λ new_addr, mkNet new_addr new_prefixlen) <$> py_range start stop step).

(** [_BaseNetwork.__getitem__] for a non-negative index. *)
Definition net_getitem (n : IPv4Network) (k : Z) : result Z :=
  if decide (network_address n + k > broadcast_address n)
  then Raise IndexError
  else Ok (network_address n + k).

(** [str] of an address and of a network. *)
Definition str_address (a : Z) : string :=
  pretty (Z.land (Z.shiftr a 24) 255) +:+ "." +:+
  pretty (Z.land (Z.shiftr a 16) 255) +:+ "." +:+
  pretty (Z.land (Z.shiftr a 8) 255) +:+ "." +:+
  pretty (Z.land a 255).

Definition str_network (n : IPv4Network) : string :=
  str_address (network_address n) +:+ "/" +:+ pretty (prefixlen n).

(** Two blocks overlap when they share an address. *)
Definition overlaps (a b : IPv4Network) : Prop :=
  ∃ x, network_address a ≤ x ≤ broadcast_address a ∧
       network_address b ≤ x ≤ broadcast_address b.

(** The partition of [parent] into blocks of prefix length [p]: the valid
    networks of that length that lie inside [parent]. *)
Definition in_partition (parent : IPv4Network) (p : nat) (b : IPv4Network) : Prop :=
  prefixlen b = p ∧ valid_network b ∧
  network_address parent ≤ network_address b ∧
  broadcast_address b ≤ broadcast_address parent.

(** The blocks [subnets] enumerates: the [k]-th one starts [k] block
    sizes after the parent's first address. *)
Definition nth_block (parent : IPv4Network) (p : nat) (k : Z) : IPv4Network :=
  mkNet (network_address parent + k * 2 ^ (32 - Z.of_nat p)) p.

(** ** NetworkPool *)

Record NetworkPool := mkPool { free_networks : list IPv4Network }.

Definition NetworkPool_init (network : IPv4Network) (new_prefix : nat) : result NetworkPool :=
  result_bind (subnets network new_prefix) (λ l, Ok (mkPool l)).

(** [free_networks.pop(0)] raises [IndexError] on an empty list. *)
Definition gen_network (pool : NetworkPool) : result (IPv4Network * NetworkPool) :=
  match free_networks pool with
  | [] => Raise IndexError
  | n :: rest => Ok (n, mkPool rest)
  end.

(** [k] calls in a row, collecting what they return. *)
Fixpoint gen_networks (k : nat) (pool : NetworkPool) : result (list IPv4Network * NetworkPool) :=
  match k with
  | O => Ok ([], pool)
  | S k' =>
      result_bind (gen_network pool) (λ '(n, pool1),
      result_bind (gen_networks k' pool1) (λ '(ns, pool2),
      Ok (n :: ns, pool2)))
  end.


(** ** The object graph *)

(** A route record [(origin channel, gateway interface, distance)], as
    [Channel.distribute_route] appends it to [Channel.routes]. *)
Abbreviation RouteRecord := (nat * nat * nat)%type.

Inductive NodeClass :=
  | NodeBackbone (num subnum : nat)
  | NodeAggregation (num subnum : nat)
  | NodeAccess (num : nat)
  | NodeUW (num : nat)
  | NodeExternal (id : string) (additional_networks : list IPv4Network).

Record Node := mkNode {
  node_class : NodeClass;
  device : string;
  component : string;
  node_interfaces : list nat;
  include_routes : bool
}.

Record Channel := mkChannel {
  channel_id : string;
  network : IPv4Network;
  delay : nat;
  channel_interfaces : list nat;
  routes : list RouteRecord
}.

Record Interface := mkInterface {
  node : nat;
  interface_id : string;
  channel : nat;
  offset : nat
}.

Record Heap := mkHeap {
  nodes : list Node;
  channels : list Channel;
  interfaces : list Interface
}.

Definition empty_heap : Heap := mkHeap [] [] [].

(** Attribute reads through a reference. *)
Definition interfaces_of_node (h : Heap) (n : nat) : list nat :=
  from_option node_interfaces [] (nodes h !! n).
Definition interfaces_of_channel (h : Heap) (c : nat) : list nat :=
  from_option channel_interfaces [] (channels h !! c).
Definition routes_of (h : Heap) (c : nat) : list RouteRecord :=
  from_option routes [] (channels h !! c).

(** *** Node *)

Definition Node_init (cls : NodeClass) (dev comp : string) (incl : bool) (h : Heap) : nat * Heap :=
  (length (nodes h),
   mkHeap (nodes h ++ [mkNode cls dev comp [] incl]) (channels h) (interfaces h)).

Definition new_NodeBackbone (num subnum : nat) : Heap → nat * Heap :=
  Node_init (NodeBackbone num subnum) "router" "simple-router" true.
Definition new_NodeAggregation (num subnum : nat) : Heap → nat * Heap :=
  Node_init (NodeAggregation num subnum) "router" "simple-router" true.
Definition new_NodeAccess (num : nat) : Heap → nat * Heap :=
  Node_init (NodeAccess num) "router" "simple-router" true.
Definition new_NodeUW (num : nat) : Heap → nat * Heap :=
  Node_init (NodeUW num) "container" "simple-uw" true.
Definition new_NodeExternal (id : string) (additional : list IPv4Network) : Heap → nat * Heap :=
  Node_init (NodeExternal id additional) "host" "host" false.

Definition set_node_interfaces (l : list nat) (n : Node) : Node :=
  mkNode (node_class n) (device n) (component n) l (include_routes n).

(** [Node.add_interface]: the identifier is made from the number of
    interfaces the node has before the append. *)
Definition Node_add_interface (self interface : nat) (h : Heap) : string * Heap :=
  let l := interfaces_of_node h self in
  ("i" +:+ pretty (length l),
   mkHeap (alter (set_node_interfaces (l ++ [interface])) self (nodes h))
          (channels h) (interfaces h)).

Definition class_get_id (c : NodeClass) : string :=
  match c with
  | NodeBackbone num subnum => "backbone" +:+ pretty num +:+ "." +:+ pretty subnum
  | NodeAggregation num subnum => "aggregation" +:+ pretty num +:+ "." +:+ pretty subnum
  | NodeAccess num => "access" +:+ pretty num
  | NodeUW num => "uw" +:+ pretty num
  | NodeExternal id _ => id
  end.

Definition class_get_short (c : NodeClass) : string :=
  match c with
  | NodeBackbone num subnum => "bb" +:+ pretty num +:+ "." +:+ pretty subnum
  | NodeAggregation num subnum => "agg" +:+ pretty num +:+ "." +:+ pretty subnum
  | NodeAccess num => "acc" +:+ pretty num
  | NodeUW num => "uw" +:+ pretty num
  | NodeExternal id _ => id
  end.

Definition Node_get_id (h : Heap) (self : nat) : string :=
  from_option (λ n, class_get_id (node_class n)) "" (nodes h !! self).
Definition Node_get_short (h : Heap) (self : nat) : string :=
  from_option (λ n, class_get_short (node_class n)) "" (nodes h !! self).

(** *** Channel *)

Definition Channel_init (id : string) (net : IPv4Network) (dly : nat) (h : Heap) : nat * Heap :=
  (length (channels h),
   mkHeap (nodes h) (channels h ++ [mkChannel id net dly [] []]) (interfaces h)).

Definition set_channel_interfaces (l : list nat) (c : Channel) : Channel :=
  mkChannel (channel_id c) (network c) (delay c) l (routes c).

Definition set_routes (l : list RouteRecord) (c : Channel) : Channel :=
  mkChannel (channel_id c) (network c) (delay c) (channel_interfaces c) l.

(** [Channel.add_interface]: the offset is the number of members before
    the append. *)
Definition Channel_add_interface (self interface : nat) (h : Heap) : nat * Heap :=
  let l := interfaces_of_channel h self in
  (length l,
   mkHeap (nodes h)
          (alter (set_channel_interfaces (l ++ [interface])) self (channels h))
          (interfaces h)).

(** *** Interface *)

(** [Interface.__init__]: registers with the node, then with the
    channel.  The new object's reference is the next free index. *)
Definition Interface_init (nd ch : nat) (id : option string) (h : Heap) : nat * Heap :=
  let self := length (interfaces h) in
  let '(auto_id, h1) := Node_add_interface nd self h in
  let the_id := match id with Some s => s | None => auto_id end in
  let '(off, h2) := Channel_add_interface ch self h1 in
  (self,
   mkHeap (nodes h2) (channels h2) (interfaces h2 ++ [mkInterface nd the_id ch off])).

(** [Channel.auto] *)
Definition Channel_auto (node_a node_b : nat) (net : IPv4Network) (dly : nat)
    (id_a id_b : option string) (h : Heap) : nat * Heap :=
  let '(ch, h1) :=
    Channel_init ("c_" +:+ Node_get_short h node_a +:+ "_" +:+ Node_get_short h node_b)
                 net dly h in
  let '(_, h2) := Interface_init node_a ch id_a h1 in
  let '(_, h3) := Interface_init node_b ch id_b h2 in
  (ch, h3).

(** [Interface.get_ip]: the address at index [offset + 1] of the
    channel's block, with the block's prefix length.  The index is out of
    range when the block is too small.  (An interface always holds a
    channel; the two [None] branches are for references that no
    constructor makes.) *)
Definition Interface_get_ip (h : Heap) (self : nat) : result (Z * nat) :=
  match interfaces h !! self with
  | Some i =>
      match channels h !! channel i with
      | Some c =>
          result_bind (net_getitem (network c) (Z.of_nat (offset i + 1)))
            (λ a, Ok (a, prefixlen (network c)))
      | None => Raise IndexError
      end
  | None => Raise IndexError
  end.

Record InterfaceDump := mkInterfaceDump {
  dump_id : string;
  dump_channel : string;
  dump_ip : string
}.

Definition Interface_dump (h : Heap) (self : nat) : result InterfaceDump :=
  result_bind (Interface_get_ip h self) (λ '(a, p),
  Ok (mkInterfaceDump
        (from_option interface_id "" (interfaces h !! self))
        (from_option channel_id ""
           (interfaces h !! self ≫= λ i, channels h !! channel i))
        (str_address a +:+ "/" +:+ pretty p))).

(** ** Dictionaries

    A Python [dict] keeps its keys in insertion order, and assigning to a
    key that is present replaces the value in place.  The order is
    observable here (the aggregation pass sorts [items()] with a stable
    sort), so a dictionary is an association list. *)

Section dict.
Context {K V : Type} (eqb : K → K → bool).

Fixpoint dict_get (k : K) (d : list (K * V)) : option V :=
  match d with
  | [] => None
  | (k', v') :: d' => if eqb k' k then Some v' else dict_get k d'
  end.

Fixpoint dict_set (k : K) (v : V) (d : list (K * V)) : list (K * V) :=
  match d with
  | [] => [(k, v)]
  | (k', v') :: d' =>
      if eqb k' k then (k', v) :: d' else (k', v') :: dict_set k v d'
  end.

Definition dict_of_list (l : list (K * V)) : list (K * V) :=
  foldl (λ d e, dict_set e.1 e.2 d) [] l.
End dict.

(** ** Route distribution *)

Record bfs_state := mkBfs {
  known : gset nat;
  queue : list (nat * nat);
  heap : Heap
}.

(** [next_channel.routes.append(r)] *)
Definition append_route (c : nat) (r : RouteRecord) (h : Heap) : Heap :=
  mkHeap (nodes h)
         (alter (λ ch, set_routes (routes ch ++ [r]) ch) c (channels h))
         (interfaces h).

(** The body of the two nested [for] loops of [distribute_route]. *)
Definition visit (self cur_dist : nat) (st : bfs_state) (out_interface : nat) : bfs_state :=
  match interfaces (heap st) !! out_interface with
  | Some i =>
      let next_channel := channel i in
      if decide (next_channel ∈ known st) then st
      else mkBfs ({[next_channel]} ∪ known st)
                 (queue st ++ [(next_channel, (cur_dist + 1)%nat)])
                 (append_route next_channel (self, out_interface, (cur_dist + 1)%nat) (heap st))
  | None => st
  end.

Definition expand (self cur_channel cur_dist : nat) (st : bfs_state) : bfs_state :=
  foldl (λ st in_interface,
           foldl (visit self cur_dist) st
             (from_option (λ i, interfaces_of_node (heap st) (node i)) []
                (interfaces (heap st) !! in_interface)))
        st (interfaces_of_channel (heap st) cur_channel).

(** The [while len(queue)] loop; [None] when the fuel runs out. *)
Fixpoint distribute_route_loop (fuel : nat) (self : nat) (st : bfs_state) : option Heap :=
  match fuel with
  | O => None
  | S fuel' =>
      match queue st with
      | [] => Some (heap st)
      | (cur_channel, cur_dist) :: rest =>
          distribute_route_loop fuel' self
            (expand self cur_channel cur_dist (mkBfs (known st) rest (heap st)))
      end
  end.

(** [Channel.distribute_route].  Every channel enters the queue at most
    once, so two more steps than there are channels always suffice
    ([Channel_distribute_route_total]). *)
Definition Channel_distribute_route (self : nat) (h : Heap) : option Heap :=
  distribute_route_loop (length (channels h) + 2) self
    (mkBfs {[self]} [(self, 0%nat)] h).

(** ** Per-node route tables *)

(** A table entry [(interface, gw_interface, dist)]. *)
Abbreviation RouteEntry := (nat * nat * nat)%type.

Definition update_route (interface : nat) (tbl : list (nat * RouteEntry)) (r : RouteRecord)
    : list (nat * RouteEntry) :=
  let '(chan, gw_interface, dist) := r in
  match dict_get Nat.eqb chan tbl with
  | None => dict_set Nat.eqb chan (interface, gw_interface, dist) tbl
  | Some (_, _, d) =>
      if decide (dist < d)%nat
      then dict_set Nat.eqb chan (interface, gw_interface, dist) tbl
      else tbl
  end.

(** [Node.get_routes] *)
Definition Node_get_routes (h : Heap) (self : nat) : list (nat * RouteEntry) :=
  foldl (λ tbl interface,
           foldl (update_route interface) tbl
             (from_option (λ i, routes_of h (channel i)) [] (interfaces h !! interface)))
        [] (interfaces_of_node h self).

(** [list.sort(key=...)] is stable; a stable sort of a list has one
    result, the one insertion sort computes. *)
Fixpoint insert_route {V} (e : IPv4Network * V) (l : list (IPv4Network * V))
    : list (IPv4Network * V) :=
  match l with
  | [] => [e]
  | x :: l' => if net_ltb x.1 e.1 then x :: insert_route e l' else e :: l
  end.

Definition sort_routes {V} (l : list (IPv4Network * V)) : list (IPv4Network * V) :=
  foldr insert_route [] l.

(** The [while] loop of [get_simplified_routes].  The result list is kept
    top first: [a] is [result[-1]], the head of [below] is [result[-2]]. *)
Fixpoint merge_top (a : IPv4Network * RouteEntry) (below : list (IPv4Network * RouteEntry))
    : list (IPv4Network * RouteEntry) :=
  match below with
  | b :: rest =>
      if net_eqb (supernet a.1) (supernet b.1) && (a.2.1.2 =? b.2.1.2)%nat
      then merge_top (supernet a.1, a.2) rest
      else a :: below
  | [] => [a]
  end.

(** One turn of the [for entry in routes] loop: append, then merge. *)
Definition merge_step (result : list (IPv4Network * RouteEntry))
    (entry : IPv4Network * RouteEntry) : list (IPv4Network * RouteEntry) :=
  merge_top entry result.

Definition simplify (sorted : list (IPv4Network * RouteEntry))
    : list (IPv4Network * RouteEntry) :=
  rev (foldl merge_step [] sorted).

Definition network_of (h : Heap) (c : nat) : IPv4Network :=
  from_option network (mkNet 0 0) (channels h !! c).

(** [Node.get_simplified_routes] *)
Definition Node_get_simplified_routes (h : Heap) (self : nat)
    : list (IPv4Network * RouteEntry) :=
  let routes := (λ e : nat * RouteEntry, (network_of h e.1, e.2)) <$> Node_get_routes h self in
  dict_of_list net_eqb (simplify (sort_routes routes)).

(** ** Blocks and their sub-blocks *)

(** [a] lies inside [b] ([subnet_of] in [ipaddress]). *)
Definition inside (b a : IPv4Network) : Prop :=
  network_address b ≤ network_address a ∧ broadcast_address a ≤ broadcast_address b.

#[global] Instance inside_dec b a : Decision (inside b a).
Proof. unfold inside. apply _. Defined.

(** [net] is not a block with a longer prefix that starts inside [s]. *)
Definition clear_of (s net : IPv4Network) : Prop :=
  (prefixlen s < prefixlen net)%nat →
  ¬ (network_address s ≤ network_address net ≤ broadcast_address s).

(** A destination that the four /30 networks of a /28 never merge with:
    a valid network that is clear of the /27 above the /28. *)
Definition apart (s : IPv4Network) (e : IPv4Network * RouteEntry) : Prop :=
  valid_network e.1 ∧ clear_of s e.1.

(** The order of [sort]: [x] may stand before [y]. *)
Definition route_le {V} (x y : IPv4Network * V) : Prop := net_ltb y.1 x.1 = false.
Definition route_lt {V} (x y : IPv4Network * V) : Prop := net_ltb x.1 y.1 = true.

(** ** Dumps *)

Fixpoint result_mapM {A B} (f : A → result B) (l : list A) : result (list B) :=
  match l with
  | [] => Ok []
  | x :: l' =>
      result_bind (f x) (λ y, result_bind (result_mapM f l') (λ ys, Ok (y :: ys)))
  end.

Record RouteDump := mkRouteDump {
  dump_network : string;
  dump_gateway : string;
  dump_metric : nat
}.

Record NodeDump := mkNodeDump {
  dump_node_id : string;
  dump_device : string;
  dump_component : string;
  dump_interfaces : list InterfaceDump;
  dump_routes : option (list RouteDump)
}.

(** The list comprehension under ['routes'] in [Node.dump]. *)
Definition Node_dump_routes (h : Heap) (self : nat) : result (list RouteDump) :=
  result_mapM
    (λ e : IPv4Network * RouteEntry,
       let '(net, (interface, gw_interface, dist)) := e in
       result_bind (Interface_get_ip h gw_interface) (λ ip,
       Ok (mkRouteDump (str_network net) (str_address ip.1) dist)))
    (filter (λ e : IPv4Network * RouteEntry, e.2.1.1 ≠ e.2.1.2)
            (Node_get_simplified_routes h self)).

(** [Node.dump] *)
Definition Node_dump (h : Heap) (self : nat) : result NodeDump :=
  result_bind (result_mapM (Interface_dump h) (interfaces_of_node h self)) (λ ifs,
  result_bind
    (if from_option include_routes false (nodes h !! self)
     then result_bind (Node_dump_routes h self) (λ rs, Ok (Some rs))
     else Ok None) (λ rs,
  Ok (mkNodeDump (Node_get_id h self)
        (from_option device "" (nodes h !! self))
        (from_option component "" (nodes h !! self))
        ifs rs))).

(** ** Topology *)

Record Topology := mkTopology {
  backbone_num : nat;
  backbone_nodes : list (list nat);
  aggregation_num : nat;
  aggregation_nodes : list (list nat);
  access_num : nat;
  access_nodes : list nat;
  uw_num : nat;
  uw_nodes : list nat;
  external_prefix : string;
  external_num : nat;
  external_nodes : list nat
}.

Definition empty_topology : Topology :=
  mkTopology 0 [] 0 [] 0 [] 0 [] "ext" 0 [].

(** The builders mutate the heap, the pool they are given and the
    topology, and fail when the pool is exhausted: a state and error
    monad over the three. *)
Record World := mkWorld {
  world_heap : Heap;
  world_pools : list NetworkPool;
  world_topology : Topology
}.

Definition M (A : Type) : Type := World → result (A * World).

#[global] Instance M_ret : MRet M := λ A a w, Ok (a, w).
#[global] Instance M_bind : MBind M := λ A B k m w,
  match m w with
  | Ok (a, w') => k a w'
  | Raise e => Raise e
  end.

Definition on_heap {A} (f : Heap → A * Heap) : M A := λ w,
  let '(a, h) := f (world_heap w) in
  Ok (a, mkWorld h (world_pools w) (world_topology w)).

Definition get_topology : M Topology := λ w, Ok (world_topology w, w).
Definition put_topology (t : Topology) : M unit := λ w,
  Ok (tt, mkWorld (world_heap w) (world_pools w) t).

(** [network_pool.gen_network()] on a pool object. *)
Definition pool_gen_network (network_pool : nat) : M IPv4Network := λ w,
  match world_pools w !! network_pool with
  | Some pool =>
      match gen_network pool with
      | Ok (n, pool') =>
          Ok (n, mkWorld (world_heap w) (<[network_pool := pool']> (world_pools w))
                         (world_topology w))
      | Raise e => Raise e
      end
  | None => Raise IndexError
  end.

Fixpoint foldM {A B} (f : B → A → M B) (b : B) (l : list A) : M B :=
  match l with
  | [] => mret b
  | x :: l' => b' ← f b x; foldM f b' l'
  end.

Definition for_each {A} (l : list A) (body : A → M unit) : M unit :=
  foldM (λ _ x, body x) tt l.

Definition range (n : nat) : list nat := seq 0 n.

Definition add_backbone (length network_pool dly : nat) : M (list (list nat)) :=
  nodes ← foldM (λ nodes i,
      t ← get_topology;
      let cur_num := (backbone_num t + i)%nat in
      n0 ← on_heap (new_NodeBackbone cur_num 0);
      n1 ← on_heap (new_NodeBackbone cur_num 1);
      net ← pool_gen_network network_pool;
      _ ← on_heap (Channel_auto n0 n1 net 0 None None);
      mret (nodes ++ [[n0; n1]])) [] (range length);
  _ ← for_each (range length) (λ i,
      let cur_node := (nodes !!! i) !!! 1%nat in
      let next_node := (nodes !!! ((i + 1) `mod` length)%nat) !!! 0%nat in
      net ← pool_gen_network network_pool;
      _ ← on_heap (Channel_auto cur_node next_node net dly None None);
      mret tt);
  t ← get_topology;
  _ ← put_topology
        (mkTopology (backbone_num t + length) (backbone_nodes t ++ nodes)
           (aggregation_num t) (aggregation_nodes t) (access_num t) (access_nodes t)
           (uw_num t) (uw_nodes t) (external_prefix t) (external_num t) (external_nodes t));
  mret nodes.

Definition add_aggregation (uplink_a uplink_b length network_pool dly : nat)
    : M (list (list nat)) :=
  nodes ← foldM (λ nodes i,
      t ← get_topology;
      let cur_num := (aggregation_num t + i)%nat in
      n0 ← on_heap (new_NodeAggregation cur_num 0);
      n1 ← on_heap (new_NodeAggregation cur_num 1);
      net ← pool_gen_network network_pool;
      _ ← on_heap (Channel_auto n0 n1 net 0 None None);
      mret (nodes ++ [[n0; n1]])) [] (range length);
  _ ← (if decide (length = 0%nat) then mret tt
       else
         let next_node := (nodes !!! 0%nat) !!! 0%nat in
         net ← pool_gen_network network_pool;
         _ ← on_heap (Channel_auto uplink_a next_node net dly None None);
         mret tt);
  _ ← for_each (range (length - 1)) (λ i,
      let cur_node := (nodes !!! i) !!! 1%nat in
      let next_node := (nodes !!! (i + 1)%nat) !!! 0%nat in
      net ← pool_gen_network network_pool;
      _ ← on_heap (Channel_auto cur_node next_node net dly None None);
      mret tt);
  _ ← (if decide (length = 0%nat) then mret tt
       else
         let cur_node := (nodes !!! (length - 1)%nat) !!! 1%nat in
         net ← pool_gen_network network_pool;
         _ ← on_heap (Channel_auto cur_node uplink_b net dly None None);
         mret tt);
  t ← get_topology;
  _ ← put_topology
        (mkTopology (backbone_num t) (backbone_nodes t)
           (aggregation_num t + length) (aggregation_nodes t ++ nodes)
           (access_num t) (access_nodes t)
           (uw_num t) (uw_nodes t) (external_prefix t) (external_num t) (external_nodes t));
  mret nodes.

Definition add_access (uplink length network_pool dly : nat) : M (list nat) :=
  nodes ← foldM (λ nodes i,
      t ← get_topology;
      let cur_num := (access_num t + i)%nat in
      nd ← on_heap (new_NodeAccess cur_num);
      mret (nodes ++ [nd])) [] (range length);
  _ ← (if decide (0 < length)%nat then
         net ← pool_gen_network network_pool;
         _ ← on_heap (Channel_auto uplink (nodes !!! 0%nat) net dly None None);
         mret tt
       else mret tt);
  _ ← for_each (seq 1 (length - 1)) (λ i,
      net ← pool_gen_network network_pool;
      _ ← on_heap (Channel_auto (nodes !!! (i - 1)%nat) (nodes !!! i) net dly None None);
      mret tt);
  t ← get_topology;
  _ ← put_topology
        (mkTopology (backbone_num t) (backbone_nodes t)
           (aggregation_num t) (aggregation_nodes t)
           (access_num t + length) (access_nodes t ++ nodes)
           (uw_num t) (uw_nodes t) (external_prefix t) (external_num t) (external_nodes t));
  mret nodes.

Definition add_uw (uplinks : list nat) (network_pool : nat) : M nat :=
  t ← get_topology;
  nd ← on_heap (new_NodeUW (uw_num t));
  _ ← for_each uplinks (λ uplink,
      net ← pool_gen_network network_pool;
      _ ← on_heap (Channel_auto uplink nd net 0 None None);
      mret tt);
  t ← get_topology;
  _ ← put_topology
        (mkTopology (backbone_num t) (backbone_nodes t)
           (aggregation_num t) (aggregation_nodes t) (access_num t) (access_nodes t)
           (uw_num t + 1) (uw_nodes t ++ [nd])
           (external_prefix t) (external_num t) (external_nodes t));
  mret nd.

Definition add_external (uplink : nat) (net : IPv4Network) (id : string) : M nat :=
  t ← get_topology;
  nd ← on_heap (new_NodeExternal (external_prefix t +:+ pretty (external_num t)) []);
  _ ← on_heap (Channel_auto uplink nd net 0 None (Some id));
  t ← get_topology;
  _ ← put_topology
        (mkTopology (backbone_num t) (backbone_nodes t)
           (aggregation_num t) (aggregation_nodes t) (access_num t) (access_nodes t)
           (uw_num t) (uw_nodes t)
           (external_prefix t) (external_num t + 1) (external_nodes t ++ [nd]));
  mret nd.

(** [Topology.get_nodes] *)
Definition Topology_get_nodes (t : Topology) : list nat :=
  concat (backbone_nodes t ++ aggregation_nodes t)
  ++ access_nodes t ++ uw_nodes t ++ external_nodes t.

(** [Topology.get_channels] collects the channels in a [set] and returns
    [list(channels)].  The order in which a [set] of objects is iterated
    is fixed for one set but not specified; this definition lists the
    channels in the order in which they were added, and the enumeration
    that [distribute_routes] follows is a parameter below. *)
Definition Topology_get_channels (t : Topology) (h : Heap) : list nat :=
  foldl (λ chans nd,
           foldl (λ chans interface,
                    match interfaces h !! interface with
                    | Some i => if decide (channel i ∈ chans) then chans
                                else chans ++ [channel i]
                    | None => chans
                    end)
                 chans (interfaces_of_node h nd))
        [] (Topology_get_nodes t).

(** [Topology.distribute_routes], following the enumeration [order] of
    the channels. *)
Fixpoint distribute_routes_in (order : list nat) (h : Heap) : option Heap :=
  match order with
  | [] => Some h
  | c :: order' =>
      match Channel_distribute_route c h with
      | Some h' => distribute_routes_in order' h'
      | None => None
      end
  end.

Definition Topology_distribute_routes (t : Topology) (h : Heap) : option Heap :=
  distribute_routes_in (Topology_get_channels t h) h.

(** ** Construction scripts

    A topology is built by calls of the three constructors.  A script
    that names an object that does not exist yet cannot be written in
    Python; [exec] rejects it. *)

Inductive op :=
  | OpNode (cls : NodeClass) (dev comp : string) (incl : bool)
  | OpChannel (id : string) (net : IPv4Network) (dly : nat)
  | OpInterface (nd ch : nat) (id : option string).

Definition exec (o : op) (h : Heap) : option Heap :=
  match o with
  | OpNode cls dev comp incl => Some (Node_init cls dev comp incl h).2
  | OpChannel id net dly => Some (Channel_init id net dly h).2
  | OpInterface nd ch id =>
      if decide (nd < length (nodes h) ∧ ch < length (channels h))%nat
      then Some (Interface_init nd ch id h).2
      else None
  end.

Fixpoint build_from (h : Heap) (ops : list op) : option Heap :=
  match ops with
  | [] => Some h
  | o :: ops' => exec o h ≫= λ h', build_from h' ops'
  end.

Definition build : list op → option Heap := build_from empty_heap.

(** The [id] arguments of the [Interface(...)] calls on node [n], in
    call order. *)
Definition explicit_ids (n : nat) (ops : list op) : list (option string) :=
  omap (λ o, match o with
             | OpInterface nd _ id => if decide (nd = n) then Some id else None
             | _ => None
             end) ops.

(** The identifiers of the interfaces of node [n], in attachment order. *)
Definition node_interface_ids (h : Heap) (n : nat) : list string :=
  (λ i, from_option interface_id "" (interfaces h !! i)) <$> interfaces_of_node h n.

(** ** Properties of heaps *)

(** Every interface is on a channel of the heap. *)
Definition wf_heap (h : Heap) : Prop :=
  Forall (λ i, (channel i < length (channels h))%nat) (interfaces h).

(** No route record has been stored: the state before the first
    [distribute_routes]. *)
Definition no_routes (h : Heap) : Prop :=
  Forall (λ c, routes c = []) (channels h).

(** Route records have a positive distance and never name the channel
    that stores them as their origin. *)
Definition record_ok (c : nat) (r : RouteRecord) : Prop :=
  (1 ≤ r.2)%nat ∧ r.1.1 ≠ c.

Definition routes_ok (h : Heap) : Prop :=
  ∀ c r, r ∈ routes_of h c → record_ok c r.

(** Members of a channel: the [k]-th member is on that channel, at
    offset [k]. *)
Definition channel_members_ok (h : Heap) : Prop :=
  ∀ c ch k i,
    channels h !! c = Some ch → channel_interfaces ch !! k = Some i →
    ∃ itf, interfaces h !! i = Some itf ∧ channel itf = c ∧ offset itf = k.

(** The identifier given to the [k]-th interface of a node: the explicit
    one if the call had one, [i<k>] otherwise. *)
Definition assigned_id (k : nat) (id : option string) : string :=
  default ("i" +:+ pretty k) id.

(** Interfaces of a node: the identifiers are the assigned ones, and
    only nodes that exist have had interfaces attached. *)
Definition node_members_ok (ops : list op) (h : Heap) : Prop :=
  (∀ n, (n < length (nodes h))%nat →
        node_interface_ids h n = imap assigned_id (explicit_ids n ops)) ∧
  (∀ n, (length (nodes h) ≤ n)%nat → explicit_ids n ops = []) ∧
  (∀ n nd i, nodes h !! n = Some nd → i ∈ node_interfaces nd →
             (i < length (interfaces h))%nat).

(** The graph without the route records. *)
Definition graph (h : Heap) : list Node * list Channel * list Interface :=
  (nodes h, set_routes [] <$> channels h, interfaces h).

(** The distances recorded in channel [c] for origin [o]. *)
Definition distances_from (h : Heap) (o c : nat) : list nat :=
  (λ r : RouteRecord, r.2) <$> filter (λ r : RouteRecord, r.1.1 = o) (routes_of h c).

(** What a node reports: its table, the aggregated table and its dump. *)
Definition route_snapshot (h : Heap) (n : nat) :=
  (Node_get_routes h n, Node_get_simplified_routes h n, Node_dump h n).

(** The log of a traversal: the records it appends, each with the
    channel it is appended to. *)
Definition apply_log (log : list (nat * RouteRecord)) (h : Heap) : Heap :=
  foldl (λ h e, append_route e.1 e.2 h) h log.

(** A traversal state on another heap. *)
Definition with_heap (st : bfs_state) (h : Heap) : bfs_state :=
  mkBfs (known st) (queue st) h.

(** A log entry of the traversal from [self], made while [K] was known:
    it is stored in a channel outside [K], names [self] as origin and has
    a positive distance. *)
Definition entry_from (self : nat) (K : gset nat) (e : nat * RouteRecord) : Prop :=
  ¬ (e.1 ∈ K) ∧ e.2.1.1 = self ∧ (1 ≤ e.2.2)%nat.

(** What every piece of the traversal loop does to a state: the known
    set grows, by as many channels as the queue does, and only by
    channels that some interface is on; the records appended are a log
    that does not depend on the records stored before. *)
Definition step_ok (self : nat) (F : bfs_state → bfs_state) : Prop :=
  ∀ st,
    known st ⊆ known (F st) ∧
    (size (known (F st)) + length (queue st)
     = size (known st) + length (queue (F st)))%nat ∧
    (∀ c, c ∈ known (F st) →
          c ∈ known st ∨ ∃ i, i ∈ interfaces (heap st) ∧ channel i = c) ∧
    ∃ log,
      Forall (entry_from self (known st)) log ∧
      ∀ h', graph h' = graph (heap st) →
            F (with_heap st h') = with_heap (F st) (apply_log log h').

(** A table already holds, for the origin of record [r], an entry that is
    at least as near. *)
Definition dominates (tbl : list (nat * RouteEntry)) (r : RouteRecord) : Prop :=
  ∃ e, dict_get Nat.eqb r.1.1 tbl = Some e ∧ (e.2 ≤ r.2)%nat.

(** The ['routes'] list of a node's dump, and the address a dump prints
    for an interface. *)
Definition dumped_routes (h : Heap) (n : nat) : option (list RouteDump) :=
  match Node_dump h n with
  | Ok d => dump_routes d
  | Raise _ => None
  end.

Definition address_of (h : Heap) (i : nat) : string :=
  match Interface_get_ip h i with
  | Ok (a, _) => str_address a
  | Raise _ => ""
  end.

(** Node [n] has an interface on channel [c]. *)
Definition attached (h : Heap) (n c : nat) : Prop :=
  ∃ i itf, i ∈ interfaces_of_node h n ∧ interfaces h !! i = Some itf ∧ channel itf = c.

(** ** Adjacent channels *)

(** The interfaces that [distribute_route] looks at when it expands
    channel [c], in the order of its two nested loops. *)
Definition out_interfaces (h : Heap) (c : nat) : list nat :=
  interfaces_of_channel h c ≫= λ in_interface,
    from_option (λ i, interfaces_of_node h (node i)) [] (interfaces h !! in_interface).

Definition channel_of (h : Heap) (o : nat) : option nat :=
  channel <$> interfaces h !! o.

(** The channels of those interfaces: [c] itself and the channels that
    share a node with [c]. *)
Definition neighbours (h : Heap) (c : nat) : list nat :=
  omap (channel_of h) (out_interfaces h c).

(** Four distinct channels in a row, seen from [a]: [a] touches only
    [b], [b] only [a] and [c], [c] only [b] and [d], [d] only [c]. *)
Definition chain_from (h : Heap) (a b c d : nat) : Prop :=
  NoDup [a; b; c; d] ∧
  Forall (λ x, x ∈ [a; b]) (neighbours h a) ∧ b ∈ neighbours h a ∧
  Forall (λ x, x ∈ [a; b; c]) (neighbours h b) ∧ c ∈ neighbours h b ∧
  Forall (λ x, x ∈ [b; c; d]) (neighbours h c) ∧ d ∈ neighbours h c ∧
  Forall (λ x, x ∈ [c; d]) (neighbours h d).

(** The records a traversal from the first channel of a chain leaves in
    channel [x]: their distances. *)
Definition chain_distances (b c d x : nat) : list nat :=
  if decide (x = b) then [1%nat]
  else if decide (x = c) then [2%nat]
  else if decide (x = d) then [3%nat]
  else [].

(** ** Scenarios *)

Definition run_script {A} (parent : IPv4Network) (new_prefix : nat) (script : M A)
    : result (A * World) :=
  result_bind (NetworkPool_init parent new_prefix) (λ pool,
  script (mkWorld empty_heap [pool] empty_topology)).

Definition heap_of {A} (r : result (A * World)) : Heap :=
  match r with Ok (_, w) => world_heap w | Raise _ => empty_heap end.
Definition topology_of {A} (r : result (A * World)) : Topology :=
  match r with Ok (_, w) => world_topology w | Raise _ => empty_topology end.

Definition net_10_0_0_0_24 : IPv4Network := mkNet 167772160 24.
Definition net_10_96_0_0_16 : IPv4Network := mkNet 174063616 16.

(** Three nodes X (0), Y (1), Z (2) in a row: channel 0 joins X and Y,
    channel 1 joins Y and Z; blocks from 10.0.0.0/24 cut into /30. *)
Definition chain3 : result (unit * World) :=
  run_script net_10_0_0_0_24 30
    (x ← add_uw [] 0; _ ← add_access x 2 0 0; mret tt).

(** Five nodes in a row: channels A (0), B (1), C (2), D (3). *)
Definition chain5 : result (unit * World) :=
  run_script net_10_0_0_0_24 30
    (x ← add_uw [] 0; _ ← add_access x 4 0 0; mret tt).

(** [add_backbone(1, pool, 25)]: one pair of backbone nodes, joined by
    the pair's inner channel (0) and by the ring channel (1). *)
Definition backbone1 : result (list (list nat) * World) :=
  run_script net_10_96_0_0_16 28 (add_backbone 1 0 25).

(** A hub (node 0) with [k] leaves on the first [k] blocks, and an
    observer (the last node) on the next block. *)
Definition star (k : nat) : result (unit * World) :=
  run_script net_10_0_0_0_24 30
    (hub ← add_uw [] 0;
     _ ← for_each (range k) (λ _, _ ← add_access hub 1 0 0; mret tt);
     _ ← add_uw [hub] 0;
     mret tt).

(** The hub with four leaves on the blocks of 10.0.0.0/28, the observer
    on 10.0.0.16/30, three links elsewhere that use up the blocks to
    10.0.0.28/30, and a fifth leaf of the hub on 10.0.0.32/30. *)
Definition star_far : result (unit * World) :=
  run_script net_10_0_0_0_24 30
    (hub ← add_uw [] 0;
     _ ← for_each (range 4) (λ _, _ ← add_access hub 1 0 0; mret tt);
     _ ← add_uw [hub] 0;
     _ ← for_each (range 3) (λ _, x ← add_uw [] 0; _ ← add_access x 1 0 0; mret tt);
     _ ← add_access hub 1 0 0;
     mret tt).

(** A node whose first interface is given the identifier [i1] and whose
    second one is numbered automatically. *)
Definition clash_script : list op :=
  [ OpNode (NodeAccess 0) "router" "simple-router" true;
    OpNode (NodeAccess 1) "router" "simple-router" true;
    OpNode (NodeAccess 2) "router" "simple-router" true;
    OpChannel "c_acc0_acc1" (mkNet 167772160 30) 0;
    OpInterface 0 0 (Some "i1");
    OpInterface 1 0 None;
    OpChannel "c_acc0_acc2" (mkNet 167772164 30) 0;
    OpInterface 0 1 None;
    OpInterface 2 1 None ].

Definition after_distribution (order : list nat) (h : Heap) : Heap :=
  default empty_heap (distribute_routes_in order h).

(** ** Further reports *)

Record IpsDump := mkIpsDump {
  ips_id : string;
  ips_interfaces : list string
}.

(** [Node.get_ips] *)
Definition Node_get_ips (h : Heap) (self : nat) : result IpsDump :=
  result_bind
    (result_mapM (λ interface,
                    result_bind (Interface_get_ip h interface) (λ ip, Ok (str_address ip.1)))
       (interfaces_of_node h self)) (λ l,
  Ok (mkIpsDump (Node_get_id h self) l)).

Record ChannelDump := mkChannelDump {
  channel_dump_id : string;
  channel_dump_delay : option string
}.

(** [Channel.dump]: the ['delay'] key is there for a delay other than 0. *)
Definition Channel_dump (h : Heap) (self : nat) : ChannelDump :=
  mkChannelDump
    (from_option channel_id "" (channels h !! self))
    (let d := from_option delay 0%nat (channels h !! self) in
     if decide (d = 0%nat) then None else Some (pretty d +:+ "us")).

Record TopologyDump := mkTopologyDump {
  dump_version : string;
  dump_nodes : list NodeDump;
  dump_channels : list ChannelDump
}.

(** [Topology.dump], with the channels in the enumeration [order] that
    [get_channels] returns them in. *)
Definition Topology_dump_in (order : list nat) (t : Topology) (h : Heap)
    : result TopologyDump :=
  result_bind (result_mapM (Node_dump h) (Topology_get_nodes t)) (λ ns,
  Ok (mkTopologyDump "1.0" ns (Channel_dump h <$> order))).

(** [Topology.get_uw_nodes] *)
Definition Topology_get_uw_nodes (t : Topology) : list nat := [] ++ uw_nodes t.

(** ** The links between the three kinds of objects *)

(** The interface lists of the nodes and of the channels hold exactly
    the interfaces that name them, each once. *)
Definition links_ok (h : Heap) : Prop :=
  (∀ n i, i ∈ interfaces_of_node h n ↔ node <$> interfaces h !! i = Some n) ∧
  (∀ c i, i ∈ interfaces_of_channel h c ↔ channel <$> interfaces h !! i = Some c) ∧
  (∀ n, NoDup (interfaces_of_node h n)) ∧
  (∀ c, NoDup (interfaces_of_channel h c)).

(** Two nodes and a channel on a block of two addresses. *)
Definition narrow_script : list op :=
  [ OpNode (NodeAccess 0) "router" "simple-router" true;
    OpNode (NodeAccess 1) "router" "simple-router" true;
    OpChannel "c_acc0_acc1" (mkNet 167772160 31) 0;
    OpInterface 0 0 None;
    OpInterface 1 0 None ].

(** ** Hop counts *)

(** [hops h a n c]: a walk of [n] steps leads from channel [a] to channel
    [c], each step to a channel that [distribute_route] reaches from the
    one before (a channel that shares a node with it). *)
Inductive hops (h : Heap) (a : nat) : nat → nat → Prop :=
  | hops_here : hops h a 0 a
  | hops_step n c x : hops h a n c → x ∈ neighbours h c → hops h a (S n) x.

(** [d] is the least number of hops from [a] to [c]. *)
Definition distance (h : Heap) (a c d : nat) : Prop :=
  hops h a d c ∧ ∀ n, hops h a n c → (d ≤ n)%nat.

(** What one expansion finds: the new channels, each with the interface
    it was reached through, in the order of the loops. *)
Definition news_queue (d : nat) (news : list (nat * nat)) : list (nat * nat) :=
  (λ x, (x.1, (d + 1)%nat)) <$> news.
Definition news_log (self d : nat) (news : list (nat * nat)) : list (nat * RouteRecord) :=
  (λ x, (x.1, (self, x.2, (d + 1)%nat))) <$> news.

(** The invariant of the [while] loop of [distribute_route] from channel
    [a], for the known set [K], the queue [q] and the records [L]
    appended so far. *)
Record bfs_inv (h : Heap) (a : nat) (K : gset nat) (q : list (nat * nat))
    (L : list (nat * RouteRecord)) : Prop := mk_bfs_inv {
  inv_known : ∀ c, c ∈ K ↔ c = a ∨ c ∈ L.*1;
  inv_nodup : NoDup L.*1;
  inv_self : ¬ (a ∈ L.*1);
  inv_log : ∀ c s gw d, (c, (s, gw, d)) ∈ L →
      s = a ∧ channel_of h gw = Some c ∧ distance h a c d ∧
      ∃ c' d', d = S d' ∧ distance h a c' d' ∧ gw ∈ out_interfaces h c';
  inv_queue : ∀ c d, (c, d) ∈ q → c ∈ K ∧ distance h a c d;
  inv_sorted : StronglySorted (λ x y : nat * nat, (x.2 ≤ y.2 ≤ x.2 + 1)%nat) q;
  inv_done : ∀ c, c ∈ K → c ∈ q.*1 ∨ ∀ x, x ∈ neighbours h c → x ∈ K;
  inv_front : ∀ c0 d0 rest, q = (c0, d0) :: rest →
      ∀ x n, hops h a n x → (n ≤ d0)%nat → x ∈ K
}.

(** ** What a node reads *)

(** The records that a node reads through its interface [i]: those of
    the channel the interface is on. *)
Definition records_at (h : Heap) (i : nat) : list RouteRecord :=
  from_option (λ itf, routes_of h (channel itf)) [] (interfaces h !! i).

(** ** Addresses and gateways of table entries *)

(** Address [x] belongs to block [n]. *)
Definition has_address (n : IPv4Network) (x : Z) : Prop :=
  network_address n ≤ x ≤ broadcast_address n.

(** The gateway interface of an entry of a node's table, [entry[1][1]]
    in the merge loop. *)
Definition gateway_of {K} (e : K * RouteEntry) : nat := e.2.1.2.

(** No two entries of a list of destinations share an address. *)
Definition pairwise_apart (l : list (IPv4Network * RouteEntry)) : Prop :=
  StronglySorted (λ a b : IPv4Network * RouteEntry, ¬ overlaps a.1 b.1) l.

(** ** The other half of a supernet *)

(** The block of the same size that shares its supernet with [n]: the
    other of the two blocks that [supernet] sends to the same block. *)
Definition other_half (n : IPv4Network) : IPv4Network :=
  mkNet (2 * network_address (supernet n) + 2 ^ (32 - Z.of_nat (prefixlen n))
         - network_address n)
        (prefixlen n).

(** ** Further scenarios *)

(** The hub with six leaves on the blocks of 10.0.0.0/28 and on
    10.0.0.16/30 and 10.0.0.20/30, the observer on 10.0.0.24/30, one link
    elsewhere on 10.0.0.28/30, and a seventh leaf of the hub on
    10.0.0.32/30. *)
Definition star_six_far : result (unit * World) :=
  run_script net_10_0_0_0_24 30
    (hub ← add_uw [] 0;
     _ ← for_each (range 6) (λ _, _ ← add_access hub 1 0 0; mret tt);
     _ ← add_uw [hub] 0;
     _ ← (x ← add_uw [] 0; _ ← add_access x 1 0 0; mret tt);
     _ ← add_access hub 1 0 0;
     mret tt).

(** A node whose first interface is given the identifier [i0], whose
    second one is numbered automatically and whose third one is given
    the identifier [wan]. *)
Definition mixed_script : list op :=
  [ OpNode (NodeAccess 0) "router" "simple-router" true;
    OpNode (NodeAccess 1) "router" "simple-router" true;
    OpChannel "c_acc0_acc1" (mkNet 167772160 30) 0;
    OpInterface 0 0 (Some "i0");
    OpInterface 1 0 None;
    OpChannel "c_acc0_acc1" (mkNet 167772164 30) 0;
    OpInterface 0 1 None;
    OpInterface 1 1 None;
    OpChannel "c_acc0_acc1" (mkNet 167772168 30) 0;
    OpInterface 0 2 (Some "wan");
    OpInterface 1 2 None ].

(** A hub (node 0) with four leaves on the blocks of 10.0.0.0/28, two
    leaves on two channels that are both given the block 10.0.0.16/29,
    and the observer (node 7) on 10.0.0.32/30. *)
Definition twin_script : list op :=
  [ OpNode (NodeUW 0) "router" "simple-router" true;
    OpNode (NodeAccess 0) "router" "simple-router" true;
    OpNode (NodeAccess 1) "router" "simple-router" true;
    OpNode (NodeAccess 2) "router" "simple-router" true;
    OpNode (NodeAccess 3) "router" "simple-router" true;
    OpNode (NodeAccess 4) "router" "simple-router" true;
    OpNode (NodeAccess 5) "router" "simple-router" true;
    OpNode (NodeUW 1) "router" "simple-router" true;
    OpChannel "c0" (mkNet 167772160 30) 0; OpInterface 0 0 None; OpInterface 1 0 None;
    OpChannel "c1" (mkNet 167772164 30) 0; OpInterface 0 1 None; OpInterface 2 1 None;
    OpChannel "c2" (mkNet 167772168 30) 0; OpInterface 0 2 None; OpInterface 3 2 None;
    OpChannel "c3" (mkNet 167772172 30) 0; OpInterface 0 3 None; OpInterface 4 3 None;
    OpChannel "c4" (mkNet 167772176 29) 0; OpInterface 0 4 None; OpInterface 5 4 None;
    OpChannel "c5" (mkNet 167772176 29) 0; OpInterface 0 5 None; OpInterface 6 5 None;
    OpChannel "c6" (mkNet 167772192 30) 0; OpInterface 0 6 None; OpInterface 7 6 None ].

(** * The address arithmetic of [ipaddress] *)

Section masks.
Variable n : IPv4Network.
Hypothesis Hp : (prefixlen n ≤ 32)%nat.

Lemma hostmask_pow2 : hostmask n = 2 ^ (32 - Z.of_nat (prefixlen n)) - 1.
Proof.
  unfold hostmask, netmask. destruct n as [a p]; simpl in *.
  do 33 (destruct p as [|p]; [vm_compute; reflexivity|]). lia.
Qed.

Lemma netmask_pow2 : netmask n = 2 ^ 32 - 2 ^ (32 - Z.of_nat (prefixlen n)).
Proof.
  unfold netmask. destruct n as [a p]; simpl in *.
  do 33 (destruct p as [|p]; [vm_compute; reflexivity|]). lia.
Qed.

Lemma netmask_land_hostmask : Z.land (netmask n) (hostmask n) = 0.
Proof.
  unfold hostmask, netmask. destruct n as [a p]; simpl in *.
  do 33 (destruct p as [|p]; [vm_compute; reflexivity|]). lia.
Qed.

Lemma netmask_lor_hostmask : Z.lor (netmask n) (hostmask n) = ALL_ONES.
Proof.
  unfold hostmask, netmask. destruct n as [a p]; simpl in *.
  do 33 (destruct p as [|p]; [vm_compute; reflexivity|]). lia.
Qed.

Lemma hostmask_ones : hostmask n = Z.ones (32 - Z.of_nat (prefixlen n)).
Proof. rewrite hostmask_pow2, Z.ones_equiv. lia. Qed.

Lemma aligned_of_valid :
  Z.land (network_address n) (netmask n) = network_address n →
  network_address n `mod` 2 ^ (32 - Z.of_nat (prefixlen n)) = 0.
Proof.
  intros Hv. rewrite <- Z.land_ones by lia. rewrite <- hostmask_ones.
  rewrite <- Hv, <- Z.land_assoc, netmask_land_hostmask. apply Z.land_0_r.
Qed.

Lemma valid_of_aligned :
  0 ≤ network_address n ≤ ALL_ONES →
  network_address n `mod` 2 ^ (32 - Z.of_nat (prefixlen n)) = 0 →
  Z.land (network_address n) (netmask n) = network_address n.
Proof.
  intros Hr Hm.
  assert (Hh : Z.land (network_address n) (hostmask n) = 0).
  { rewrite hostmask_ones, Z.land_ones by lia. exact Hm. }
  assert (Ha : Z.land (network_address n) ALL_ONES = network_address n).
  { change ALL_ONES with (Z.ones 32). rewrite Z.land_ones by lia.
    apply Z.mod_small. unfold ALL_ONES in Hr. lia. }
  rewrite <- Ha at 2. rewrite <- netmask_lor_hostmask.
  rewrite Z.land_lor_distr_r, Hh. symmetry. apply Z.lor_0_r.
Qed.

Lemma broadcast_of_aligned :
  network_address n `mod` 2 ^ (32 - Z.of_nat (prefixlen n)) = 0 →
  broadcast_address n = network_address n + 2 ^ (32 - Z.of_nat (prefixlen n)) - 1.
Proof.
  intros Hm. unfold broadcast_address.
  assert (Hh : Z.land (network_address n) (hostmask n) = 0).
  { rewrite hostmask_ones, Z.land_ones by lia. exact Hm. }
  rewrite <- Z.lxor_lor by exact Hh.
  rewrite <- Z.add_nocarry_lxor by exact Hh.
  rewrite hostmask_pow2. lia.
Qed.
End masks.

Lemma broadcast_of_valid n :
  valid_network n →
  broadcast_address n = network_address n + 2 ^ (32 - Z.of_nat (prefixlen n)) - 1.
Proof.
  intros (Hp & Hr & Hv). apply broadcast_of_aligned; [exact Hp|].
  by apply aligned_of_valid.
Qed.

(** * The pool *)

Lemma subnets_blocks parent p l :
  valid_network parent →
  (prefixlen parent ≤ p ≤ 32)%nat →
  subnets parent p = Ok l →
  l = nth_block parent p <$> seqZ 0 (2 ^ (Z.of_nat p - Z.of_nat (prefixlen parent))).
Proof.
  intros Hv [Hq Hp] Hs. unfold subnets in Hs.
  destruct (decide (prefixlen parent = max_prefixlen)) as [H32|H32].
  - unfold max_prefixlen in H32. assert (p = 32%nat) as -> by lia.
    rewrite H32. change (2 ^ (Z.of_nat 32 - Z.of_nat 32)) with 1.
    inversion Hs; subst l. unfold nth_block. simpl.
    destruct parent as [a q]; simpl in *. subst q. f_equal. f_equal. lia.
  - unfold max_prefixlen in *.
    destruct (decide (p < prefixlen parent)%nat); [lia|].
    replace (prefixlen parent + (p - prefixlen parent))%nat with p in Hs by lia.
    destruct (decide (32 < p)%nat); [lia|].
    inversion Hs; subst l; clear Hs.
    unfold py_range. rewrite <- list_fmap_compose.
    destruct Hv as (Hq' & Hr & Hl).
    pose proof (aligned_of_valid parent Hq' Hl) as Hal.
    rewrite (broadcast_of_aligned parent Hq' Hal), (hostmask_pow2 parent Hq').
    set (q := prefixlen parent) in *.
    assert (Hstep : Z.shiftr (2 ^ (32 - Z.of_nat q) - 1 + 1) (Z.of_nat (p - q))
                    = 2 ^ (32 - Z.of_nat p)).
    { rewrite Z.shiftr_div_pow2 by lia.
      replace (2 ^ (32 - Z.of_nat q) - 1 + 1) with (2 ^ (32 - Z.of_nat q)) by lia.
      rewrite <- Z.pow_sub_r by lia. f_equal. lia. }
    rewrite Hstep.
    assert (Hsplit : 2 ^ (32 - Z.of_nat q)
                     = 2 ^ (Z.of_nat p - Z.of_nat q) * 2 ^ (32 - Z.of_nat p)).
    { rewrite <- Z.pow_add_r by lia. f_equal. lia. }
    assert (Hpos : 0 < 2 ^ (32 - Z.of_nat p)) by (apply Z.pow_pos_nonneg; lia).
    assert (Hcount : (network_address parent + 2 ^ (32 - Z.of_nat q) - 1 + 1
                      - network_address parent + 2 ^ (32 - Z.of_nat p) - 1)
                     / 2 ^ (32 - Z.of_nat p)
                     = 2 ^ (Z.of_nat p - Z.of_nat q)).
    { replace (network_address parent + 2 ^ (32 - Z.of_nat q) - 1 + 1
               - network_address parent + 2 ^ (32 - Z.of_nat p) - 1)
        with (2 ^ (Z.of_nat p - Z.of_nat q) * 2 ^ (32 - Z.of_nat p)
              + (2 ^ (32 - Z.of_nat p) - 1)) by lia.
      rewrite Z.div_add_l by lia. rewrite Z.div_small by lia. lia. }
    rewrite Hcount. reflexivity.
Qed.

Lemma gen_networks_take k pool blocks pool' :
  gen_networks k pool = Ok (blocks, pool') →
  blocks = take k (free_networks pool) ∧ free_networks pool' = drop k (free_networks pool).
Proof.
  revert pool blocks pool'. induction k as [|k IH]; intros pool blocks pool' H; simpl in H.
  - inversion H; subst. by rewrite take_0, drop_0.
  - unfold gen_network in H. destruct pool as [[|n rest]]; simpl in *; [discriminate|].
    destruct (gen_networks k (mkPool rest)) as [[ns pool2]|e] eqn:E; simpl in H; [|discriminate].
    inversion H; subst. apply IH in E as [-> ->]. done.
Qed.

Lemma nth_block_in_partition parent p k :
  valid_network parent →
  (prefixlen parent ≤ p ≤ 32)%nat →
  0 ≤ k < 2 ^ (Z.of_nat p - Z.of_nat (prefixlen parent)) →
  in_partition parent p (nth_block parent p k).
Proof.
  intros Hv [Hq Hp] Hk.
  pose proof (broadcast_of_valid parent Hv) as Hb.
  destruct Hv as (Hq' & Hr & Hl).
  pose proof (aligned_of_valid parent Hq' Hl) as Hal.
  set (q := prefixlen parent) in *. set (a := network_address parent) in *.
  assert (Hsplit : 2 ^ (32 - Z.of_nat q)
                   = 2 ^ (Z.of_nat p - Z.of_nat q) * 2 ^ (32 - Z.of_nat p)).
  { rewrite <- Z.pow_add_r by lia. f_equal. lia. }
  assert (Hpos : 0 < 2 ^ (32 - Z.of_nat p)) by (apply Z.pow_pos_nonneg; lia).
  assert (Hposq : 0 < 2 ^ (32 - Z.of_nat q)) by (apply Z.pow_pos_nonneg; lia).
  assert (Htop : a + 2 ^ (32 - Z.of_nat q) ≤ 2 ^ 32).
  { assert (Hd : 2 ^ 32 = 2 ^ Z.of_nat q * 2 ^ (32 - Z.of_nat q)).
    { rewrite <- Z.pow_add_r by lia. f_equal. lia. }
    apply Z.mod_divide in Hal; [|lia]. destruct Hal as [m Hm].
    unfold ALL_ONES in Hr.
    assert (m < 2 ^ Z.of_nat q) by nia.
    assert ((m + 1) * 2 ^ (32 - Z.of_nat q) ≤ 2 ^ Z.of_nat q * 2 ^ (32 - Z.of_nat q))
      by (apply Z.mul_le_mono_nonneg_r; lia).
    lia. }
  assert (Hal' : (a + k * 2 ^ (32 - Z.of_nat p)) `mod` 2 ^ (32 - Z.of_nat p) = 0).
  { rewrite Z.mod_add by lia. apply Z.mod_divide; [lia|].
    apply Z.mod_divide in Hal; [|lia]. destruct Hal as [m Hm].
    exists (m * 2 ^ (Z.of_nat p - Z.of_nat q)). rewrite Hm, Hsplit. lia. }
  assert (Hrange : 0 ≤ a + k * 2 ^ (32 - Z.of_nat p)
                   ∧ a + k * 2 ^ (32 - Z.of_nat p) + 2 ^ (32 - Z.of_nat p)
                     ≤ a + 2 ^ (32 - Z.of_nat q)).
  { assert ((k + 1) * 2 ^ (32 - Z.of_nat p)
            ≤ 2 ^ (Z.of_nat p - Z.of_nat q) * 2 ^ (32 - Z.of_nat p))
      by (apply Z.mul_le_mono_nonneg_r; lia).
    assert (0 ≤ k * 2 ^ (32 - Z.of_nat p)) by (apply Z.mul_nonneg_nonneg; lia).
    lia. }
  assert (Hvb : valid_network (nth_block parent p k)).
  { unfold valid_network, nth_block; cbn [network_address prefixlen]. split; [unfold max_prefixlen; lia|].
    split; [unfold ALL_ONES; lia|].
    apply (valid_of_aligned (nth_block parent p k)); unfold nth_block;
      cbn [network_address prefixlen]; [lia|unfold ALL_ONES; lia|exact Hal']. }
  unfold in_partition. split; [done|]. split; [exact Hvb|].
  rewrite (broadcast_of_valid _ Hvb), Hb. unfold nth_block; cbn [network_address prefixlen]. lia.
Qed.

Lemma nth_block_disjoint parent p j k :
  valid_network parent →
  (prefixlen parent ≤ p ≤ 32)%nat →
  0 ≤ j < 2 ^ (Z.of_nat p - Z.of_nat (prefixlen parent)) →
  0 ≤ k < 2 ^ (Z.of_nat p - Z.of_nat (prefixlen parent)) →
  j ≠ k →
  ¬ overlaps (nth_block parent p j) (nth_block parent p k).
Proof.
  intros Hv Hp Hj Hk Hne (x & Hx1 & Hx2).
  destruct (nth_block_in_partition parent p j Hv Hp Hj) as (_ & Hvj & _).
  destruct (nth_block_in_partition parent p k Hv Hp Hk) as (_ & Hvk & _).
  rewrite (broadcast_of_valid _ Hvj) in Hx1. rewrite (broadcast_of_valid _ Hvk) in Hx2.
  unfold nth_block in *; cbn [network_address prefixlen] in *.
  assert (Hpos : 0 < 2 ^ (32 - Z.of_nat p)) by (apply Z.pow_pos_nonneg; lia).
  nia.
Qed.

(** C7.  The blocks handed out by a pool are pairwise distinct, pairwise
    disjoint, and each is a block of the parent's partition at the
    requested prefix length. *)
Theorem pool_disjointness parent new_prefix pool k blocks pool' :
  valid_network parent →
  (prefixlen parent ≤ new_prefix ≤ 32)%nat →
  NetworkPool_init parent new_prefix = Ok pool →
  gen_networks k pool = Ok (blocks, pool') →
  NoDup blocks ∧
  Forall (in_partition parent new_prefix) blocks ∧
  (∀ i j b b', i ≠ j → blocks !! i = Some b → blocks !! j = Some b' → ¬ overlaps b b').
Proof.
  intros Hv Hp Hinit Hgen.
  unfold NetworkPool_init in Hinit.
  destruct (subnets parent new_prefix) as [l|e] eqn:Hs; simpl in Hinit; [|discriminate].
  inversion Hinit; subst pool; clear Hinit.
  apply gen_networks_take in Hgen as [-> _]; simpl.
  apply subnets_blocks in Hs; [|done..]. subst l.
  set (m := 2 ^ (Z.of_nat new_prefix - Z.of_nat (prefixlen parent))).
  assert (Hlook : ∀ i b,
    take k (nth_block parent new_prefix <$> seqZ 0 m) !! i = Some b →
    b = nth_block parent new_prefix (Z.of_nat i) ∧ 0 ≤ Z.of_nat i < m).
  { intros i b Hi. apply lookup_take_Some in Hi as [Hi _].
    rewrite list_lookup_fmap in Hi.
    destruct (seqZ 0 m !! i) as [z|] eqn:Hz; simpl in Hi; [|discriminate].
    apply lookup_seqZ in Hz as [-> Hlt]. inversion Hi. split; [f_equal; lia|lia]. }
  assert (Hdisj : ∀ i j b b', i ≠ j →
    take k (nth_block parent new_prefix <$> seqZ 0 m) !! i = Some b →
    take k (nth_block parent new_prefix <$> seqZ 0 m) !! j = Some b' →
    ¬ overlaps b b').
  { intros i j b b' Hne Hi Hj.
    apply Hlook in Hi as [-> Hi]. apply Hlook in Hj as [-> Hj].
    apply nth_block_disjoint; [done..|lia]. }
  split; [|split; [|exact Hdisj]].
  - apply NoDup_alt. intros i j b Hi Hj.
    destruct (decide (i = j)) as [|Hne]; [done|]. exfalso.
    apply (Hdisj i j b b Hne Hi Hj).
    exists (network_address b). apply Hlook in Hi as [-> Hi].
    destruct (nth_block_in_partition parent new_prefix (Z.of_nat i) Hv Hp Hi)
      as (_ & Hvb & _).
    rewrite (broadcast_of_valid _ Hvb).
    unfold nth_block; cbn [network_address prefixlen].
    assert (0 < 2 ^ (32 - Z.of_nat new_prefix)) by (apply Z.pow_pos_nonneg; lia).
    lia.
  - apply Forall_lookup. intros i b Hi. apply Hlook in Hi as [-> Hi].
    by apply nth_block_in_partition.
Qed.

Lemma pool_disjointness_witness :
  ∃ pool blocks pool',
    NetworkPool_init net_10_0_0_0_24 30 = Ok pool ∧
    gen_networks 5 pool = Ok (blocks, pool') ∧
    NoDup blocks ∧
    Forall (in_partition net_10_0_0_0_24 30) blocks ∧
    (∀ i j b b', i ≠ j → blocks !! i = Some b → blocks !! j = Some b' → ¬ overlaps b b').
Proof.
  eexists _, _, _. split; [vm_compute; reflexivity|].
  split; [vm_compute; reflexivity|].
  eapply (pool_disjointness net_10_0_0_0_24 30 _ 5).
  - apply (bool_decide_unpack _). vm_compute. exact I.
  - cbn [prefixlen net_10_0_0_0_24]. lia.
  - vm_compute; reflexivity.
  - vm_compute; reflexivity.
Defined.

(** * Construction: what the constructors maintain *)

Lemma Interface_init_heap nd ch id h :
  (Interface_init nd ch id h).2 =
  mkHeap
    (alter (set_node_interfaces (interfaces_of_node h nd ++ [length (interfaces h)])) nd
       (nodes h))
    (alter (set_channel_interfaces (interfaces_of_channel h ch ++ [length (interfaces h)])) ch
       (channels h))
    (interfaces h ++
       [mkInterface nd (default ("i" +:+ pretty (length (interfaces_of_node h nd))) id) ch
          (length (interfaces_of_channel h ch))]).
Proof. unfold Interface_init. simpl. by destruct id. Qed.

Lemma exec_channel_members_ok o h h' :
  exec o h = Some h' → channel_members_ok h → channel_members_ok h'.
Proof.
  intros Hex Hinv. destruct o as [cls dev comp incl|id net dly|nd ch id]; unfold exec in Hex.
  - inversion Hex; subst h'. exact Hinv.
  - inversion Hex; subst h'. intros c ch' k i Hc Hk. simpl in *.
    apply lookup_app_Some in Hc as [Hc|[_ Hc]].
    + by eapply Hinv.
    + apply list_lookup_singleton_Some in Hc as [_ <-]. simpl in Hk.
      by rewrite lookup_nil in Hk.
  - destruct (decide _) as [[Hnd Hch]|]; [|discriminate].
    rewrite Interface_init_heap in Hex. inversion Hex; subst h'; clear Hex.
    intros c ch' k i Hc Hk. cbn [channels interfaces] in *.
    destruct (decide (ch = c)) as [->|Hne].
    + rewrite list_lookup_alter_eq in Hc.
      destruct (channels h !! c) as [ch0|] eqn:Hc0; simpl in Hc; [|discriminate].
      inversion Hc; subst ch'; clear Hc. simpl in Hk.
      unfold interfaces_of_channel in *. rewrite Hc0 in *. simpl in *.
      apply lookup_app_Some in Hk as [Hk|[Hge Hk]].
      * destruct (Hinv c ch0 k i Hc0 Hk) as (itf & Hi & Hci & Hoi).
        exists itf. split; [|done]. by apply lookup_app_l_Some.
      * apply list_lookup_singleton_Some in Hk as [Hk0 <-].
        eexists. split; [apply list_lookup_middle; reflexivity|]. simpl. split; [done|lia].
    + rewrite list_lookup_alter_ne in Hc by done.
      destruct (Hinv c ch' k i Hc Hk) as (itf & Hi & Hci & Hoi).
      exists itf. split; [|done]. by apply lookup_app_l_Some.
Qed.

Lemma build_from_channel_members_ok ops h h' :
  build_from h ops = Some h' → channel_members_ok h → channel_members_ok h'.
Proof.
  revert h. induction ops as [|o ops IH]; intros h Hb Hinv; simpl in Hb.
  - by inversion Hb; subst.
  - destruct (exec o h) as [h1|] eqn:He; simpl in Hb; [|discriminate].
    eapply IH; [exact Hb|]. by eapply exec_channel_members_ok.
Qed.

(** C6.  In any construction script, however the attachments to
    different channels are interleaved, the [k]-th interface attached to
    a channel gets the address [k + 1] places after the first address of
    the channel's block, with the block's prefix length, as long as that
    address is inside the block. *)
Theorem address_determinism ops h c ch k i :
  build ops = Some h →
  channels h !! c = Some ch →
  channel_interfaces ch !! k = Some i →
  network_address (network ch) + Z.of_nat (k + 1) ≤ broadcast_address (network ch) →
  Interface_get_ip h i
  = Ok (network_address (network ch) + Z.of_nat (k + 1), prefixlen (network ch)).
Proof.
  intros Hb Hc Hk Hfit.
  assert (Hinv : channel_members_ok h).
  { eapply build_from_channel_members_ok; [exact Hb|].
    intros c' ch' k' i' Hc'. cbn [empty_heap channels] in Hc'.
    by rewrite lookup_nil in Hc'. }
  destruct (Hinv c ch k i Hc Hk) as (itf & Hi & Hci & Hoi).
  unfold Interface_get_ip. rewrite Hi, Hci, Hc, Hoi. unfold net_getitem.
  destruct (decide _) as [Hgt|_]; [lia|]. reflexivity.
Qed.

Lemma address_determinism_witness :
  ∃ h ch,
    build clash_script = Some h ∧ channels h !! 1%nat = Some ch ∧
    Interface_get_ip h 3 = Ok (network_address (network ch) + 2, prefixlen (network ch)).
Proof.
  eexists _, _. split; [vm_compute; reflexivity|]. split; [vm_compute; reflexivity|].
  apply (address_determinism clash_script _ 1%nat _ 1%nat 3%nat).
  - vm_compute; reflexivity.
  - vm_compute; reflexivity.
  - vm_compute; reflexivity.
  - vm_compute. discriminate.
Defined.

(** Every construction script yields a heap whose interfaces are on
    channels of the heap, and in which no record is stored yet. *)
Lemma exec_wf_heap o h h' : exec o h = Some h' → wf_heap h → wf_heap h'.
Proof.
  intros Hex Hwf. destruct o as [cls dev comp incl|id net dly|nd ch id]; unfold exec in Hex.
  - inversion Hex; subst h'. exact Hwf.
  - inversion Hex; subst h'. unfold wf_heap, Channel_init in *. cbn [snd channels interfaces].
    eapply Forall_impl; [exact Hwf|]. intros i Hi. cbn beta in *.
    rewrite length_app. simpl. lia.
  - destruct (decide _) as [[Hnd Hch]|]; [|discriminate].
    rewrite Interface_init_heap in Hex. inversion Hex; subst h'; clear Hex.
    unfold wf_heap in *. cbn [channels interfaces]. rewrite length_alter.
    apply Forall_app. split; [exact Hwf|]. constructor; [exact Hch|constructor].
Qed.

Lemma exec_no_routes o h h' : exec o h = Some h' → no_routes h → no_routes h'.
Proof.
  intros Hex Hno. destruct o as [cls dev comp incl|id net dly|nd ch id]; unfold exec in Hex.
  - inversion Hex; subst h'. exact Hno.
  - inversion Hex; subst h'. unfold no_routes, Channel_init in *. cbn [snd channels].
    apply Forall_app. split; [exact Hno|]. by constructor.
  - destruct (decide _) as [[Hnd Hch]|]; [|discriminate].
    rewrite Interface_init_heap in Hex. inversion Hex; subst h'; clear Hex.
    unfold no_routes in *. cbn [channels].
    apply Forall_alter; [exact Hno|]. by intros c _ Hc.
Qed.

Lemma build_wf_fresh ops h : build ops = Some h → wf_heap h ∧ no_routes h.
Proof.
  unfold build. assert (Hinit : wf_heap empty_heap ∧ no_routes empty_heap).
  { split; constructor. }
  revert Hinit. generalize empty_heap. revert h.
  induction ops as [|o ops IH]; intros h h0 [Hwf Hno] Hb; simpl in Hb.
  - by inversion Hb; subst.
  - destruct (exec o h0) as [h1|] eqn:He; simpl in Hb; [|discriminate].
    apply (IH h h1); [|exact Hb].
    split; [by eapply exec_wf_heap|by eapply exec_no_routes].
Qed.

Lemma exec_OpInterface nd ch id h :
  (nd < length (nodes h))%nat → (ch < length (channels h))%nat →
  exec (OpInterface nd ch id) h = Some (Interface_init nd ch id h).2.
Proof. intros Hn Hc. unfold exec. by destruct (decide _) as [|[]]. Qed.

(** [Channel.auto] on two existing nodes is a script of three constructor
    calls, so the topologies that the builders make are among those that
    the scripts make. *)
Lemma Channel_auto_script node_a node_b net dly id_a id_b h :
  (node_a < length (nodes h))%nat → (node_b < length (nodes h))%nat →
  build_from h
    [ OpChannel ("c_" +:+ Node_get_short h node_a +:+ "_" +:+ Node_get_short h node_b) net dly;
      OpInterface node_a (length (channels h)) id_a;
      OpInterface node_b (length (channels h)) id_b ]
  = Some (Channel_auto node_a node_b net dly id_a id_b h).2.
Proof.
  intros Ha Hb. unfold Channel_auto, Channel_init.
  set (h1 := mkHeap (nodes h)
               (channels h ++ [mkChannel
                  ("c_" +:+ Node_get_short h node_a +:+ "_" +:+ Node_get_short h node_b)
                  net dly [] []])
               (interfaces h)).
  destruct (Interface_init node_a (length (channels h)) id_a h1) as [i1 h2] eqn:E1.
  destruct (Interface_init node_b (length (channels h)) id_b h2) as [i2 h3] eqn:E2.
  assert (Hh2 : h2 = (Interface_init node_a (length (channels h)) id_a h1).2)
    by by rewrite E1.
  change (build_from h _) with
    (exec (OpInterface node_a (length (channels h)) id_a) h1 ≫= λ h',
     exec (OpInterface node_b (length (channels h)) id_b) h' ≫= λ h'', Some h'').
  rewrite exec_OpInterface, E1; cbn [snd mbind option_bind].
  - rewrite exec_OpInterface, E2; [done| |].
    + rewrite Hh2, Interface_init_heap. cbn [nodes]. by rewrite length_alter.
    + rewrite Hh2, Interface_init_heap. unfold h1. cbn [channels].
      rewrite length_alter, length_app. simpl. lia.
  - done.
  - unfold h1. cbn [channels]. rewrite length_app. simpl. lia.
Qed.

(** * Interface identifiers *)

Lemma explicit_ids_snoc n ops o :
  explicit_ids n (ops ++ [o])
  = explicit_ids n ops ++
    match o with
    | OpInterface nd _ id => if decide (nd = n) then [id] else []
    | _ => []
    end.
Proof.
  unfold explicit_ids. rewrite omap_app. f_equal.
  destruct o as [| |nd ch id]; simpl; try done. by destruct (decide (nd = n)).
Qed.

Lemma node_interface_ids_length h n :
  length (node_interface_ids h n) = length (interfaces_of_node h n).
Proof. unfold node_interface_ids. by rewrite length_fmap. Qed.

Lemma exec_node_members_ok ops o h h' :
  exec o h = Some h' → node_members_ok ops h → node_members_ok (ops ++ [o]) h'.
Proof.
  intros Hex (Hids & Hnone & Hbound).
  destruct o as [cls dev comp incl|id net dly|nd ch id]; unfold exec in Hex.
  - inversion Hex; subst h'; clear Hex. unfold Node_init; cbn [snd].
    split; [|split].
    + intros n Hn. cbn [nodes] in Hn. rewrite length_app in Hn. simpl in Hn.
      rewrite explicit_ids_snoc, app_nil_r.
      unfold node_interface_ids, interfaces_of_node. cbn [nodes interfaces].
      destruct (decide (n < length (nodes h))%nat) as [Hlt|Hge].
      * rewrite lookup_app_l by done. by apply (Hids n).
      * assert (n = length (nodes h)) as -> by lia.
        rewrite list_lookup_middle by done. simpl.
        by rewrite (Hnone (length (nodes h))).
    + intros n Hn. cbn [nodes] in Hn. rewrite length_app in Hn. simpl in Hn.
      rewrite explicit_ids_snoc, app_nil_r. apply Hnone. lia.
    + intros n nd i Hn Hi. cbn [nodes interfaces] in *.
      apply lookup_app_Some in Hn as [Hn|[_ Hn]]; [by eapply Hbound|].
      apply list_lookup_singleton_Some in Hn as [_ <-]. simpl in Hi.
      by apply elem_of_nil in Hi.
  - inversion Hex; subst h'; clear Hex. unfold Channel_init; cbn [snd].
    split; [|split].
    + intros n Hn. rewrite explicit_ids_snoc, app_nil_r. by apply (Hids n).
    + intros n Hn. rewrite explicit_ids_snoc, app_nil_r. by apply Hnone.
    + exact Hbound.
  - destruct (decide _) as [[Hnd Hch]|]; [|discriminate].
    rewrite Interface_init_heap in Hex. inversion Hex; subst h'; clear Hex.
    split; [|split].
    + intros n Hn. cbn [nodes] in Hn. rewrite length_alter in Hn.
      rewrite explicit_ids_snoc.
      unfold node_interface_ids, interfaces_of_node. cbn [nodes interfaces].
      destruct (lookup_lt_is_Some_2 _ _ Hn) as [nd0 Hnd0].
      assert (Hold : ∀ x i, i ∈ node_interfaces nd0 →
        from_option interface_id "" ((interfaces h ++ [x]) !! i)
        = from_option interface_id "" (interfaces h !! i)).
      { intros x i Hi. rewrite lookup_app_l; [done|]. by eapply Hbound. }
      pose proof (Hids n Hn) as Hidn.
      unfold node_interface_ids, interfaces_of_node in Hidn. rewrite Hnd0 in Hidn.
      simpl in Hidn.
      destruct (decide (nd = n)) as [->|Hne].
      * rewrite list_lookup_alter_eq, Hnd0. simpl.
        rewrite fmap_app, imap_app. f_equal.
        -- rewrite <- Hidn. apply list_fmap_ext. intros k i Hk. apply Hold.
           by eapply list_elem_of_lookup_2.
        -- simpl. rewrite list_lookup_middle by done. simpl.
           unfold assigned_id. f_equal.
           rewrite <- (length_imap assigned_id), <- Hidn, length_fmap.
           by rewrite Nat.add_0_r.
      * rewrite list_lookup_alter_ne by done. rewrite Hnd0. simpl.
        rewrite app_nil_r, <- Hidn. apply list_fmap_ext. intros k i Hk. apply Hold.
        by eapply list_elem_of_lookup_2.
    + intros n Hn. cbn [nodes] in Hn. rewrite length_alter in Hn.
      rewrite explicit_ids_snoc. destruct (decide (nd = n)); [lia|].
      rewrite app_nil_r. by apply Hnone.
    + intros n nd0 i Hn Hi. cbn [nodes interfaces] in *.
      rewrite length_app. simpl.
      destruct (decide (nd = n)) as [->|Hne].
      * rewrite list_lookup_alter_eq in Hn.
        destruct (nodes h !! n) as [nd1|] eqn:Hn1; simpl in Hn; [|discriminate].
        inversion Hn; subst nd0; clear Hn. simpl in Hi.
        unfold interfaces_of_node in Hi. rewrite Hn1 in Hi. simpl in Hi.
        apply elem_of_app in Hi as [Hi|Hi].
        -- pose proof (Hbound n nd1 i Hn1 Hi). lia.
        -- apply list_elem_of_singleton in Hi. lia.
      * rewrite list_lookup_alter_ne in Hn by done.
        pose proof (Hbound n nd0 i Hn Hi). lia.
Qed.

Lemma build_from_node_members_ok ops0 ops h h' :
  build_from h ops = Some h' → node_members_ok ops0 h → node_members_ok (ops0 ++ ops) h'.
Proof.
  revert ops0 h. induction ops as [|o ops IH]; intros ops0 h Hb Hinv; simpl in Hb.
  - inversion Hb; subst. by rewrite app_nil_r.
  - destruct (exec o h) as [h1|] eqn:He; simpl in Hb; [|discriminate].
    replace (ops0 ++ o :: ops) with ((ops0 ++ [o]) ++ ops) by by rewrite <- app_assoc.
    eapply IH; [exact Hb|]. by eapply exec_node_members_ok.
Qed.

Lemma build_node_members_ok ops h :
  build ops = Some h → node_members_ok ops h.
Proof.
  intros Hb. apply (build_from_node_members_ok [] ops empty_heap h Hb).
  split; [|split].
  - intros n Hn. simpl in Hn. lia.
  - done.
  - intros n nd i Hn. simpl in Hn. by rewrite lookup_nil in Hn.
Qed.

Lemma explicit_positions (l : list (option string)) j k s :
  NoDup (omap id l) → l !! j = Some (Some s) → l !! k = Some (Some s) → j = k.
Proof.
  revert j k. induction l as [|x l IH]; intros j k Hnd Hj Hk.
  - by rewrite lookup_nil in Hj.
  - assert (Hin : ∀ m, l !! m = Some (Some s) → s ∈ omap id l).
    { intros m Hm. apply list_elem_of_omap. exists (Some s). split; [|done].
      by eapply list_elem_of_lookup_2. }
    destruct j as [|j], k as [|k]; simpl in *; [done| | |].
    + inversion Hj; subst x. simpl in Hnd. apply NoDup_cons in Hnd as [Hnot _].
      exfalso. apply Hnot. by eapply Hin.
    + inversion Hk; subst x. simpl in Hnd. apply NoDup_cons in Hnd as [Hnot _].
      exfalso. apply Hnot. by eapply Hin.
    + f_equal. apply IH; [|done..].
      destruct x as [y|]; simpl in Hnd; [by apply NoDup_cons in Hnd as [_ ?]|done].
Qed.

Lemma imap_assigned_snoc (l : list (option string)) x :
  imap assigned_id (l ++ [x]) = imap assigned_id l ++ [assigned_id (length l) x].
Proof. rewrite imap_app. cbn. by rewrite Nat.add_0_r. Qed.

Lemma explicit_in_assigned (l : list (option string)) s :
  Some s ∈ l → s ∈ imap assigned_id l.
Proof.
  intros [j Hj]%list_elem_of_lookup. apply list_elem_of_lookup. exists j.
  rewrite list_lookup_imap, Hj. done.
Qed.

(** The explicit identifiers of a node with distinct identifiers are
    distinct. *)
Lemma assigned_NoDup_explicit (l : list (option string)) :
  NoDup (imap assigned_id l) → NoDup (omap id l).
Proof.
  induction l as [|x l IH] using rev_ind; [constructor|].
  rewrite imap_assigned_snoc, omap_app. intros Hnd.
  apply NoDup_app in Hnd as (Hl & Hx & _). apply NoDup_app.
  split; [by apply IH|]. split.
  - intros s Hs Hsx. destruct x as [y|]; cbn in Hsx; [|by apply elem_of_nil in Hsx].
    apply list_elem_of_singleton in Hsx as ->.
    apply list_elem_of_omap in Hs as (o & Ho & Hoy). destruct o as [z|]; [|done].
    cbn in Hoy. inversion Hoy; subst z.
    apply (Hx y); [by apply explicit_in_assigned|]. cbn. apply list_elem_of_here.
  - destruct x; cbn; [apply NoDup_singleton|constructor].
Qed.

(** C9, as the code has it.  The identifier of the [k]-th interface of a
    node is the explicit one if the call gave one and [i<k>] otherwise.
    The identifiers of a node are pairwise distinct exactly when no
    explicit identifier is given to two of its interfaces and no explicit
    identifier is the [i<k>] of an interface of the node that was
    numbered automatically. *)
Theorem interface_ids_distinct ops h n :
  build ops = Some h →
  node_interface_ids h n = imap assigned_id (explicit_ids n ops) ∧
  (NoDup (node_interface_ids h n) ↔
   NoDup (omap id (explicit_ids n ops)) ∧
   ∀ s k, Some s ∈ explicit_ids n ops → explicit_ids n ops !! k = Some None →
          s ≠ "i" +:+ pretty k).
Proof.
  intros Hb.
  destruct (build_node_members_ok ops h Hb) as (Hids & Hnone & _).
  assert (Heq : node_interface_ids h n = imap assigned_id (explicit_ids n ops)).
  { destruct (decide (n < length (nodes h))%nat) as [Hn|Hn]; [by apply Hids|].
    rewrite (Hnone n) by lia. unfold node_interface_ids, interfaces_of_node.
    by rewrite (lookup_ge_None_2 (nodes h)) by lia. }
  split; [exact Heq|]. rewrite Heq. split.
  - intros Hnd. split; [by apply assigned_NoDup_explicit|].
    intros s k [j Hj]%list_elem_of_lookup Hk Hs.
    assert (j = k) as ->; [|congruence].
    apply (proj1 (NoDup_alt _) Hnd j k s); rewrite list_lookup_imap.
    + by rewrite Hj.
    + rewrite Hk. cbn. by rewrite Hs.
  - intros [Hnd Hfresh]. apply NoDup_alt. intros j k s Hj Hk.
    rewrite list_lookup_imap in Hj, Hk.
    destruct (explicit_ids n ops !! j) as [aj|] eqn:Ej; simpl in Hj; [|discriminate].
    destruct (explicit_ids n ops !! k) as [ak|] eqn:Ek; simpl in Hk; [|discriminate].
    inversion Hj as [Hsj]; inversion Hk as [Hsk].
    destruct aj as [sj|], ak as [sk|]; unfold assigned_id in *; simpl in *.
    + subst sj sk. by eapply explicit_positions.
    + exfalso. apply (Hfresh sj k); [by eapply list_elem_of_lookup_2|done|congruence].
    + exfalso. apply (Hfresh sk j); [by eapply list_elem_of_lookup_2|done|congruence].
    + rewrite <- Hsk in Hsj. apply (inj (String.app "i")) in Hsj.
      by apply (inj pretty) in Hsj.
Qed.

Lemma interface_ids_distinct_witness :
  ∃ h, build mixed_script = Some h ∧
       explicit_ids 0 mixed_script = [Some "i0"; None; Some "wan"] ∧
       node_interface_ids h 0 = ["i0"; "i1"; "wan"] ∧ NoDup (node_interface_ids h 0).
Proof.
  eexists. split; [vm_compute; reflexivity|]. split; [vm_compute; reflexivity|].
  destruct (interface_ids_distinct mixed_script _ 0%nat ltac:(vm_compute; reflexivity))
    as [Hids Hiff].
  split; [exact Hids|]. apply Hiff. split.
  - vm_compute. repeat constructor; intros H;
      repeat (apply elem_of_cons in H as [H|H]; [discriminate|]); by apply elem_of_nil in H.
  - intros s k Hs Hk. vm_compute in Hs, Hk.
    destruct k as [|[|[|k]]]; try discriminate.
    repeat (apply elem_of_cons in Hs as [Hs|Hs];
            [try discriminate; inversion Hs; subst; discriminate|]).
    by apply elem_of_nil in Hs.
Defined.

(** C9, as stated, fails: an explicit identifier is stored unchecked, so
    it can coincide with an automatic one. *)
Lemma interface_ids_clash :
  ∃ h, build clash_script = Some h ∧
       node_interface_ids h 0 = ["i1"; "i1"] ∧ ¬ NoDup (node_interface_ids h 0).
Proof.
  eexists. split; [vm_compute; reflexivity|]. split; [vm_compute; reflexivity|].
  vm_compute. intros Hnd. apply NoDup_cons in Hnd as [Hnot _].
  apply Hnot. apply list_elem_of_here.
Qed.

(** * Route distribution *)

(** ** Appending records leaves the graph alone *)

Lemma with_heap_id st : with_heap st (heap st) = st.
Proof. by destruct st. Qed.

Lemma graph_append_route c r h : graph (append_route c r h) = graph h.
Proof.
  unfold graph, append_route; cbn [nodes channels interfaces]. f_equal. f_equal.
  apply list_eq. intros i. rewrite !list_lookup_fmap.
  destruct (decide (c = i)) as [->|Hne].
  - rewrite list_lookup_alter_eq. by destruct (channels h !! i).
  - by rewrite list_lookup_alter_ne.
Qed.

Lemma graph_apply_log log h : graph (apply_log log h) = graph h.
Proof.
  revert h. induction log as [|e log IH]; intros h; [done|].
  unfold apply_log in *. cbn [foldl]. by rewrite IH, graph_append_route.
Qed.

Lemma apply_log_app l1 l2 h : apply_log (l1 ++ l2) h = apply_log l2 (apply_log l1 h).
Proof. unfold apply_log. apply foldl_app. Qed.

Section same_graph.
Context (h h' : Heap) (Hg : graph h' = graph h).

Lemma graph_nodes : nodes h' = nodes h.
Proof. unfold graph in Hg. congruence. Qed.

Lemma graph_interfaces : interfaces h' = interfaces h.
Proof. unfold graph in Hg. congruence. Qed.

Lemma graph_channel c :
  set_routes [] <$> channels h' !! c = set_routes [] <$> channels h !! c.
Proof.
  unfold graph in Hg. rewrite <- !list_lookup_fmap. congruence.
Qed.

Lemma graph_channels_length : length (channels h') = length (channels h).
Proof.
  unfold graph in Hg.
  rewrite <- (length_fmap (set_routes []) (channels h')).
  rewrite <- (length_fmap (set_routes []) (channels h)). congruence.
Qed.

Lemma graph_interfaces_of_node n : interfaces_of_node h' n = interfaces_of_node h n.
Proof. unfold interfaces_of_node. by rewrite graph_nodes. Qed.

Lemma graph_interfaces_of_channel c :
  interfaces_of_channel h' c = interfaces_of_channel h c.
Proof.
  unfold interfaces_of_channel. pose proof (graph_channel c) as Hc.
  destruct (channels h' !! c), (channels h !! c); simpl in *;
    unfold set_routes in Hc; congruence.
Qed.

Lemma graph_network_of c : network_of h' c = network_of h c.
Proof.
  unfold network_of. pose proof (graph_channel c) as Hc.
  destruct (channels h' !! c), (channels h !! c); simpl in *;
    unfold set_routes in Hc; congruence.
Qed.

Lemma graph_Interface_get_ip i : Interface_get_ip h' i = Interface_get_ip h i.
Proof.
  unfold Interface_get_ip. rewrite graph_interfaces.
  destruct (interfaces h !! i) as [itf|]; [|done].
  pose proof (graph_channel (channel itf)) as Hc.
  destruct (channels h' !! channel itf) as [c1|], (channels h !! channel itf) as [c2|];
    simpl in *; try congruence.
  assert (network c1 = network c2) as -> by (unfold set_routes in Hc; congruence).
  done.
Qed.

Lemma graph_Interface_dump i : Interface_dump h' i = Interface_dump h i.
Proof.
  unfold Interface_dump. rewrite graph_Interface_get_ip, graph_interfaces.
  destruct (Interface_get_ip h i) as [[a p]|]; [|done]. simpl. do 2 f_equal.
  destruct (interfaces h !! i) as [itf|]; [|done]. simpl.
  pose proof (graph_channel (channel itf)) as Hc.
  destruct (channels h' !! channel itf) as [c1|], (channels h !! channel itf) as [c2|];
    simpl in *; try congruence.
  unfold set_routes in Hc; congruence.
Qed.

Lemma graph_wf_heap : wf_heap h → wf_heap h'.
Proof. unfold wf_heap. by rewrite graph_interfaces, graph_channels_length. Qed.
End same_graph.

(** The records of a channel after a log has been applied. *)
Lemma routes_of_append_route c r h c' :
  routes_of (append_route c r h) c'
  = routes_of h c' ++
    (if decide (c' < length (channels h))%nat
     then (if decide (c = c') then [r] else []) else []).
Proof.
  unfold routes_of, append_route; cbn [channels].
  destruct (decide (c = c')) as [->|Hne].
  - rewrite list_lookup_alter_eq.
    destruct (channels h !! c') as [ch|] eqn:Hc; simpl.
    + apply lookup_lt_Some in Hc. by destruct (decide _); [|lia].
    + apply lookup_ge_None in Hc. by destruct (decide _); [lia|].
  - rewrite list_lookup_alter_ne by done. destruct (decide _); by rewrite app_nil_r.
Qed.

Lemma routes_of_apply_log log h c :
  routes_of (apply_log log h) c
  = routes_of h c ++
    (if decide (c < length (channels h))%nat
     then (λ e : nat * RouteRecord, e.2) <$> filter (λ e, e.1 = c) log else []).
Proof.
  revert h. induction log as [|[c0 r] log IH]; intros h.
  - simpl. destruct (decide _); by rewrite app_nil_r.
  - unfold apply_log in *. cbn [foldl]. rewrite IH.
    rewrite routes_of_append_route. cbn [fst snd].
    assert (Hl : length (channels (append_route c0 r h)) = length (channels h)).
    { unfold append_route; cbn [channels]. apply length_alter. }
    rewrite Hl, <- app_assoc. f_equal.
    destruct (decide (c < length (channels h))%nat); [|done].
    rewrite filter_cons. cbn [fst].
    destruct (decide (c0 = c)); [done|]. by rewrite app_nil_l.
Qed.

(** ** The pieces of the traversal loop *)

Lemma entry_from_mono self (K K' : gset nat) e :
  K ⊆ K' → entry_from self K' e → entry_from self K e.
Proof.
  intros Hsub (Hnot & Ho & Hd). split; [|done]. intros Hin. by apply Hnot, Hsub.
Qed.

Lemma step_ok_heap self F st :
  step_ok self F → graph (heap (F st)) = graph (heap st).
Proof.
  intros HF. destruct (HF st) as (_ & _ & _ & log & _ & Hlog).
  specialize (Hlog (heap st) eq_refl). rewrite with_heap_id in Hlog.
  rewrite Hlog. cbn [with_heap heap]. apply graph_apply_log.
Qed.

Lemma step_ok_visit self d out : step_ok self (λ st, visit self d st out).
Proof.
  intros st. unfold visit.
  destruct (interfaces (heap st) !! out) as [i|] eqn:Hi.
  - destruct (decide (channel i ∈ known st)) as [Hin|Hnot].
    + split; [done|]. split; [done|]. split; [by left|].
      exists []. split; [constructor|]. intros h' Hg. cbn [with_heap heap known queue].
      rewrite (graph_interfaces _ _ Hg), Hi. by destruct (decide _).
    + cbn [known queue heap]. split; [set_solver|]. split.
      { rewrite size_union by set_solver. rewrite size_singleton, length_app. simpl. lia. }
      split.
      { intros c Hc. apply elem_of_union in Hc as [Hc|Hc]; [|by left].
        apply elem_of_singleton in Hc. right. exists i. split; [|done].
        by eapply list_elem_of_lookup_2. }
      exists [(channel i, (self, out, (d + 1)%nat))]. split.
      { constructor; [|constructor]. unfold entry_from; simpl. split; [done|]. split; [done|lia]. }
      intros h' Hg. cbn [with_heap heap known queue].
      rewrite (graph_interfaces _ _ Hg), Hi. by destruct (decide _).
  - split; [done|]. split; [done|]. split; [by left|].
    exists []. split; [constructor|]. intros h' Hg. cbn [with_heap heap known queue].
    by rewrite (graph_interfaces _ _ Hg), Hi.
Qed.

Lemma step_ok_compose self F G :
  step_ok self F → step_ok self G → step_ok self (λ st, G (F st)).
Proof.
  intros HF HG st.
  pose proof (step_ok_heap self F st HF) as Hgr.
  destruct (HF st) as (Hk1 & Hb1 & Ho1 & log1 & Hl1 & Hlog1).
  destruct (HG (F st)) as (Hk2 & Hb2 & Ho2 & log2 & Hl2 & Hlog2).
  split; [set_solver|]. split; [lia|]. split.
  { intros c Hc. destruct (Ho2 c Hc) as [Hc1|(i & Hi & Hci)]; [by apply Ho1|].
    right. exists i. split; [|done]. by rewrite <- (graph_interfaces _ _ Hgr). }
  exists (log1 ++ log2). split.
  { apply Forall_app. split; [done|].
    eapply Forall_impl; [exact Hl2|]. intros e. by apply entry_from_mono. }
  intros h' Hg. rewrite (Hlog1 h' Hg).
  assert (Hst : with_heap (F st) (apply_log log1 h')
                = with_heap (with_heap (F st) (heap (F st))) (apply_log log1 h')) by done.
  specialize (Hlog2 (apply_log log1 h')).
  assert (Heq : with_heap (F st) (apply_log log1 h') = with_heap (F st) (apply_log log1 h'))
    by done.
  rewrite Hlog2; [by rewrite apply_log_app|].
  by rewrite graph_apply_log, Hg, Hgr.
Qed.

Lemma step_ok_foldl self {A} (f : bfs_state → A → bfs_state) (l : list A) :
  (∀ x, step_ok self (λ st, f st x)) → step_ok self (λ st, foldl f st l).
Proof.
  intros Hf. induction l as [|x l IH]; simpl.
  - intros st. split; [done|]. split; [done|]. split; [by left|].
    exists []. split; [constructor|]. done.
  - apply (step_ok_compose self (λ st, f st x) (λ st, foldl f st l)); [apply Hf|exact IH].
Qed.

(** A loop over a list that is read from the graph. *)
Lemma step_ok_for self {A} (L : Heap → list A) (f : bfs_state → A → bfs_state) :
  (∀ h h', graph h' = graph h → L h' = L h) →
  (∀ x, step_ok self (λ st, f st x)) →
  step_ok self (λ st, foldl f st (L (heap st))).
Proof.
  intros HL Hf st.
  destruct (step_ok_foldl self f (L (heap st)) Hf st) as (Hk & Hb & Ho & log & Hl & Hlog).
  split; [done|]. split; [done|]. split; [done|].
  exists log. split; [done|]. intros h' Hg. cbn [with_heap heap].
  rewrite (HL _ _ Hg). by apply Hlog.
Qed.

Lemma step_ok_expand self cur d : step_ok self (expand self cur d).
Proof.
  unfold expand.
  apply (step_ok_for self (λ h, interfaces_of_channel h cur)).
  { intros h h' Hg. by apply graph_interfaces_of_channel. }
  intros in_interface.
  apply (step_ok_for self
           (λ h, from_option (λ i, interfaces_of_node h (node i)) []
                   (interfaces h !! in_interface))).
  { intros h h' Hg. rewrite (graph_interfaces _ _ Hg).
    destruct (interfaces h !! in_interface); [|done]. simpl.
    by apply graph_interfaces_of_node. }
  intros out. apply step_ok_visit.
Qed.

(** ** The loop ends, and its log is a function of the graph *)

Lemma known_size_bound (K : gset nat) n self :
  (∀ c, c ∈ K → (c < n)%nat ∨ c = self) → (size K ≤ n + 1)%nat.
Proof.
  intros HK.
  assert (Hsub : K ⊆ set_seq 0 n ∪ {[self]}).
  { intros c Hc. destruct (HK c Hc) as [Hlt| ->].
    - apply elem_of_union_l, elem_of_set_seq. lia.
    - by apply elem_of_union_r, elem_of_singleton. }
  apply subseteq_size in Hsub. rewrite size_union_alt in Hsub.
  rewrite size_set_seq in Hsub.
  assert (size (({[self]} : gset nat) ∖ set_seq 0 n) ≤ 1)%nat.
  { rewrite <- (size_singleton (C:=gset nat) self). apply subseteq_size.
    intros c Hc. by apply elem_of_difference in Hc as [Hc _]. }
  lia.
Qed.

Lemma distribute_route_loop_log self fuel :
  ∀ st base,
    wf_heap (heap st) →
    (∀ c, c ∈ known st → (c < length (channels (heap st)))%nat ∨ c = self) →
    (length (queue st) + base = size (known st))%nat →
    (length (channels (heap st)) + 2 ≤ fuel + base)%nat →
    ∃ log,
      Forall (entry_from self (known st)) log ∧
      ∀ h', graph h' = graph (heap st) →
            distribute_route_loop fuel self (with_heap st h') = Some (apply_log log h').
Proof.
  induction fuel as [|fuel IH]; intros st base Hwf Hbound Hbal Hfuel.
  - pose proof (known_size_bound _ _ _ Hbound). lia.
  - destruct st as [K q h]. cbn [known queue heap with_heap] in *.
    destruct q as [|[cur d] rest].
    + exists []. split; [constructor|]. done.
    + pose proof (step_ok_heap self _ (mkBfs K rest h) (step_ok_expand self cur d)) as Hgr.
      destruct (step_ok_expand self cur d (mkBfs K rest h))
        as (Hk & Hb & Ho & log1 & Hl1 & Hlog1).
      cbn [known queue heap] in Hk, Hb, Ho, Hl1, Hgr.
      destruct (IH (expand self cur d (mkBfs K rest h)) (S base)) as (log2 & Hl2 & Hlog2).
      * eapply graph_wf_heap; [exact Hgr|done].
      * rewrite (graph_channels_length _ _ Hgr).
        intros c Hc. destruct (Ho c Hc) as [Hc0|(i & Hi & Hci)]; [by apply Hbound|].
        left. unfold wf_heap in Hwf. rewrite Forall_forall in Hwf.
        rewrite <- Hci. by apply Hwf.
      * simpl in Hbal. lia.
      * rewrite (graph_channels_length _ _ Hgr). lia.
      * exists (log1 ++ log2). split.
        { apply Forall_app. split; [done|].
          eapply Forall_impl; [exact Hl2|]. intros e. by apply entry_from_mono. }
        intros h' Hg. unfold with_heap. cbn [distribute_route_loop queue known heap].
        change (mkBfs K rest h') with (with_heap (mkBfs K rest h) h').
        rewrite (Hlog1 h' Hg), apply_log_app. apply Hlog2.
        by rewrite graph_apply_log, Hg, Hgr.
Qed.

Lemma entry_from_record_ok self e : entry_from self {[self]} e → record_ok e.1 e.2.
Proof.
  intros (Hnot & Ho & Hd). split; [done|]. rewrite Ho. intros Heq. apply Hnot.
  rewrite <- Heq. by apply elem_of_singleton.
Qed.

Lemma Channel_distribute_route_log self h :
  wf_heap h →
  ∃ log,
    Forall (entry_from self {[self]}) log ∧
    ∀ h', graph h' = graph h →
          Channel_distribute_route self h' = Some (apply_log log h').
Proof.
  intros Hwf.
  destruct (distribute_route_loop_log self (length (channels h) + 2)
              (mkBfs {[self]} [(self, 0%nat)] h) 0%nat) as (log & Hl & Hlog);
    cbn [known queue heap]; [done| | |lia|].
  - intros c Hc. right. by apply elem_of_singleton in Hc.
  - by rewrite size_singleton.
  - exists log. split; [exact Hl|].
    intros h' Hg. unfold Channel_distribute_route.
    rewrite (graph_channels_length _ _ Hg). by apply (Hlog h').
Qed.

(** A single traversal always ends within its fuel. *)
Lemma Channel_distribute_route_total self h :
  wf_heap h → is_Some (Channel_distribute_route self h).
Proof.
  intros Hwf. destruct (Channel_distribute_route_log self h Hwf) as (log & _ & Hlog).
  rewrite (Hlog h eq_refl). by eexists.
Qed.

Lemma distribute_routes_in_log order h :
  wf_heap h →
  ∃ log,
    Forall (λ e : nat * RouteRecord, record_ok e.1 e.2) log ∧
    ∀ h', graph h' = graph h →
          distribute_routes_in order h' = Some (apply_log log h').
Proof.
  intros Hwf. induction order as [|c order IH].
  - exists []. split; [constructor|]. done.
  - destruct (Channel_distribute_route_log c h Hwf) as (log1 & Hl1 & Hlog1).
    destruct IH as (log2 & Hl2 & Hlog2).
    exists (log1 ++ log2). split.
    { apply Forall_app. split; [|done].
      eapply Forall_impl; [exact Hl1|]. intros e. apply entry_from_record_ok. }
    intros h' Hg. cbn [distribute_routes_in]. rewrite (Hlog1 h' Hg), apply_log_app.
    apply Hlog2. by rewrite graph_apply_log.
Qed.

Lemma no_routes_routes_of h c : no_routes h → routes_of h c = [].
Proof.
  unfold no_routes, routes_of. intros Hn.
  destruct (channels h !! c) as [ch|] eqn:Hc; [|done]. simpl.
  rewrite Forall_forall in Hn. apply Hn. by eapply list_elem_of_lookup_2.
Qed.

(** C10.  After [distribute_routes] on a freshly built topology, every
    stored route record has a distance of at least 1, and no channel
    stores a record whose origin is the channel itself. *)
Theorem route_records_positive order h :
  wf_heap h → no_routes h →
  ∃ h', distribute_routes_in order h = Some h' ∧ routes_ok h'.
Proof.
  intros Hwf Hfresh.
  destruct (distribute_routes_in_log order h Hwf) as (log & Hl & Hlog).
  exists (apply_log log h). split; [by apply Hlog|].
  intros c r Hr. rewrite routes_of_apply_log, (no_routes_routes_of _ _ Hfresh) in Hr.
  rewrite app_nil_l in Hr. destruct (decide _); [|by apply elem_of_nil in Hr].
  apply list_elem_of_fmap in Hr as (e & -> & He).
  apply list_elem_of_filter in He as [<- He].
  rewrite Forall_forall in Hl. by apply Hl.
Qed.

(** * Route tables *)

(** ** Dictionaries keyed by references *)

Lemma dict_get_set_eq {V} k (v : V) d :
  dict_get Nat.eqb k (dict_set Nat.eqb k v d) = Some v.
Proof.
  induction d as [|[k' v'] d IH]; simpl.
  - by rewrite Nat.eqb_refl.
  - destruct (k' =? k)%nat eqn:E; simpl; rewrite E; [done|exact IH].
Qed.

Lemma dict_get_set_ne {V} k k' (v : V) d :
  k ≠ k' → dict_get Nat.eqb k (dict_set Nat.eqb k' v d) = dict_get Nat.eqb k d.
Proof.
  intros Hne. induction d as [|[k0 v0] d IH]; simpl.
  - destruct (k' =? k)%nat eqn:E; [|done]. apply Nat.eqb_eq in E. congruence.
  - destruct (k0 =? k')%nat eqn:E; simpl.
    + apply Nat.eqb_eq in E. subst k0.
      destruct (k' =? k)%nat eqn:E'; [|done]. apply Nat.eqb_eq in E'. congruence.
    + by rewrite IH.
Qed.

(** ** Records that change nothing *)

Lemma update_route_dominated i tbl r : dominates tbl r → update_route i tbl r = tbl.
Proof.
  destruct r as [[o gw] d]. intros ([[i' gw'] d'] & Hget & Hle); simpl in *.
  unfold update_route. rewrite Hget. destruct (decide _); [lia|done].
Qed.

Lemma update_route_dominates i tbl r : dominates (update_route i tbl r) r.
Proof.
  destruct r as [[o gw] d]. unfold update_route, dominates; simpl.
  destruct (dict_get Nat.eqb o tbl) as [[[i' gw'] d']|] eqn:Hget.
  - destruct (decide (d < d')%nat).
    + eexists. rewrite dict_get_set_eq. split; [done|]. simpl. lia.
    + eexists. split; [exact Hget|]. simpl. lia.
  - eexists. rewrite dict_get_set_eq. split; [done|]. simpl. lia.
Qed.

Lemma update_route_keeps i tbl r r' : dominates tbl r → dominates (update_route i tbl r') r.
Proof.
  destruct r as [[o gw] d], r' as [[o' gw'] d'].
  intros ([[i0 gw0] d0] & Hget & Hle); simpl in *.
  unfold update_route, dominates; simpl.
  destruct (decide (o = o')) as [<-|Hne].
  - rewrite Hget. destruct (decide (d' < d0)%nat).
    + eexists. rewrite dict_get_set_eq. split; [done|]. simpl. lia.
    + eexists. split; [exact Hget|]. simpl. lia.
  - destruct (dict_get Nat.eqb o' tbl) as [[[i1 gw1] d1]|].
    + destruct (decide _).
      * eexists. rewrite dict_get_set_ne by done. split; [exact Hget|]. done.
      * eexists. split; [exact Hget|]. done.
    + eexists. rewrite dict_get_set_ne by done. split; [exact Hget|]. done.
Qed.

Lemma foldl_update_route_keeps i tbl r rs :
  dominates tbl r → dominates (foldl (update_route i) tbl rs) r.
Proof.
  revert tbl. induction rs as [|r' rs IH]; intros tbl Hd; [done|].
  simpl. apply IH. by apply update_route_keeps.
Qed.

Lemma foldl_update_route_dominates i tbl rs :
  Forall (dominates (foldl (update_route i) tbl rs)) rs.
Proof.
  revert tbl. induction rs as [|r rs IH]; intros tbl; [constructor|].
  simpl. constructor; [|apply IH].
  apply foldl_update_route_keeps, update_route_dominates.
Qed.

Lemma foldl_update_route_dominated i tbl rs :
  Forall (dominates tbl) rs → foldl (update_route i) tbl rs = tbl.
Proof.
  induction rs as [|r rs IH]; intros Hd; [done|].
  apply Forall_cons in Hd as [Hr Hrs]. simpl.
  rewrite update_route_dominated by done. by apply IH.
Qed.

(** Seeing the same records a second time changes no table. *)
Lemma foldl_update_route_again i tbl rs extra :
  extra ⊆ rs →
  foldl (update_route i) tbl (rs ++ extra) = foldl (update_route i) tbl rs.
Proof.
  intros Hsub. rewrite foldl_app. apply foldl_update_route_dominated.
  pose proof (foldl_update_route_dominates i tbl rs) as Hd.
  rewrite Forall_forall in Hd. apply Forall_forall. intros r Hr. by apply Hd, Hsub.
Qed.

(** ** Tables and dumps read the graph and the records *)

Lemma foldl_ext_in {A B} (f g : A → B → A) (l : list B) a :
  (∀ a x, x ∈ l → f a x = g a x) → foldl f a l = foldl g a l.
Proof.
  revert a. induction l as [|x l IH]; intros a Hfg; [done|]. simpl.
  rewrite Hfg by apply list_elem_of_here. apply IH.
  intros a' y Hy. apply Hfg. by apply list_elem_of_further.
Qed.

Lemma Node_get_simplified_routes_ext h h' n :
  graph h' = graph h → Node_get_routes h' n = Node_get_routes h n →
  Node_get_simplified_routes h' n = Node_get_simplified_routes h n.
Proof.
  intros Hg Hr. unfold Node_get_simplified_routes. rewrite Hr.
  do 3 f_equal. apply list_fmap_ext. intros k e _. by rewrite (graph_network_of _ _ Hg).
Qed.

Lemma result_mapM_ext {A B} (f g : A → result B) l :
  (∀ x, f x = g x) → result_mapM f l = result_mapM g l.
Proof. intros Hfg. induction l as [|x l IH]; [done|]. simpl. by rewrite Hfg, IH. Qed.

Lemma Node_dump_ext h h' n :
  graph h' = graph h → Node_get_routes h' n = Node_get_routes h n →
  Node_dump h' n = Node_dump h n.
Proof.
  intros Hg Hr. unfold Node_dump, Node_dump_routes, Node_get_id.
  rewrite (Node_get_simplified_routes_ext _ _ _ Hg Hr).
  rewrite (graph_interfaces_of_node _ _ Hg), (graph_nodes _ _ Hg).
  rewrite (result_mapM_ext (Interface_dump h') (Interface_dump h))
    by (intros i; by apply graph_Interface_dump).
  destruct (result_mapM (Interface_dump h) _) as [ifs|]; [|done]. simpl.
  f_equal. destruct (from_option include_routes false (nodes h !! n)); [|done].
  f_equal. apply result_mapM_ext. intros [net [[i gw] d]].
  by rewrite (graph_Interface_get_ip _ _ Hg).
Qed.

(** C5.  A second [distribute_routes] on an unchanged graph, following
    the same enumeration of the channels, leaves what every node reports
    as it was after the first: its table, its aggregated table and its
    dump. *)
Theorem distribute_routes_idempotent order h :
  wf_heap h →
  ∃ h1 h2,
    distribute_routes_in order h = Some h1 ∧
    distribute_routes_in order h1 = Some h2 ∧
    ∀ n, route_snapshot h2 n = route_snapshot h1 n.
Proof.
  intros Hwf.
  destruct (distribute_routes_in_log order h Hwf) as (log & _ & Hlog).
  exists (apply_log log h), (apply_log log (apply_log log h)).
  split; [by apply Hlog|]. split; [apply Hlog, graph_apply_log|].
  intros n.
  set (h1 := apply_log log h). set (h2 := apply_log log h1).
  assert (Hg : graph h2 = graph h1) by apply graph_apply_log.
  assert (Hr : Node_get_routes h2 n = Node_get_routes h1 n).
  { unfold Node_get_routes.
    rewrite (graph_interfaces_of_node _ _ Hg), (graph_interfaces _ _ Hg).
    apply foldl_ext_in. intros tbl i _.
    destruct (interfaces h1 !! i) as [itf|]; [|done]. simpl.
    unfold h2. rewrite routes_of_apply_log.
    apply foldl_update_route_again.
    destruct (decide _) as [Hlt|]; [|by intros r Hin; apply elem_of_nil in Hin].
    unfold h1. rewrite routes_of_apply_log.
    unfold h1 in Hlt. rewrite (graph_channels_length _ _ (graph_apply_log log h)) in Hlt.
    destruct (decide _); [|done]. intros r Hin. apply elem_of_app. by right. }
  unfold route_snapshot.
  by rewrite Hr, (Node_get_simplified_routes_ext _ _ _ Hg Hr), (Node_dump_ext _ _ _ Hg Hr).
Qed.

(** * Scenarios *)

(** Case analysis on the enumerations of a concrete list of channels. *)
Ltac each_enumeration H :=
  apply permutations_Permutation in H; vm_compute in H;
  repeat (apply elem_of_cons in H as [H|H]; [subst|]);
  [..|by apply elem_of_nil in H].

(** C1, as the code has it.  In the chain X–Y–Z on blocks of
    10.0.0.0/24 cut into /30, after [distribute_routes] in any
    enumeration of the two channels: Y, which is on both channels, dumps
    no route; X dumps one route, to the network of the channel Y–Z, with
    metric 1 and Y's address on the channel X–Y as gateway; Z dumps one
    route, to the network of the channel X–Y, with metric 1 and Y's
    address on the channel Y–Z as gateway. *)
Theorem round_trip_scenario order :
  order ≡ₚ Topology_get_channels (topology_of chain3) (heap_of chain3) →
  ∃ h,
    distribute_routes_in order (heap_of chain3) = Some h ∧
    dumped_routes h 1 = Some [] ∧
    dumped_routes h 0
    = Some [mkRouteDump (str_network (network_of h 1)) (address_of h 1) 1] ∧
    dumped_routes h 2
    = Some [mkRouteDump (str_network (network_of h 0)) (address_of h 2) 1] ∧
    str_network (network_of h 0) = "10.0.0.0/30" ∧
    str_network (network_of h 1) = "10.0.0.4/30" ∧
    address_of h 1 = "10.0.0.2" ∧ address_of h 2 = "10.0.0.5".
Proof.
  intros Hp. symmetry in Hp. each_enumeration Hp;
    (eexists; split; [vm_compute; reflexivity|]; vm_compute; repeat split).
Qed.

Lemma round_trip_scenario_witness :
  ∃ h,
    distribute_routes_in [1; 0]%nat (heap_of chain3) = Some h ∧
    dumped_routes h 1 = Some [] ∧
    dumped_routes h 0
    = Some [mkRouteDump (str_network (network_of h 1)) (address_of h 1) 1] ∧
    dumped_routes h 2
    = Some [mkRouteDump (str_network (network_of h 0)) (address_of h 2) 1] ∧
    str_network (network_of h 0) = "10.0.0.0/30" ∧
    str_network (network_of h 1) = "10.0.0.4/30" ∧
    address_of h 1 = "10.0.0.2" ∧ address_of h 2 = "10.0.0.5".
Proof.
  apply (round_trip_scenario [1; 0]%nat). vm_compute. apply perm_swap.
Defined.

(** C1, as stated, fails: Y dumps no route at all, and X's route to the
    far network has metric 1 and Y's address as gateway, not metric 2 and
    X's own address. *)
Lemma round_trip_as_stated_fails :
  ∃ h,
    Topology_distribute_routes (topology_of chain3) (heap_of chain3) = Some h ∧
    ¬ ((∃ l, dumped_routes h 1 = Some l ∧
             l ≡ₚ [mkRouteDump (str_network (network_of h 0)) (address_of h 1) 1;
                   mkRouteDump (str_network (network_of h 1)) (address_of h 2) 1]) ∧
       dumped_routes h 0
       = Some [mkRouteDump (str_network (network_of h 1)) (address_of h 0) 2]).
Proof.
  eexists. split; [vm_compute; reflexivity|].
  intros [(l & Hl & Hperm) _]. vm_compute in Hl. inversion Hl; subst l.
  by apply Permutation_nil_l in Hperm.
Qed.

(** C2: the code misses a case.  After [add_backbone(1, pool, 25)] the
    two backbone nodes share two channels.  Either node is attached to
    both, and still dumps a route to the network of one of them, through
    the other node. *)
Theorem local_exclusion_fails order :
  order ≡ₚ Topology_get_channels (topology_of backbone1) (heap_of backbone1) →
  ∃ h,
    distribute_routes_in order (heap_of backbone1) = Some h ∧
    attached h 0 1 ∧
    dumped_routes h 0
    = Some [mkRouteDump (str_network (network_of h 1)) (address_of h 1) 1] ∧
    attached h 1 0 ∧
    dumped_routes h 1
    = Some [mkRouteDump (str_network (network_of h 0)) (address_of h 3) 1].
Proof.
  intros Hp. symmetry in Hp. each_enumeration Hp;
    (eexists; split; [vm_compute; reflexivity|]; split; [|split; [|split]]);
    try (vm_compute; reflexivity).
  - exists 3%nat. eexists. split; [|split; vm_compute; reflexivity].
    vm_compute. apply list_elem_of_further, list_elem_of_here.
  - exists 1%nat. eexists. split; [|split; vm_compute; reflexivity].
    vm_compute. apply list_elem_of_here.
  - exists 3%nat. eexists. split; [|split; vm_compute; reflexivity].
    vm_compute. apply list_elem_of_further, list_elem_of_here.
  - exists 1%nat. eexists. split; [|split; vm_compute; reflexivity].
    vm_compute. apply list_elem_of_here.
Qed.

Lemma local_exclusion_fails_witness :
  ∃ h,
    distribute_routes_in [0; 1]%nat (heap_of backbone1) = Some h ∧
    attached h 0 1 ∧
    dumped_routes h 0
    = Some [mkRouteDump (str_network (network_of h 1)) (address_of h 1) 1] ∧
    attached h 1 0 ∧
    dumped_routes h 1
    = Some [mkRouteDump (str_network (network_of h 0)) (address_of h 3) 1].
Proof.
  apply (local_exclusion_fails [0; 1]%nat). vm_compute. reflexivity.
Defined.

Lemma chain3_wf : wf_heap (heap_of chain3).
Proof. vm_compute. repeat constructor. Qed.

Lemma chain3_fresh : no_routes (heap_of chain3).
Proof. vm_compute. repeat constructor. Qed.

(** * Queries before the distribution *)

(** C8, as the code has it.  Before [distribute_routes] nothing fails for
    want of it: a node's table and aggregated table are empty, the route
    list of its dump is empty, and the dump is produced whenever the
    interface entries are, with an empty ['routes'] list for a node that
    reports routes. *)
Theorem routes_before_distribution h n :
  no_routes h →
  Node_get_routes h n = [] ∧
  Node_get_simplified_routes h n = [] ∧
  Node_dump_routes h n = Ok [] ∧
  (∀ ifs, result_mapM (Interface_dump h) (interfaces_of_node h n) = Ok ifs →
          ∃ d, Node_dump h n = Ok d ∧
               dump_routes d
               = if from_option include_routes false (nodes h !! n) then Some [] else None).
Proof.
  intros Hno.
  assert (Hr : Node_get_routes h n = []).
  { unfold Node_get_routes. generalize (interfaces_of_node h n). intros l.
    induction l as [|i l IH]; [done|]. simpl.
    destruct (interfaces h !! i) as [itf|]; simpl; [|exact IH].
    by rewrite (no_routes_routes_of _ _ Hno). }
  assert (Hs : Node_get_simplified_routes h n = []).
  { unfold Node_get_simplified_routes. by rewrite Hr. }
  assert (Hd : Node_dump_routes h n = Ok []).
  { unfold Node_dump_routes. by rewrite Hs. }
  split; [done|]. split; [done|]. split; [done|].
  intros ifs Hifs. unfold Node_dump. rewrite Hifs, Hd. simpl.
  destruct (from_option include_routes false (nodes h !! n)); simpl; by eexists.
Qed.

Lemma routes_before_distribution_witness :
  Node_get_routes (heap_of chain3) 0 = [] ∧
  Node_get_simplified_routes (heap_of chain3) 0 = [] ∧
  Node_dump_routes (heap_of chain3) 0 = Ok [] ∧
  (∀ ifs, result_mapM (Interface_dump (heap_of chain3))
            (interfaces_of_node (heap_of chain3) 0) = Ok ifs →
          ∃ d, Node_dump (heap_of chain3) 0 = Ok d ∧
               dump_routes d
               = if from_option include_routes false (nodes (heap_of chain3) !! 0%nat)
                 then Some [] else None).
Proof.
  apply (routes_before_distribution (heap_of chain3) 0). vm_compute. repeat constructor.
Defined.

(** C8, as stated, fails: on a topology on which [distribute_routes] has
    not run, the table query returns the empty table and the dump is
    produced. *)
Lemma no_distribution_error :
  no_routes (heap_of chain3) ∧
  Node_get_routes (heap_of chain3) 1 = [] ∧
  ∃ d, Node_dump (heap_of chain3) 1 = Ok d ∧ dump_routes d = Some [].
Proof.
  split; [exact chain3_fresh|]. split; [vm_compute; reflexivity|].
  eexists. split; vm_compute; reflexivity.
Qed.

(** Witnesses on the chain X–Y–Z. *)
Lemma route_records_positive_witness :
  ∃ h', distribute_routes_in [0; 1]%nat (heap_of chain3) = Some h' ∧ routes_ok h'.
Proof.
  apply (route_records_positive [0; 1]%nat (heap_of chain3));
    vm_compute; repeat constructor.
Defined.

Lemma distribute_routes_idempotent_witness :
  ∃ h1 h2,
    distribute_routes_in [0; 1]%nat (heap_of chain3) = Some h1 ∧
    distribute_routes_in [0; 1]%nat h1 = Some h2 ∧
    ∀ n, route_snapshot h2 n = route_snapshot h1 n.
Proof.
  apply (distribute_routes_idempotent [0; 1]%nat (heap_of chain3)).
  vm_compute; repeat constructor.
Defined.

(** * Aggregation *)

(** ** Supernets, arithmetically *)

Lemma valid_network_inv n :
  valid_network n →
  (prefixlen n ≤ 32)%nat ∧ 0 ≤ network_address n < 2 ^ 32 ∧
  network_address n `mod` 2 ^ (32 - Z.of_nat (prefixlen n)) = 0.
Proof.
  intros (Hp & Hr & Hl). unfold max_prefixlen, ALL_ONES in *.
  split; [done|]. split; [lia|]. by apply aligned_of_valid.
Qed.

Lemma valid_network_intro a p :
  (p ≤ 32)%nat → 0 ≤ a < 2 ^ 32 → a `mod` 2 ^ (32 - Z.of_nat p) = 0 →
  valid_network (mkNet a p).
Proof.
  intros Hp Hr Hm. unfold valid_network, max_prefixlen, ALL_ONES.
  cbn [prefixlen network_address]. split; [done|]. split; [lia|].
  apply (valid_of_aligned (mkNet a p)); cbn [prefixlen network_address];
    [done|unfold ALL_ONES; lia|done].
Qed.

Lemma shifted_netmask a p :
  (p ≤ 31)%nat →
  Z.land ALL_ONES (Z.shiftl (netmask (mkNet a (S p))) 1) = netmask (mkNet a p).
Proof.
  intros Hp. unfold netmask; cbn [prefixlen].
  do 32 (destruct p as [|p]; [vm_compute; reflexivity|]). lia.
Qed.

Lemma land_netmask a p :
  (p ≤ 32)%nat → 0 ≤ a < 2 ^ 32 →
  Z.land a (netmask (mkNet a p)) = a - a `mod` 2 ^ (32 - Z.of_nat p).
Proof.
  intros Hp Hr. set (n := mkNet a p).
  assert (Hn : (prefixlen n ≤ 32)%nat) by done.
  assert (Ha : Z.land a ALL_ONES = a).
  { change ALL_ONES with (Z.ones 32). rewrite Z.land_ones by lia.
    apply Z.mod_small. lia. }
  assert (Hh : Z.land a (hostmask n) = a `mod` 2 ^ (32 - Z.of_nat p)).
  { rewrite (hostmask_ones n Hn). cbn [n prefixlen]. apply Z.land_ones. lia. }
  assert (Hdisj : Z.land (Z.land a (netmask n)) (Z.land a (hostmask n)) = 0).
  { rewrite (Z.land_comm a (hostmask n)), Z.land_assoc, <- (Z.land_assoc a).
    rewrite (netmask_land_hostmask n Hn), Z.land_0_r. apply Z.land_0_l. }
  assert (Hsum : a = Z.land a (netmask n) + Z.land a (hostmask n)).
  { rewrite (Z.add_nocarry_lxor _ _ Hdisj), (Z.lxor_lor _ _ Hdisj).
    rewrite <- Z.land_lor_distr_r, (netmask_lor_hostmask n Hn). by rewrite Ha. }
  lia.
Qed.

Lemma supernet_eq n :
  valid_network n → prefixlen n ≠ 0%nat →
  supernet n
  = mkNet (network_address n - network_address n `mod` 2 ^ (33 - Z.of_nat (prefixlen n)))
          (prefixlen n - 1).
Proof.
  intros Hv Hp. apply valid_network_inv in Hv as (Hle & Hr & _).
  unfold supernet. destruct (decide _) as [|_]; [done|].
  destruct n as [a [|p]]; [done|]. cbn [prefixlen network_address] in *.
  replace (S p - 1)%nat with p by lia. f_equal.
  assert (Ha : Z.land a ALL_ONES = a).
  { change ALL_ONES with (Z.ones 32). rewrite Z.land_ones by lia.
    apply Z.mod_small. lia. }
  rewrite <- Ha at 1. rewrite <- Z.land_assoc, (shifted_netmask a p) by lia.
  rewrite land_netmask by lia. do 3 f_equal. lia.
Qed.

Lemma supernet_valid n : valid_network n → valid_network (supernet n).
Proof.
  intros Hv. destruct (decide (prefixlen n = 0%nat)) as [H0|H0].
  { unfold supernet. by destruct (decide _). }
  rewrite (supernet_eq n Hv H0).
  apply valid_network_inv in Hv as (Hle & Hr & Hm).
  set (a := network_address n) in *. set (p := prefixlen n) in *.
  assert (Hpos : 0 < 2 ^ (33 - Z.of_nat p)) by (apply Z.pow_pos_nonneg; lia).
  pose proof (Z.mod_pos_bound a _ Hpos) as Hb.
  pose proof (Z.mod_le a _ (proj1 Hr) Hpos) as Hb'.
  apply valid_network_intro; [lia|lia|].
  replace (32 - Z.of_nat (p - 1)) with (33 - Z.of_nat p) by lia.
  rewrite Zminus_mod, Zmod_mod, Z.sub_diag. apply Zmod_0_l.
Qed.

Lemma netmask_inj a b p q :
  (p ≤ 32)%nat → (q ≤ 32)%nat →
  netmask (mkNet a p) = netmask (mkNet b q) → p = q.
Proof.
  intros Hp Hq. rewrite !netmask_pow2 by done. cbn [prefixlen]. intros Heq.
  assert (H2 : 2 ^ (32 - Z.of_nat p) = 2 ^ (32 - Z.of_nat q)) by lia.
  apply Z.pow_inj_r in H2; lia.
Qed.

Lemma net_eqb_true a b :
  valid_network a → valid_network b → net_eqb a b = true → a = b.
Proof.
  intros (Hp & _) (Hq & _). unfold net_eqb, max_prefixlen in *.
  destruct a as [a p], b as [b q]; cbn [network_address prefixlen] in *.
  intros H. apply andb_true_iff in H as [Ha Hm].
  apply Z.eqb_eq in Ha, Hm. apply netmask_inj in Hm; [|done..]. by subst.
Qed.

Lemma net_eqb_refl a : net_eqb a a = true.
Proof. unfold net_eqb. by rewrite !Z.eqb_refl. Qed.

Lemma net_eqb_prefix a b :
  valid_network a → valid_network b → prefixlen a ≠ prefixlen b → net_eqb a b = false.
Proof.
  intros Ha Hb Hne. destruct (net_eqb a b) eqn:E; [|done].
  apply net_eqb_true in E; [|done..]. by subst.
Qed.

(** ** The sort *)

Lemma net_ltb_spec a b :
  net_ltb a b = true ↔
  network_address a < network_address b ∨
  (network_address a = network_address b ∧ netmask a < netmask b).
Proof.
  unfold net_ltb.
  destruct (Z.eqb_spec (network_address a) (network_address b)) as [Ha|Ha]; simpl.
  - destruct (Z.eqb_spec (netmask a) (netmask b)) as [Hm|Hm]; simpl.
    + split; [done|]. lia.
    + rewrite Z.ltb_lt. lia.
  - rewrite Z.ltb_lt. lia.
Qed.

Lemma net_ltb_false a b :
  net_ltb b a = false ↔
  network_address a < network_address b ∨
  (network_address a = network_address b ∧ netmask a ≤ netmask b).
Proof.
  rewrite <- not_true_iff_false, net_ltb_spec. lia.
Qed.

Lemma Forall_filter_keep {A} (P Q : A → Prop) `{∀ x, Decision (P x)} (l : list A) :
  Forall Q l → Forall Q (filter P l).
Proof.
  rewrite !Forall_forall. intros HQ x Hx. apply list_elem_of_filter in Hx as [_ Hx]. auto.
Qed.

Lemma filter_none {A} (P : A → Prop) `{∀ x, Decision (P x)} (l : list A) :
  Forall (λ x, ¬ P x) l → filter P l = [].
Proof.
  induction 1 as [|x l Hx Hl IH]; [done|]. by rewrite filter_cons_False.
Qed.

Lemma filter_all {A} (P : A → Prop) `{∀ x, Decision (P x)} (l : list A) :
  Forall P l → filter P l = l.
Proof.
  induction 1 as [|x l Hx Hl IH]; [done|]. rewrite filter_cons_True by done. by f_equal.
Qed.

Section sort.
Context {V : Type}.
Implicit Types (x y e : IPv4Network * V) (l s : list (IPv4Network * V)).

#[local] Instance route_le_trans : Transitive (@route_le V).
Proof. intros x y z. unfold route_le. rewrite !net_ltb_false. lia. Qed.

Lemma route_lt_le x y : route_lt x y → route_le x y.
Proof. unfold route_lt, route_le. rewrite net_ltb_false, net_ltb_spec. lia. Qed.

Lemma route_lt_not_le x y : route_lt x y → ¬ route_le y x.
Proof. unfold route_lt, route_le. rewrite net_ltb_false, net_ltb_spec. lia. Qed.

Lemma route_le_lt_trans x y z : route_le x y → route_lt y z → route_lt x z.
Proof. unfold route_lt, route_le. rewrite net_ltb_false, !net_ltb_spec. lia. Qed.

Lemma insert_route_perm e l : insert_route e l ≡ₚ e :: l.
Proof.
  induction l as [|x l IH]; simpl; [done|].
  destruct (net_ltb x.1 e.1); [|done]. rewrite IH. apply perm_swap.
Qed.

Lemma sort_routes_perm l : sort_routes l ≡ₚ l.
Proof.
  induction l as [|x l IH]; simpl; [done|].
  unfold sort_routes in *. simpl. by rewrite insert_route_perm, IH.
Qed.

Lemma insert_route_sorted e l :
  StronglySorted (@route_le V) l → StronglySorted (@route_le V) (insert_route e l).
Proof.
  induction 1 as [|x l Hs IH Hx]; simpl.
  - by repeat constructor.
  - destruct (net_ltb x.1 e.1) eqn:Hlt.
    + constructor; [exact IH|]. rewrite insert_route_perm. constructor; [|exact Hx].
      by apply route_lt_le.
    + constructor; [by constructor|]. constructor; [exact Hlt|].
      eapply Forall_impl; [exact Hx|]. intros y Hy. by trans x.
Qed.

Lemma sort_routes_sorted l : StronglySorted (@route_le V) (sort_routes l).
Proof.
  induction l as [|x l IH]; [constructor|].
  unfold sort_routes in *. simpl. by apply insert_route_sorted.
Qed.

Lemma StronglySorted_filter_route (P : IPv4Network * V → Prop) `{∀ x, Decision (P x)} l :
  StronglySorted (@route_le V) l → StronglySorted (@route_le V) (filter P l).
Proof.
  induction 1 as [|x l Hs IH Hx]; [constructor|].
  rewrite filter_cons. destruct (decide (P x)); [|exact IH].
  constructor; [exact IH|]. by apply Forall_filter_keep.
Qed.

(** A sorted list is cut in two by a property that is closed downwards. *)
Lemma sorted_cut (P : IPv4Network * V → Prop) `{∀ x, Decision (P x)} s :
  StronglySorted (@route_le V) s →
  (∀ x y, route_le x y → P y → P x) →
  s = filter P s ++ filter (λ x, ¬ P x) s.
Proof.
  intros Hs Hdown. induction Hs as [|x l Hs IH Hx]; [done|].
  rewrite !filter_cons. destruct (decide (P x)) as [HP|HP].
  - destruct (decide (¬ P x)); [done|]. simpl. by f_equal.
  - destruct (decide (¬ P x)); [|done].
    assert (Hnone : Forall (λ y, ¬ P y) l).
    { eapply Forall_impl; [exact Hx|]. intros y Hy HPy. apply HP. by eapply Hdown. }
    assert (filter P l = []) as ->.
    { by apply filter_none. }
    simpl. f_equal. symmetry. by apply filter_all.
Qed.

(** A sorted arrangement of strictly increasing entries is the
    increasing one. *)
Lemma sorted_perm_strict m t :
  StronglySorted (@route_le V) m → StronglySorted (@route_lt V) t → m ≡ₚ t → m = t.
Proof.
  intros Hm Ht. revert m Hm. induction Ht as [|x t Ht IH Hx]; intros m Hm Hp.
  - by apply Permutation_nil_r in Hp.
  - destruct m as [|y m]; [by apply Permutation_nil_cons in Hp|].
    apply StronglySorted_inv in Hm as [Hm Hy].
    assert (y = x) as ->.
    { assert (Hyin : y ∈ x :: t) by (rewrite <- Hp; apply list_elem_of_here).
      apply elem_of_cons in Hyin as [|Hyin]; [done|]. exfalso.
      rewrite Forall_forall in Hx. specialize (Hx y Hyin).
      assert (Hxin : x ∈ y :: m) by (rewrite Hp; apply list_elem_of_here).
      apply elem_of_cons in Hxin as [->|Hxin].
      - apply (route_lt_not_le _ _ Hx). by apply route_lt_le.
      - rewrite Forall_forall in Hy. by apply (route_lt_not_le _ _ Hx), Hy. }
    f_equal. apply IH; [done|]. by apply Permutation_cons_inv in Hp.
Qed.

(** Entries that fill a band of the order stand together in the sorted
    list. *)
Lemma sorted_band s band others lo hi :
  StronglySorted (@route_le V) s →
  s ≡ₚ band ++ others →
  StronglySorted (@route_lt V) band →
  Forall (λ e, route_le lo e ∧ route_le e hi) band →
  Forall (λ e, ¬ (route_le lo e ∧ route_le e hi)) others →
  ∃ pre post, s = pre ++ band ++ post ∧ pre ++ post ≡ₚ others.
Proof.
  intros Hs Hp Hband Hin Hout.
  set (P1 := λ e : IPv4Network * V, net_ltb e.1 lo.1 = true).
  set (P2 := λ e : IPv4Network * V, route_le e hi).
  assert (Hd1 : ∀ e, Decision (P1 e)) by (intros e; unfold P1; apply _).
  assert (Hd2 : ∀ e, Decision (P2 e)) by (intros e; unfold P2, route_le; apply _).
  pose proof (sorted_cut P1 s Hs) as Hcut1.
  set (r := filter (λ x, ¬ P1 x) s) in *.
  assert (Hr : StronglySorted (@route_le V) r) by by apply StronglySorted_filter_route.
  pose proof (sorted_cut P2 r Hr) as Hcut2.
  set (mid := filter P2 r) in *.
  assert (Hmid : mid = band).
  { apply sorted_perm_strict; [by apply StronglySorted_filter_route|done|].
    unfold mid, r. rewrite Hp, !filter_app.
    assert (filter P2 (filter (λ x, ¬ P1 x) others) = []) as ->.
    { apply filter_none. apply Forall_forall. intros e He HP2.
      apply list_elem_of_filter in He as [HnP1 He].
      rewrite Forall_forall in Hout. apply (Hout e He). split; [|done].
      unfold P1 in HnP1. unfold route_le. by destruct (net_ltb e.1 lo.1). }
    rewrite app_nil_r.
    rewrite (filter_all (λ x, ¬ P1 x) band).
    - rewrite filter_all; [done|].
      eapply Forall_impl; [exact Hin|]. by intros e [_ ?].
    - eapply Forall_impl; [exact Hin|]. intros e [Hlo _]. unfold P1, route_le in *.
      by rewrite Hlo. }
  exists (filter P1 s), (filter (λ x, ¬ P2 x) r).
  assert (Heq : s = filter P1 s ++ band ++ filter (λ x, ¬ P2 x) r).
  { rewrite <- Hmid. rewrite <- Hcut2; [apply Hcut1|].
    - intros x y Hxy Hy. unfold P1 in *. by apply (route_le_lt_trans x y lo).
    - intros x y Hxy Hy. unfold P2 in *. by trans y. }
  split; [exact Heq|].
  assert (Hs' : filter P1 s ++ band ++ filter (λ x, ¬ P2 x) r ≡ₚ band ++ others)
    by (by rewrite <- Heq).
  apply (Permutation_app_inv_l band). rewrite <- Hs'.
  rewrite !app_assoc. f_equiv. apply Permutation_app_comm.
Qed.
End sort.

(** ** Four /30 networks under a /28 *)

Lemma net_eqb_sym a b : net_eqb a b = net_eqb b a.
Proof. unfold net_eqb. by rewrite (Z.eqb_sym (network_address a)), (Z.eqb_sym (netmask a)). Qed.

Lemma net_eqb_inside b k k' : net_eqb k k' = true → inside b k → inside b k'.
Proof.
  unfold net_eqb, inside, broadcast_address, hostmask. intros H.
  apply andb_true_iff in H as [Ha Hm]. apply Z.eqb_eq in Ha, Hm. by rewrite Ha, Hm.
Qed.

Lemma pow2_le_inv k j : 0 ≤ k → 0 ≤ j → 2 ^ k ≤ 2 ^ j → k ≤ j.
Proof. intros Hk Hj H. apply Z.pow_le_mono_r_iff in H; lia. Qed.

Lemma mod_pow2_32 a k : 5 ≤ k → a `mod` 2 ^ k = 0 → a `mod` 32 = 0.
Proof.
  intros Hk Hm. apply Z.mod_divide in Hm; [|by apply Z.pow_nonzero; lia].
  apply Z.mod_divide; [lia|]. etrans; [|exact Hm].
  exists (2 ^ (k - 5)). change 32 with (2 ^ 5). rewrite <- Z.pow_add_r by lia. f_equal. lia.
Qed.

(** [lia] after the divisions have been turned into equations. *)
Ltac mod_lia := Z.div_mod_to_equations; lia.

Section tile.
Context (X : Z) (HX : valid_network (mkNet X 28)).

Local Abbreviation S27 := (supernet (mkNet X 28)).

Lemma tile_base : X `mod` 16 = 0 ∧ 0 ≤ X ∧ X + 16 ≤ 2 ^ 32.
Proof.
  apply valid_network_inv in HX as (_ & Hr & Hm). cbn [prefixlen network_address] in *.
  change (2 ^ (32 - Z.of_nat 28)) with 16 in Hm.
  change (2 ^ 32) with 4294967296 in *. mod_lia.
Qed.

Lemma S27_eq : S27 = mkNet (X - X `mod` 32) 27.
Proof. by rewrite (supernet_eq _ HX). Qed.

Lemma S27_broadcast : broadcast_address S27 = X - X `mod` 32 + 31.
Proof.
  rewrite (broadcast_of_valid _ (supernet_valid _ HX)), S27_eq.
  cbn [prefixlen network_address]. change (2 ^ (32 - Z.of_nat 27)) with 32. mod_lia.
Qed.

(** What [clear_of S27] says, in numbers. *)
Lemma clear_of_S27 k :
  clear_of S27 k ↔
  ((27 < prefixlen k)%nat →
   ¬ (X - X `mod` 32 ≤ network_address k ≤ X - X `mod` 32 + 31)).
Proof. unfold clear_of. rewrite S27_broadcast, S27_eq. done. Qed.

Lemma apart_supernet e v : apart S27 e → apart S27 (supernet e.1, v).
Proof.
  intros [Hv Hc]. split; cbn [fst]; [by apply supernet_valid|].
  apply clear_of_S27. pose proof (proj1 (clear_of_S27 _) Hc) as Hc'. intros Hp.
  destruct (decide (prefixlen e.1 = 0%nat)) as [H0|H0].
  { assert (supernet e.1 = e.1) as Hs by (unfold supernet; by destruct (decide _)).
    rewrite Hs in Hp. lia. }
  rewrite (supernet_eq _ Hv H0) in *. cbn [prefixlen network_address] in *.
  pose proof tile_base as (Hm & Hlo & Hhi).
  apply valid_network_inv in Hv as (Hle & Hr & _).
  assert (Hcases : prefixlen e.1 = 29%nat ∨ prefixlen e.1 = 30%nat ∨
                   prefixlen e.1 = 31%nat ∨ prefixlen e.1 = 32%nat) by mod_lia.
  assert (Hlt : (27 < prefixlen e.1)%nat) by (clear -Hcases; lia).
  specialize (Hc' Hlt).
  destruct Hcases as [Hq|[Hq|[Hq|Hq]]]; rewrite Hq;
    [change (2 ^ (33 - Z.of_nat 29)) with 16
    |change (2 ^ (33 - Z.of_nat 30)) with 8
    |change (2 ^ (33 - Z.of_nat 31)) with 4
    |change (2 ^ (33 - Z.of_nat 32)) with 2]; mod_lia.
Qed.

(** A block of prefix length 28 or more inside the /27 has a supernet
    that no entry apart from the /27 shares. *)
Lemma no_merge a b :
  valid_network a → (27 < prefixlen a)%nat →
  X - X `mod` 32 ≤ network_address a ≤ X - X `mod` 32 + 31 →
  apart S27 b →
  net_eqb (supernet a) (supernet b.1) = false.
Proof.
  intros Hva Hpa Hra [Hvb Hcb]. pose proof (proj1 (clear_of_S27 _) Hcb) as Hcb'.
  destruct (net_eqb _ _) eqn:E; [|done]. exfalso.
  apply net_eqb_true in E; [|by apply supernet_valid..].
  rewrite (supernet_eq a Hva) in E by mod_lia.
  destruct (decide (prefixlen b.1 = 0%nat)) as [H0|H0].
  { unfold supernet in E. destruct (decide _); [|done].
    apply (f_equal prefixlen) in E. cbn [prefixlen] in E. mod_lia. }
  rewrite (supernet_eq _ Hvb H0) in E. injection E as Haddr Hpre.
  assert (Hpb : prefixlen b.1 = prefixlen a) by mod_lia. rewrite Hpb in *.
  apply valid_network_inv in Hva as (Hle & _ & _).
  pose proof tile_base as (Hm & Hlo & Hhi).
  assert (Hcases : prefixlen a = 28%nat ∨ prefixlen a = 29%nat ∨ prefixlen a = 30%nat ∨
                   prefixlen a = 31%nat ∨ prefixlen a = 32%nat) by mod_lia.
  specialize (Hcb' Hpa).
  destruct Hcases as [Hq|[Hq|[Hq|[Hq|Hq]]]]; rewrite Hq in Haddr;
    [change (2 ^ (33 - Z.of_nat 28)) with 32 in Haddr
    |change (2 ^ (33 - Z.of_nat 29)) with 16 in Haddr
    |change (2 ^ (33 - Z.of_nat 30)) with 8 in Haddr
    |change (2 ^ (33 - Z.of_nat 31)) with 4 in Haddr
    |change (2 ^ (33 - Z.of_nat 32)) with 2 in Haddr]; mod_lia.
Qed.

Lemma apart_not_inside e : apart S27 e → ¬ inside (mkNet X 28) e.1.
Proof.
  intros [Hv Hc] [Hlo Hhi]. pose proof (proj1 (clear_of_S27 _) Hc) as Hc'.
  rewrite (broadcast_of_valid _ Hv), (broadcast_of_valid _ HX) in Hhi.
  cbn [prefixlen network_address] in *. change (2 ^ (32 - Z.of_nat 28)) with 16 in Hhi.
  pose proof tile_base as (Hm & Hlo' & Hhi').
  apply valid_network_inv in Hv as (Hle & Hr & _).
  assert (Hpow : 2 ^ (32 - Z.of_nat (prefixlen e.1)) ≤ 2 ^ 4) by (change (2 ^ 4) with 16; mod_lia).
  apply pow2_le_inv in Hpow; [|mod_lia..].
  assert (0 < 2 ^ (32 - Z.of_nat (prefixlen e.1))) by (apply Z.pow_pos_nonneg; mod_lia).
  apply Hc'; mod_lia.
Qed.

(** *** The stack *)

Lemma merge_top_apart e below :
  apart S27 e → Forall (apart S27) below → Forall (apart S27) (merge_top e below).
Proof.
  intros He Hb. revert e He. induction Hb as [|b rest Hbk Hrest IH]; intros e He; simpl.
  - by constructor.
  - destruct (_ && _).
    + apply IH. by apply apart_supernet.
    + constructor; [done|]. by constructor.
Qed.

Lemma foldl_merge_apart stack l :
  Forall (apart S27) stack → Forall (apart S27) l →
  Forall (apart S27) (foldl merge_step stack l).
Proof.
  intros Hs Hl. revert stack Hs. induction Hl as [|e l He Hl IH]; intros stack Hs; [done|].
  simpl. apply IH. by apply merge_top_apart.
Qed.

Lemma merge_top_stays k v below :
  valid_network k → (27 < prefixlen k)%nat →
  X - X `mod` 32 ≤ network_address k ≤ X - X `mod` 32 + 31 →
  Forall (apart S27) below →
  merge_top (k, v) below = (k, v) :: below.
Proof.
  intros Hv Hp Hr Hb. destruct Hb as [|b rest Hbk Hrest]; [done|]. simpl.
  by rewrite (no_merge k b Hv Hp Hr Hbk).
Qed.

Lemma four_merge below i0 i1 i2 i3 g d0 d1 d2 d3 :
  Forall (apart S27) below →
  foldl merge_step below
    [ (mkNet X 30, (i0, g, d0)); (mkNet (X + 4) 30, (i1, g, d1));
      (mkNet (X + 8) 30, (i2, g, d2)); (mkNet (X + 12) 30, (i3, g, d3)) ]
  = (mkNet X 28, (i3, g, d3)) :: below.
Proof.
  intros Hb. pose proof tile_base as (Hm & Hlo & Hhi).
  assert (Hv30 : ∀ a, X ≤ a ≤ X + 12 → a `mod` 4 = 0 → valid_network (mkNet a 30)).
  { intros a Ha Ha4. apply valid_network_intro; [mod_lia|mod_lia|done]. }
  assert (Hv29 : ∀ a, X ≤ a ≤ X + 8 → a `mod` 8 = 0 → valid_network (mkNet a 29)).
  { intros a Ha Ha8. apply valid_network_intro; [mod_lia|mod_lia|done]. }
  assert (Hs30 : ∀ a, X ≤ a ≤ X + 12 → a `mod` 4 = 0 →
                      supernet (mkNet a 30) = mkNet (a - a `mod` 8) 29).
  { intros a Ha Ha4. by rewrite (supernet_eq _ (Hv30 a Ha Ha4)). }
  assert (Hs29 : ∀ a, X ≤ a ≤ X + 8 → a `mod` 8 = 0 →
                      supernet (mkNet a 29) = mkNet (a - a `mod` 16) 28).
  { intros a Ha Ha8. by rewrite (supernet_eq _ (Hv29 a Ha Ha8)). }
  cbn [foldl]. unfold merge_step.
  (* 10.x.x.0/30 is pushed *)
  rewrite (merge_top_stays (mkNet X 30)); cbn [prefixlen network_address];
    [|apply Hv30; mod_lia|mod_lia|mod_lia|done].
  (* 10.x.x.4/30 merges with it into the first /29, which is pushed *)
  cbn [merge_top fst snd].
  rewrite (Hs30 (X + 4)), (Hs30 X) by mod_lia.
  replace (X + 4 - (X + 4) `mod` 8) with X by mod_lia.
  replace (X - X `mod` 8) with X by mod_lia.
  rewrite net_eqb_refl, Nat.eqb_refl. cbn [andb].
  rewrite (merge_top_stays (mkNet X 29)); cbn [prefixlen network_address];
    [|apply Hv29; mod_lia|mod_lia|mod_lia|done].
  (* 10.x.x.8/30 does not merge with the /29 *)
  cbn [merge_top fst snd].
  rewrite (Hs30 (X + 8)), (Hs29 X) by mod_lia.
  rewrite (net_eqb_prefix (mkNet _ 29) (mkNet _ 28)); cbn [prefixlen];
    [|apply valid_network_intro; [mod_lia|mod_lia|]|apply valid_network_intro; [mod_lia|mod_lia|]|mod_lia].
  2: { change (2 ^ (32 - Z.of_nat 29)) with 8. mod_lia. }
  2: { change (2 ^ (32 - Z.of_nat 28)) with 16. mod_lia. }
  cbn [andb].
  (* 10.x.x.12/30 merges with it into the second /29, and that with the
     first /29 into the /28 *)
  cbn [merge_top fst snd].
  rewrite (Hs30 (X + 12)), (Hs30 (X + 8)) by mod_lia.
  replace (X + 12 - (X + 12) `mod` 8) with (X + 8) by mod_lia.
  replace (X + 8 - (X + 8) `mod` 8) with (X + 8) by mod_lia.
  rewrite net_eqb_refl, Nat.eqb_refl. cbn [andb merge_top fst snd].
  rewrite (Hs29 (X + 8)), (Hs29 X) by mod_lia.
  replace (X + 8 - (X + 8) `mod` 16) with X by mod_lia.
  replace (X - X `mod` 16) with X by mod_lia.
  rewrite net_eqb_refl. cbn [andb].
  apply merge_top_stays; cbn [prefixlen network_address]; [done|mod_lia|mod_lia|done].
Qed.

Lemma merge_top_above e above v below :
  apart S27 e → Forall (apart S27) above →
  ∃ above',
    merge_top e (above ++ (mkNet X 28, v) :: below) = above' ++ (mkNet X 28, v) :: below ∧
    Forall (apart S27) above'.
Proof.
  intros He Ha. revert e He. induction Ha as [|b rest Hb Hrest IH]; intros e He.
  - exists [e]. split; [|by constructor]. simpl.
    pose proof tile_base as (Hm & Hlo & Hhi).
    rewrite net_eqb_sym, (no_merge (mkNet X 28) e); cbn [prefixlen network_address];
      [done|done|mod_lia|mod_lia|done].
  - simpl. destruct (_ && _).
    + apply IH. by apply apart_supernet.
    + exists (e :: b :: rest). split; [done|]. constructor; [done|]. by constructor.
Qed.

Lemma foldl_merge_above l v below :
  Forall (apart S27) l →
  ∀ above, Forall (apart S27) above →
  ∃ above',
    foldl merge_step (above ++ (mkNet X 28, v) :: below) l = above' ++ (mkNet X 28, v) :: below ∧
    Forall (apart S27) above'.
Proof.
  induction 1 as [|e l He Hl IH]; intros above Ha.
  - by exists above.
  - cbn [foldl]. unfold merge_step at 2.
    destruct (merge_top_above e above v below He Ha) as (above' & -> & Ha').
    by apply IH.
Qed.

(** *** The dictionary *)

Lemma dict_set_filter_out k v (d : list (IPv4Network * RouteEntry)) :
  ¬ inside (mkNet X 28) k →
  filter (λ e, inside (mkNet X 28) e.1) (dict_set net_eqb k v d)
  = filter (λ e, inside (mkNet X 28) e.1) d.
Proof.
  intros Hk. induction d as [|[k' v'] d IH]; simpl.
  - by rewrite filter_cons_False.
  - destruct (net_eqb k' k) eqn:E.
    + assert (¬ inside (mkNet X 28) k').
      { intros Hin. apply Hk. by eapply net_eqb_inside. }
      by rewrite !filter_cons_False.
    + rewrite !filter_cons. cbn [fst]. destruct (decide _); by rewrite IH.
Qed.

Lemma dict_set_filter_new k v (d : list (IPv4Network * RouteEntry)) :
  inside (mkNet X 28) k →
  filter (λ e, inside (mkNet X 28) e.1) d = [] →
  filter (λ e, inside (mkNet X 28) e.1) (dict_set net_eqb k v d) = [(k, v)].
Proof.
  intros Hk. induction d as [|[k' v'] d IH]; intros Hd; simpl.
  - by rewrite filter_cons_True.
  - rewrite filter_cons in Hd. cbn [fst] in Hd.
    destruct (decide (inside (mkNet X 28) k')) as [|Hk']; [done|].
    destruct (net_eqb k' k) eqn:E.
    + exfalso. apply Hk'. rewrite net_eqb_sym in E. by eapply net_eqb_inside.
    + rewrite filter_cons_False by done. by apply IH.
Qed.

Lemma dict_fold_filter_out l (d : list (IPv4Network * RouteEntry)) :
  Forall (apart S27) l →
  filter (λ e, inside (mkNet X 28) e.1) (foldl (λ d e, dict_set net_eqb e.1 e.2 d) d l)
  = filter (λ e, inside (mkNet X 28) e.1) d.
Proof.
  intros Hl. revert d. induction Hl as [|e l He Hl IH]; intros d; [done|].
  simpl. rewrite IH. apply dict_set_filter_out. by apply apart_not_inside.
Qed.

Lemma simplify_tile pre post i0 i1 i2 i3 g d0 d1 d2 d3 :
  Forall (apart S27) pre → Forall (apart S27) post →
  filter (λ e, inside (mkNet X 28) e.1)
    (dict_of_list net_eqb
       (simplify
          (pre ++
           [ (mkNet X 30, (i0, g, d0)); (mkNet (X + 4) 30, (i1, g, d1));
             (mkNet (X + 8) 30, (i2, g, d2)); (mkNet (X + 12) 30, (i3, g, d3)) ] ++
           post)))
  = [(mkNet X 28, (i3, g, d3))].
Proof.
  intros Hpre Hpost. unfold simplify. rewrite !foldl_app.
  set (below := foldl merge_step [] pre).
  assert (Hbelow : Forall (apart S27) below) by (apply foldl_merge_apart; [constructor|done]).
  rewrite (four_merge below) by done.
  destruct (foldl_merge_above post (i3, g, d3) below Hpost [] ltac:(constructor))
    as (above & Heq & Habove).
  cbn [app] in Heq. rewrite Heq. rewrite rev_app_distr. cbn [rev app].
  rewrite <- app_assoc. cbn [app].
  unfold dict_of_list. rewrite foldl_app. cbn [foldl].
  rewrite dict_fold_filter_out by (by apply Forall_rev).
  apply dict_set_filter_new.
  - split; cbn [network_address]; mod_lia.
  - rewrite dict_fold_filter_out by (by apply Forall_rev). done.
Qed.
(** Entries apart from the /27 stand before the first or after the last
    of the four /30 networks in the sort order. *)
Lemma apart_outside_band o v0 v3 :
  apart S27 o →
  ¬ (route_le (mkNet X 30, v0) o ∧ route_le o (mkNet (X + 12) 30, v3)).
Proof.
  intros [Hv Hc]. pose proof (proj1 (clear_of_S27 _) Hc) as Hc'.
  unfold route_le. rewrite !net_ltb_false. cbn [fst network_address].
  pose proof tile_base as (Hm & Hlo & Hhi).
  apply valid_network_inv in Hv as (Hle & Hr & Hal).
  rewrite (netmask_pow2 o.1 Hle), !(netmask_pow2 (mkNet _ 30)) by (cbn [prefixlen]; lia).
  cbn [prefixlen]. change (2 ^ (32 - Z.of_nat 30)) with (2 ^ 2).
  intros [H1 H2].
  destruct (decide (27 < prefixlen o.1)%nat) as [Hlong|Hshort].
  - apply (Hc' Hlong). mod_lia.
  - assert (H32 : network_address o.1 `mod` 32 = 0).
    { apply (mod_pow2_32 _ (32 - Z.of_nat (prefixlen o.1))); [lia|done]. }
    assert (Heq : network_address o.1 = X) by mod_lia.
    assert (Hpow : 2 ^ (32 - Z.of_nat (prefixlen o.1)) ≤ 2 ^ 2) by lia.
    apply pow2_le_inv in Hpow; lia.
Qed.
End tile.

(** C3, as stated, fails.  With eight leaves the observer's table holds
    the four /30 networks of 10.0.0.0/28, all through one gateway, and
    the four of 10.0.0.16/28 through the same gateway: the two /28 merge
    further, and the aggregated table has the /27 and no entry keyed by
    the /28. *)
Lemma aggregation_as_stated_fails :
  let h := after_distribution (seq 0 9) (heap_of (star 8)) in
  take 4 (Node_get_routes h 9)
  = [(0, (17, 16, 1)); (1, (17, 16, 1)); (2, (17, 16, 1)); (3, (17, 16, 1))]%nat ∧
  (network_of h 0, network_of h 1, network_of h 2, network_of h 3)
  = (mkNet 167772160 30, mkNet 167772164 30, mkNet 167772168 30, mkNet 167772172 30) ∧
  Node_get_simplified_routes h 9 = [(mkNet 167772160 27, (17, 16, 1))%nat] ∧
  dict_get net_eqb (mkNet 167772160 28) (Node_get_simplified_routes h 9) = None.
Proof. vm_compute. repeat split. Qed.

(** * The traversal on a chain of channels *)

(** ** One expansion, as a single loop *)

Lemma foldl_visit_graph self d outs st :
  graph (heap (foldl (visit self d) st outs)) = graph (heap st).
Proof.
  apply (step_ok_heap self (λ st, foldl (visit self d) st outs)).
  apply step_ok_foldl. intros o. apply step_ok_visit.
Qed.

Lemma expand_flat self cur d st :
  expand self cur d st = foldl (visit self d) st (out_interfaces (heap st) cur).
Proof.
  unfold expand, out_interfaces.
  generalize (interfaces_of_channel (heap st) cur). intros l.
  assert (Hgen : ∀ st0, graph (heap st0) = graph (heap st) →
    foldl (λ st1 in_interface,
             foldl (visit self d) st1
               (from_option (λ i, interfaces_of_node (heap st1) (node i)) []
                  (interfaces (heap st1) !! in_interface))) st0 l
    = foldl (visit self d) st0
        (l ≫= λ in_interface,
           from_option (λ i, interfaces_of_node (heap st) (node i)) []
             (interfaces (heap st) !! in_interface))).
  { induction l as [|x l IH]; intros st0 Hg; [done|].
    cbn [foldl]. rewrite bind_cons, foldl_app.
    rewrite (graph_interfaces _ _ Hg).
    assert (Hx : from_option (λ i, interfaces_of_node (heap st0) (node i)) []
                   (interfaces (heap st) !! x)
                 = from_option (λ i, interfaces_of_node (heap st) (node i)) []
                     (interfaces (heap st) !! x)).
    { destruct (interfaces (heap st) !! x); [|done]. simpl.
      by apply graph_interfaces_of_node. }
    rewrite Hx. apply IH. by rewrite foldl_visit_graph. }
  by apply Hgen.
Qed.

Lemma visit_old self d st o :
  (∀ c, channel_of (heap st) o = Some c → c ∈ known st) →
  visit self d st o = st.
Proof.
  unfold visit, channel_of. intros Hc.
  destruct (interfaces (heap st) !! o) as [i|]; [|done]. simpl in Hc.
  destruct (decide _) as [|Hnot]; [done|]. exfalso. by apply Hnot, Hc.
Qed.

Lemma visit_new self d st o c :
  channel_of (heap st) o = Some c → c ∉ known st →
  visit self d st o
  = mkBfs ({[c]} ∪ known st) (queue st ++ [(c, (d + 1)%nat)])
          (append_route c (self, o, (d + 1)%nat) (heap st)).
Proof.
  unfold visit, channel_of. intros Hc Hnot.
  destruct (interfaces (heap st) !! o) as [i|]; [|done]. simpl in Hc.
  inversion Hc; subst c. by destruct (decide _).
Qed.

Lemma channel_of_append_route c r h o :
  channel_of (append_route c r h) o = channel_of h o.
Proof. done. Qed.

Lemma foldl_visit_old self d outs st :
  Forall (λ o, ∀ c, channel_of (heap st) o = Some c → c ∈ known st) outs →
  foldl (visit self d) st outs = st.
Proof.
  induction 1 as [|o outs Ho Houts IH]; [done|].
  cbn [foldl]. by rewrite visit_old.
Qed.

(** An expansion that meets one new channel records it once. *)
Lemma foldl_visit_one self d x outs st :
  x ∉ known st →
  Forall (λ o, ∀ c, channel_of (heap st) o = Some c → c ∈ known st ∨ c = x) outs →
  Exists (λ o, channel_of (heap st) o = Some x) outs →
  ∃ o,
    foldl (visit self d) st outs
    = mkBfs ({[x]} ∪ known st) (queue st ++ [(x, (d + 1)%nat)])
            (append_route x (self, o, (d + 1)%nat) (heap st)).
Proof.
  intros Hx Hall. induction Hall as [|o outs Ho Houts IH]; intros Hex.
  - by apply Exists_nil in Hex.
  - cbn [foldl]. destruct (channel_of (heap st) o) as [c|] eqn:Hc.
    + destruct (Ho c eq_refl) as [Hold| ->].
      * rewrite visit_old by (intros c' Hc'; congruence).
        apply IH. apply Exists_cons in Hex as [Hex|Hex]; [congruence|done].
      * exists o. rewrite (visit_new self d st o x Hc Hx).
        apply foldl_visit_old. cbn [heap known].
        eapply Forall_impl; [exact Houts|]. intros o' Ho' c' Hc'.
        rewrite channel_of_append_route in Hc'.
        destruct (Ho' c' Hc') as [?| ->]; [by apply elem_of_union_r|].
        by apply elem_of_union_l, elem_of_singleton.
    + rewrite visit_old by (intros c' Hc'; congruence).
      apply IH. apply Exists_cons in Hex as [Hex|Hex]; [congruence|done].
Qed.

Lemma neighbours_all h c (P : nat → Prop) :
  Forall P (neighbours h c) →
  Forall (λ o, ∀ x, channel_of h o = Some x → P x) (out_interfaces h c).
Proof.
  unfold neighbours. intros HP. apply Forall_forall. intros o Ho x Hx.
  rewrite Forall_forall in HP. apply HP. apply list_elem_of_omap. by exists o.
Qed.

Lemma neighbours_some h c x :
  x ∈ neighbours h c → Exists (λ o, channel_of h o = Some x) (out_interfaces h c).
Proof.
  unfold neighbours. intros Hx. apply list_elem_of_omap in Hx as (o & Ho & Hox).
  apply Exists_exists. by exists o.
Qed.

Lemma graph_out_interfaces h h' c :
  graph h' = graph h → out_interfaces h' c = out_interfaces h c.
Proof.
  intros Hg. unfold out_interfaces.
  rewrite (graph_interfaces_of_channel _ _ Hg), (graph_interfaces _ _ Hg).
  apply list_bind_ext; [|done]. intros i.
  destruct (interfaces h !! i); [|done]. simpl. by apply graph_interfaces_of_node.
Qed.

Lemma graph_neighbours h h' c : graph h' = graph h → neighbours h' c = neighbours h c.
Proof.
  intros Hg. unfold neighbours, channel_of.
  by rewrite (graph_out_interfaces _ _ _ Hg), (graph_interfaces _ _ Hg).
Qed.

Lemma graph_chain_from h h' a b c d :
  graph h' = graph h → chain_from h a b c d → chain_from h' a b c d.
Proof.
  intros Hg. unfold chain_from. by rewrite !(graph_neighbours _ _ _ Hg).
Qed.

(** ** The traversal from the end of a chain *)

Lemma expand_new self cur d K q h0 h x :
  graph h0 = graph h →
  x ∉ K →
  Forall (λ y, y ∈ K ∨ y = x) (neighbours h cur) →
  x ∈ neighbours h cur →
  ∃ o, expand self cur d (mkBfs K q h0)
       = mkBfs ({[x]} ∪ K) (q ++ [(x, (d + 1)%nat)])
               (append_route x (self, o, (d + 1)%nat) h0).
Proof.
  intros Hg Hx Hall Hin. rewrite expand_flat. cbn [heap].
  rewrite <- (graph_neighbours _ _ cur Hg) in Hall, Hin.
  apply (foldl_visit_one self d x _ (mkBfs K q h0)); cbn [known heap]; [done| |].
  - by apply neighbours_all.
  - by apply neighbours_some.
Qed.

Lemma expand_none self cur d K q h0 h :
  graph h0 = graph h →
  Forall (λ y, y ∈ K) (neighbours h cur) →
  expand self cur d (mkBfs K q h0) = mkBfs K q h0.
Proof.
  intros Hg Hall. rewrite expand_flat. cbn [heap].
  rewrite <- (graph_neighbours _ _ cur Hg) in Hall.
  apply foldl_visit_old. cbn [known heap]. by apply neighbours_all.
Qed.

Lemma neighbour_valid h c x : wf_heap h → x ∈ neighbours h c → (x < length (channels h))%nat.
Proof.
  unfold neighbours, channel_of, wf_heap. intros Hwf Hx.
  apply list_elem_of_omap in Hx as (o & _ & Hox).
  destruct (interfaces h !! o) as [i|] eqn:Hi; simpl in Hox; [|discriminate].
  inversion Hox; subst x. rewrite Forall_forall in Hwf. apply Hwf.
  by eapply list_elem_of_lookup_2.
Qed.

Lemma chain_run h a b c d :
  wf_heap h → chain_from h a b c d →
  ∃ o1 o2 o3,
    Channel_distribute_route a h
    = Some (apply_log [(b, (a, o1, 1%nat)); (c, (a, o2, 2%nat)); (d, (a, o3, 3%nat))] h).
Proof.
  intros Hwf (Hnd & Ha & Hab & Hb & Hbc & Hc & Hcd & Hd).
  pose proof (neighbour_valid h a b Hwf Hab) as Hvb.
  pose proof (neighbour_valid h b c Hwf Hbc) as Hvc.
  pose proof (neighbour_valid h c d Hwf Hcd) as Hvd.
  apply NoDup_cons in Hnd as [Ha' Hnd]. apply NoDup_cons in Hnd as [Hb' Hnd].
  apply NoDup_cons in Hnd as [Hc' _].
  repeat setoid_rewrite not_elem_of_cons in Ha'.
  repeat setoid_rewrite not_elem_of_cons in Hb'.
  repeat setoid_rewrite not_elem_of_cons in Hc'.
  destruct Ha' as (Hab' & Hac' & Had' & _), Hb' as (Hbc' & Hbd' & _), Hc' as (Hcd' & _).
  unfold Channel_distribute_route.
  destruct (length (channels h)) as [|[|[|n]]] eqn:Hlen; [lia..|].
  replace (S (S (S n)) + 2)%nat with (S (S (S (S (S n))))) by lia.
  (* the origin is expanded: [b] is found *)
  cbn [distribute_route_loop queue known heap].
  destruct (expand_new a a 0 {[a]} [] h h b eq_refl) as (o1 & ->); [| | |].
  { by intros ?%elem_of_singleton. }
  { eapply Forall_impl; [exact Ha|]. intros y Hy.
    apply elem_of_cons in Hy as [->|Hy]; [left; by apply elem_of_singleton|].
    apply elem_of_cons in Hy as [->|Hy]; [by right|]. by apply elem_of_nil in Hy. }
  { done. }
  (* [b] is expanded: [c] is found *)
  cbn [distribute_route_loop queue known heap app Nat.add].
  destruct (expand_new a b 1 ({[b]} ∪ {[a]}) [] (append_route b (a, o1, 1%nat) h) h c)
    as (o2 & ->); [| | | |].
  { apply graph_append_route. }
  { intros [?%elem_of_singleton|?%elem_of_singleton]%elem_of_union; congruence. }
  { eapply Forall_impl; [exact Hb|]. intros y Hy.
    apply elem_of_cons in Hy as [->|Hy];
      [left; by apply elem_of_union_r, elem_of_singleton|].
    apply elem_of_cons in Hy as [->|Hy];
      [left; by apply elem_of_union_l, elem_of_singleton|].
    apply elem_of_cons in Hy as [->|Hy]; [by right|]. by apply elem_of_nil in Hy. }
  { done. }
  (* [c] is expanded: [d] is found *)
  cbn [distribute_route_loop queue known heap app Nat.add].
  destruct (expand_new a c 2 ({[c]} ∪ ({[b]} ∪ {[a]})) []
              (append_route c (a, o2, 2%nat) (append_route b (a, o1, 1%nat) h)) h d)
    as (o3 & ->); [| | | |].
  { by rewrite !graph_append_route. }
  { intros [?%elem_of_singleton|[?%elem_of_singleton|?%elem_of_singleton]%elem_of_union]%elem_of_union;
      congruence. }
  { eapply Forall_impl; [exact Hc|]. intros y Hy.
    apply elem_of_cons in Hy as [->|Hy];
      [left; by apply elem_of_union_r, elem_of_union_l, elem_of_singleton|].
    apply elem_of_cons in Hy as [->|Hy];
      [left; by apply elem_of_union_l, elem_of_singleton|].
    apply elem_of_cons in Hy as [->|Hy]; [by right|]. by apply elem_of_nil in Hy. }
  { done. }
  (* [d] is expanded: nothing new; the queue is empty *)
  cbn [distribute_route_loop queue known heap app Nat.add].
  rewrite (expand_none a d 3 _ [] _ h).
  - exists o1, o2, o3. by destruct n.
  - by rewrite !graph_append_route.
  - eapply Forall_impl; [exact Hd|]. intros y Hy.
    apply elem_of_cons in Hy as [->|Hy];
      [by apply elem_of_union_r, elem_of_union_l, elem_of_singleton|].
    apply elem_of_cons in Hy as [->|Hy];
      [by apply elem_of_union_l, elem_of_singleton|]. by apply elem_of_nil in Hy.
Qed.

(** ** Distances recorded by [distribute_routes] *)

Lemma distances_from_apply_log log h o x :
  distances_from (apply_log log h) o x
  = distances_from h o x ++
    if decide (x < length (channels h))%nat
    then (λ r : RouteRecord, r.2) <$>
         filter (λ r : RouteRecord, r.1.1 = o)
           ((λ e : nat * RouteRecord, e.2) <$> filter (λ e, e.1 = x) log)
    else [].
Proof.
  unfold distances_from. rewrite routes_of_apply_log, filter_app, fmap_app.
  by destruct (decide _).
Qed.

(** A traversal from another origin adds no record for origin [o]. *)
Lemma run_other s o h :
  wf_heap h → s ≠ o →
  ∃ h', Channel_distribute_route s h = Some h' ∧ graph h' = graph h ∧
        ∀ x, distances_from h' o x = distances_from h o x.
Proof.
  intros Hwf Hne. destruct (Channel_distribute_route_log s h Hwf) as (log & Hl & Hlog).
  exists (apply_log log h). split; [by apply Hlog|]. split; [apply graph_apply_log|].
  intros x. rewrite distances_from_apply_log.
  destruct (decide _); [|by rewrite app_nil_r].
  rewrite (filter_none (λ r : RouteRecord, r.1.1 = o)); [by rewrite app_nil_r|].
  apply Forall_fmap, Forall_forall. intros e He. cbn.
  apply list_elem_of_filter in He as [_ He].
  rewrite Forall_forall in Hl. destruct (Hl e He) as (_ & Ho & _). congruence.
Qed.

(** The traversal from the first channel of a chain adds one record to
    each of the other three, at distances 1, 2 and 3. *)
Lemma run_chain h a b c d :
  wf_heap h → chain_from h a b c d →
  ∃ h', Channel_distribute_route a h = Some h' ∧ graph h' = graph h ∧
        ∀ x, distances_from h' a x = distances_from h a x ++ chain_distances b c d x.
Proof.
  intros Hwf Hch. destruct (chain_run h a b c d Hwf Hch) as (o1 & o2 & o3 & Hrun).
  destruct Hch as (Hnd & Ha & Hab & Hb & Hbc & Hc & Hcd & Hd).
  pose proof (neighbour_valid h a b Hwf Hab) as Hvb.
  pose proof (neighbour_valid h b c Hwf Hbc) as Hvc.
  pose proof (neighbour_valid h c d Hwf Hcd) as Hvd.
  eexists. split; [exact Hrun|]. split; [apply graph_apply_log|].
  intros x. rewrite distances_from_apply_log. f_equal.
  unfold chain_distances. rewrite !filter_cons, filter_nil. cbn [fst snd].
  destruct (decide (x = b)) as [->|Hxb].
  { apply NoDup_cons in Hnd as [_ Hnd]. apply NoDup_cons in Hnd as [Hb' _].
    repeat setoid_rewrite not_elem_of_cons in Hb'. destruct Hb' as (Hbc' & Hbd' & _).
    destruct (decide _); [|lia].
    destruct (decide (b = b)); [|done].
    destruct (decide (c = b)); [congruence|]. destruct (decide (d = b)); [congruence|].
    cbn. by destruct (decide (a = a)). }
  destruct (decide (b = x)); [congruence|].
  destruct (decide (x = c)) as [->|Hxc].
  { apply NoDup_cons in Hnd as [_ Hnd]. apply NoDup_cons in Hnd as [_ Hnd].
    apply NoDup_cons in Hnd as [Hc' _].
    repeat setoid_rewrite not_elem_of_cons in Hc'. destruct Hc' as (Hcd' & _).
    destruct (decide _); [|lia].
    destruct (decide (c = c)); [|done]. destruct (decide (d = c)); [congruence|].
    cbn. by destruct (decide (a = a)). }
  destruct (decide (c = x)); [congruence|].
  destruct (decide (x = d)) as [->|Hxd].
  { destruct (decide _); [|lia]. destruct (decide (d = d)); [|done].
    cbn. by destruct (decide (a = a)). }
  destruct (decide (d = x)); [congruence|]. by destruct (decide _).
Qed.

Lemma distribute_chain order :
  ∀ h a b c d,
    NoDup order → wf_heap h → chain_from h a b c d →
    ∃ h', distribute_routes_in order h = Some h' ∧ graph h' = graph h ∧
          ∀ x, distances_from h' a x
               = distances_from h a x ++
                 if decide (a ∈ order) then chain_distances b c d x else [].
Proof.
  induction order as [|s order IH]; intros h a b c d Hnd Hwf Hch.
  - exists h. split; [done|]. split; [done|]. intros x.
    destruct (decide _) as [Hin|]; [by apply elem_of_nil in Hin|]. by rewrite app_nil_r.
  - apply NoDup_cons in Hnd as [Hs Hnd]. cbn [distribute_routes_in].
    destruct (decide (s = a)) as [->|Hne].
    + destruct (run_chain h a b c d Hwf Hch) as (h1 & -> & Hg1 & Hd1).
      destruct (IH h1 a b c d Hnd) as (h2 & Hrun & Hg2 & Hd2).
      { by eapply graph_wf_heap. }
      { by eapply graph_chain_from. }
      exists h2. split; [done|]. split; [congruence|]. intros x.
      rewrite Hd2, Hd1. destruct (decide (a ∈ order)); [done|].
      destruct (decide _) as [|Hnot]; [by rewrite app_nil_r|].
      exfalso. apply Hnot, list_elem_of_here.
    + destruct (run_other s a h Hwf Hne) as (h1 & -> & Hg1 & Hd1).
      destruct (IH h1 a b c d Hnd) as (h2 & Hrun & Hg2 & Hd2).
      { by eapply graph_wf_heap. }
      { by eapply graph_chain_from. }
      exists h2. split; [done|]. split; [congruence|]. intros x.
      rewrite Hd2, Hd1. f_equal.
      destruct (decide (a ∈ order)) as [Hin|Hnin].
      * destruct (decide _) as [|Hnot]; [done|].
        exfalso. by apply Hnot, list_elem_of_further.
      * destruct (decide _) as [Hin|]; [|done].
        apply elem_of_cons in Hin as [->|Hin]; done.
Qed.

Lemma no_routes_distances h o x : no_routes h → distances_from h o x = [].
Proof. intros Hno. unfold distances_from. by rewrite (no_routes_routes_of _ _ Hno). Qed.

(** C4.  Let A, B, C, D be four distinct channels in a row: A shares
    nodes with B only, B with A and C only, C with B and D only, D with C
    only.  Running the distributor once for every channel of an
    enumeration that has A and D, on a freshly built heap, leaves exactly
    one record of origin A in each of B, C and D, at distances 1, 2
    and 3, and exactly one record of origin D in each of C, B and A, at
    distances 1, 2 and 3. *)
Theorem bfs_chain h order A B C D :
  wf_heap h → no_routes h →
  chain_from h A B C D → chain_from h D C B A →
  NoDup order → A ∈ order → D ∈ order →
  ∃ h',
    distribute_routes_in order h = Some h' ∧
    distances_from h' A B = [1%nat] ∧
    distances_from h' A C = [2%nat] ∧
    distances_from h' A D = [3%nat] ∧
    distances_from h' D C = [1%nat] ∧
    distances_from h' D B = [2%nat] ∧
    distances_from h' D A = [3%nat].
Proof.
  intros Hwf Hfresh Hfwd Hbwd Hnd HA HD.
  destruct (distribute_chain order h A B C D Hnd Hwf Hfwd) as (h' & Hrun & _ & Hf).
  destruct (distribute_chain order h D C B A Hnd Hwf Hbwd) as (h'' & Hrun' & _ & Hb).
  assert (h'' = h') as -> by congruence.
  exists h'. split; [done|].
  destruct Hfwd as (Hnd4 & _).
  apply NoDup_cons in Hnd4 as [Ha' Hnd4]. apply NoDup_cons in Hnd4 as [Hb' Hnd4].
  apply NoDup_cons in Hnd4 as [Hc' _].
  repeat setoid_rewrite not_elem_of_cons in Ha'.
  repeat setoid_rewrite not_elem_of_cons in Hb'.
  repeat setoid_rewrite not_elem_of_cons in Hc'.
  destruct Ha' as (? & ? & ? & _), Hb' as (? & ? & _), Hc' as (? & _).
  rewrite !Hf, !Hb, !(no_routes_distances _ _ _ Hfresh).
  destruct (decide (A ∈ order)); [|done]. destruct (decide (D ∈ order)); [|done].
  unfold chain_distances. cbn [app].
  repeat (destruct (decide _); try congruence).
  done.
Qed.

Lemma bfs_chain_witness :
  ∃ h',
    distribute_routes_in [3; 1; 0; 2]%nat (heap_of chain5) = Some h' ∧
    distances_from h' 0 1 = [1%nat] ∧
    distances_from h' 0 2 = [2%nat] ∧
    distances_from h' 0 3 = [3%nat] ∧
    distances_from h' 3 2 = [1%nat] ∧
    distances_from h' 3 1 = [2%nat] ∧
    distances_from h' 3 0 = [3%nat].
Proof.
  apply (bfs_chain (heap_of chain5) [3; 1; 0; 2]%nat 0 1 2 3).
  - unfold wf_heap. apply (bool_decide_unpack _). vm_compute. exact I.
  - unfold no_routes. apply (bool_decide_unpack _). vm_compute. exact I.
  - unfold chain_from. apply (bool_decide_unpack _). vm_compute. exact I.
  - unfold chain_from. apply (bool_decide_unpack _). vm_compute. exact I.
  - apply (bool_decide_unpack _). vm_compute. exact I.
  - apply (bool_decide_unpack _). vm_compute. exact I.
  - apply (bool_decide_unpack _). vm_compute. exact I.
Defined.

(** * The pool as a queue of blocks *)

Lemma subnets_ok parent p :
  (prefixlen parent ≤ p ≤ 32)%nat → ∃ l, subnets parent p = Ok l.
Proof.
  intros [Hq Hp]. unfold subnets, max_prefixlen.
  destruct (decide (prefixlen parent = 32%nat)); [by eexists|].
  destruct (decide (p < prefixlen parent)%nat); [lia|].
  destruct (decide (32 < prefixlen parent + (p - prefixlen parent))%nat); [lia|].
  by eexists.
Qed.

Lemma gen_networks_enough k l :
  (k ≤ length l)%nat →
  gen_networks k (mkPool l) = Ok (take k l, mkPool (drop k l)).
Proof.
  revert l. induction k as [|k IH]; intros l Hk; simpl.
  - by rewrite drop_0.
  - destruct l as [|n rest]; simpl in *; [lia|].
    rewrite IH by lia. done.
Qed.

Lemma gen_networks_short k l :
  (length l < k)%nat → gen_networks k (mkPool l) = Raise IndexError.
Proof.
  revert l. induction k as [|k IH]; intros l Hk; simpl; [lia|].
  destruct l as [|n rest]; simpl in *; [done|].
  rewrite IH by lia. done.
Qed.

Lemma pool_size parent p pool :
  valid_network parent → (prefixlen parent ≤ p ≤ 32)%nat →
  NetworkPool_init parent p = Ok pool →
  free_networks pool
  = nth_block parent p <$> seqZ 0 (Z.of_nat (2 ^ (p - prefixlen parent))).
Proof.
  intros Hv Hp Hi. unfold NetworkPool_init in Hi.
  destruct (subnets parent p) as [l|] eqn:Hs; simpl in Hi; [|discriminate].
  inversion Hi; subst pool; clear Hi. simpl.
  rewrite (subnets_blocks _ _ _ Hv Hp Hs). do 2 f_equal.
  rewrite Nat2Z.inj_pow, Nat2Z.inj_sub by lia. done.
Qed.

(** X: the calls of [gen_network] return the blocks of the partition in
    ascending order, the [j]-th call the block that starts [j] block
    sizes after the parent's first address, as long as the partition
    lasts. *)
Theorem pool_sequence parent new_prefix k :
  valid_network parent →
  (prefixlen parent ≤ new_prefix ≤ 32)%nat →
  (k ≤ 2 ^ (new_prefix - prefixlen parent))%nat →
  ∃ pool pool',
    NetworkPool_init parent new_prefix = Ok pool ∧
    gen_networks k pool
    = Ok ((λ j, mkNet (network_address parent + j * 2 ^ (32 - Z.of_nat new_prefix)) new_prefix)
            <$> seqZ 0 (Z.of_nat k), pool') ∧
    length (free_networks pool') = (2 ^ (new_prefix - prefixlen parent) - k)%nat.
Proof.
  intros Hv Hp Hk.
  destruct (subnets_ok parent new_prefix Hp) as [l Hl].
  assert (Hi : NetworkPool_init parent new_prefix = Ok (mkPool l)).
  { unfold NetworkPool_init. by rewrite Hl. }
  pose proof (pool_size _ _ _ Hv Hp Hi) as Hf. simpl in Hf.
  assert (Hlen : length l = (2 ^ (new_prefix - prefixlen parent))%nat).
  { rewrite Hf, length_fmap, length_seqZ. lia. }
  exists (mkPool l), (mkPool (drop k l)). split; [done|].
  rewrite gen_networks_enough by lia. split.
  - f_equal. f_equal. rewrite Hf.
    replace (Z.of_nat (2 ^ (new_prefix - prefixlen parent)))
      with (Z.of_nat k + Z.of_nat (2 ^ (new_prefix - prefixlen parent) - k)) by lia.
    rewrite seqZ_app, fmap_app by lia.
    rewrite take_app_length' by (rewrite length_fmap, length_seqZ; lia). done.
  - simpl. rewrite length_drop. lia.
Qed.

Lemma pool_sequence_witness :
  ∃ pool pool',
    NetworkPool_init net_10_96_0_0_16 28 = Ok pool ∧
    gen_networks 3 pool
    = Ok ([mkNet 174063616 28; mkNet 174063632 28; mkNet 174063648 28], pool') ∧
    length (free_networks pool') = 4093%nat.
Proof.
  apply (pool_sequence net_10_96_0_0_16 28 3).
  - apply (bool_decide_unpack _). vm_compute. exact I.
  - vm_compute. lia.
  - vm_compute. lia.
Defined.

(** X: once the partition is used up, the next call raises [IndexError]:
    a pool never hands out more blocks than the parent holds. *)
Theorem pool_exhaustion parent new_prefix pool k :
  valid_network parent →
  (prefixlen parent ≤ new_prefix ≤ 32)%nat →
  NetworkPool_init parent new_prefix = Ok pool →
  (2 ^ (new_prefix - prefixlen parent) < k)%nat →
  gen_networks k pool = Raise IndexError.
Proof.
  intros Hv Hp Hi Hk.
  pose proof (pool_size _ _ _ Hv Hp Hi) as Hf.
  destruct pool as [l]. simpl in Hf.
  apply gen_networks_short. rewrite Hf, length_fmap, length_seqZ. lia.
Qed.

Lemma pool_exhaustion_witness :
  ∃ pool, NetworkPool_init net_10_0_0_0_24 30 = Ok pool ∧
          gen_networks 65 pool = Raise IndexError.
Proof.
  eexists. split; [vm_compute; reflexivity|].
  eapply (pool_exhaustion net_10_0_0_0_24 30).
  - apply (bool_decide_unpack _). vm_compute. exact I.
  - vm_compute. lia.
  - vm_compute. reflexivity.
  - vm_compute. lia.
Defined.

(** * What [Channel.auto] builds *)

Lemma Channel_auto_unfold node_a node_b net dly id_a id_b h :
  Channel_auto node_a node_b net dly id_a id_b h
  = (length (channels h),
     (Interface_init node_b (length (channels h)) id_b
        (Interface_init node_a (length (channels h)) id_a
           (Channel_init ("c_" +:+ Node_get_short h node_a +:+ "_" +:+ Node_get_short h node_b)
              net dly h).2).2).2).
Proof.
  unfold Channel_auto, Channel_init. cbn [fst snd].
  destruct (Interface_init node_a _ _ _) as [x1 h2]. cbn [snd].
  destruct (Interface_init node_b _ _ _) as [x2 h3]. done.
Qed.

Lemma alter_at_end {A} (f : A → A) (l : list A) x :
  alter f (length l) (l ++ [x]) = l ++ [f x].
Proof.
  rewrite <- (Nat.add_0_r (length l)). by rewrite alter_app_r.
Qed.

Lemma alter_before_end {A} (f : A → A) (l : list A) x k :
  (k < length l)%nat → alter f k (l ++ [x]) = alter f k l ++ [x].
Proof.
  intros Hk. by rewrite alter_app_l.
Qed.

Lemma Interface_init_last_channel nd id ns cs c0 ifs :
  (Interface_init nd (length cs) id (mkHeap ns (cs ++ [c0]) ifs)).2
  = mkHeap
      (alter (set_node_interfaces (from_option node_interfaces [] (ns !! nd) ++ [length ifs]))
         nd ns)
      (cs ++ [set_channel_interfaces (channel_interfaces c0 ++ [length ifs]) c0])
      (ifs ++
         [mkInterface nd
            (default ("i" +:+ pretty (length (from_option node_interfaces [] (ns !! nd)))) id)
            (length cs) (length (channel_interfaces c0))]).
Proof.
  rewrite Interface_init_heap. unfold interfaces_of_node, interfaces_of_channel.
  cbn [nodes channels interfaces].
  rewrite lookup_app_r by lia. rewrite Nat.sub_diag.
  cbn [lookup list_lookup from_option]. by rewrite alter_at_end.
Qed.

(** The heap after [Channel.auto]: one more channel, with the two new
    interfaces as members, which the two nodes have as their last
    interfaces. *)
Lemma Channel_auto_heap node_a node_b net dly id_a id_b h :
  let ch := length (channels h) in
  let ia := length (interfaces h) in
  let la := interfaces_of_node h node_a in
  let nodes1 := alter (set_node_interfaces (la ++ [ia])) node_a (nodes h) in
  let lb := from_option node_interfaces [] (nodes1 !! node_b) in
  (Channel_auto node_a node_b net dly id_a id_b h).2
  = mkHeap
      (alter (set_node_interfaces (lb ++ [S ia])) node_b nodes1)
      (channels h ++
         [mkChannel ("c_" +:+ Node_get_short h node_a +:+ "_" +:+ Node_get_short h node_b)
            net dly [ia; S ia] []])
      (interfaces h ++
         [mkInterface node_a (default ("i" +:+ pretty (length la)) id_a) ch 0;
          mkInterface node_b (default ("i" +:+ pretty (length lb)) id_b) ch 1]).
Proof.
  intros ch ia la nodes1 lb.
  rewrite Channel_auto_unfold. cbn [snd]. unfold Channel_init. cbn [snd].
  rewrite Interface_init_last_channel.
  rewrite Interface_init_last_channel.
  unfold set_channel_interfaces.
  cbn [channel_id network delay routes channel_interfaces app length].
  rewrite length_app. cbn [length]. rewrite Nat.add_1_r.
  rewrite <- app_assoc. cbn [app]. done.
Qed.

(** X: [Channel.auto] gives the first node the first host address of
    the block and the second node the second one, whatever the heap
    holds already.  A block of two addresses has no address for the
    second node and a block of one address none at all: reading the
    address then raises [IndexError]. *)
Theorem Channel_auto_addresses node_a node_b net dly id_a id_b h :
  valid_network net →
  let ch := length (channels h) in
  let ia := length (interfaces h) in
  let h' := (Channel_auto node_a node_b net dly id_a id_b h).2 in
  (Channel_auto node_a node_b net dly id_a id_b h).1 = ch ∧
  interfaces_of_channel h' ch = [ia; S ia] ∧
  node <$> interfaces h' !! ia = Some node_a ∧
  node <$> interfaces h' !! S ia = Some node_b ∧
  Interface_get_ip h' ia
  = (if decide (prefixlen net ≤ 31)%nat
     then Ok (network_address net + 1, prefixlen net) else Raise IndexError) ∧
  Interface_get_ip h' (S ia)
  = (if decide (prefixlen net ≤ 30)%nat
     then Ok (network_address net + 2, prefixlen net) else Raise IndexError).
Proof.
  intros Hv ch ia h'. subst h'. rewrite Channel_auto_heap.
  rewrite Channel_auto_unfold. cbn [fst].
  pose proof (broadcast_of_valid net Hv) as Hb.
  destruct Hv as (Hp & _). unfold max_prefixlen in Hp.
  unfold interfaces_of_channel, Interface_get_ip. cbn [channels interfaces].
  fold ch ia.
  assert (Hia : ∀ x y : Interface, (interfaces h ++ [x; y]) !! ia = Some x).
  { intros x y. subst ia. rewrite lookup_app_r by lia. by rewrite Nat.sub_diag. }
  assert (Hib : ∀ x y : Interface, (interfaces h ++ [x; y]) !! S ia = Some y).
  { intros x y. subst ia. rewrite lookup_app_r by lia.
    by replace (S (length (interfaces h)) - length (interfaces h))%nat with 1%nat by lia. }
  assert (Hch : ∀ x : Channel, (channels h ++ [x]) !! ch = Some x).
  { intros x. subst ch. rewrite lookup_app_r by lia. by rewrite Nat.sub_diag. }
  rewrite Hia, Hib. cbn [fmap option_fmap option_map node channel offset].
  rewrite Hch. cbn [from_option channel_interfaces network].
  do 4 (split; [done|]).
  unfold net_getitem. rewrite Hb.
  assert (Hpow : 32 - Z.of_nat (prefixlen net) = 0 ∨ 32 - Z.of_nat (prefixlen net) = 1 ∨
                 2 ≤ 32 - Z.of_nat (prefixlen net)) by lia.
  assert (H4 : 2 ≤ 32 - Z.of_nat (prefixlen net) → 4 ≤ 2 ^ (32 - Z.of_nat (prefixlen net))).
  { intros H. change 4 with (2 ^ 2). apply Z.pow_le_mono_r; lia. }
  split.
  - destruct (decide (prefixlen net ≤ 31)%nat).
    + destruct Hpow as [H|[H|H]]; [lia| |].
      * rewrite H. rewrite decide_False by (change (2 ^ 1) with 2; lia). done.
      * specialize (H4 H). rewrite decide_False by lia. done.
    + replace (32 - Z.of_nat (prefixlen net)) with 0 by lia.
      rewrite decide_True by (change (2 ^ 0) with 1; lia). done.
  - destruct (decide (prefixlen net ≤ 30)%nat).
    + specialize (H4 ltac:(lia)). rewrite decide_False by lia. done.
    + destruct Hpow as [H|[H|H]]; [| |lia]; rewrite H.
      * rewrite decide_True by (change (2 ^ 0) with 1; lia). done.
      * rewrite decide_True by (change (2 ^ 1) with 2; lia). done.
Qed.

Lemma Channel_auto_addresses_witness :
  let h' := (Channel_auto 0 1 (mkNet 167772160 31) 0 None None (heap_of chain3)).2 in
  (Channel_auto 0 1 (mkNet 167772160 31) 0 None None (heap_of chain3)).1 = 2%nat ∧
  interfaces_of_channel h' 2 = [4; 5]%nat ∧
  node <$> interfaces h' !! 4%nat = Some 0%nat ∧
  node <$> interfaces h' !! 5%nat = Some 1%nat ∧
  Interface_get_ip h' 4 = Ok (167772161, 31%nat) ∧
  Interface_get_ip h' 5 = Raise IndexError.
Proof.
  apply (Channel_auto_addresses 0 1 (mkNet 167772160 31) 0 None None (heap_of chain3)).
  apply (bool_decide_unpack _). vm_compute. exact I.
Defined.

(** * Links between nodes, channels and interfaces *)

Lemma interfaces_of_node_alter f nd ns cs ifs n :
  interfaces_of_node (mkHeap (alter f nd ns) cs ifs) n
  = if decide (n = nd) then from_option (λ x, node_interfaces (f x)) [] (ns !! nd)
    else interfaces_of_node (mkHeap ns cs ifs) n.
Proof.
  unfold interfaces_of_node. cbn [nodes].
  destruct (decide (n = nd)) as [->|Hne].
  - rewrite list_lookup_alter_eq. by destruct (ns !! nd).
  - by rewrite list_lookup_alter_ne.
Qed.

Lemma interfaces_of_channel_alter f ch ns cs ifs c :
  interfaces_of_channel (mkHeap ns (alter f ch cs) ifs) c
  = if decide (c = ch) then from_option (λ x, channel_interfaces (f x)) [] (cs !! ch)
    else interfaces_of_channel (mkHeap ns cs ifs) c.
Proof.
  unfold interfaces_of_channel. cbn [channels].
  destruct (decide (c = ch)) as [->|Hne].
  - rewrite list_lookup_alter_eq. by destruct (cs !! ch).
  - by rewrite list_lookup_alter_ne.
Qed.

Lemma lookup_snoc_Some {A} (l : list A) x i y :
  (l ++ [x]) !! i = Some y ↔ l !! i = Some y ∨ (i = length l ∧ y = x).
Proof.
  rewrite lookup_app_Some. split.
  - intros [H|[Hl H]]; [by left|right].
    destruct (i - length l)%nat as [|k] eqn:E; simpl in H; [|done].
    inversion H. split; [lia|done].
  - intros [H|[-> ->]]; [by left|right]. split; [lia|]. by rewrite Nat.sub_diag.
Qed.

Lemma exec_links_ok o h h' : exec o h = Some h' → links_ok h → links_ok h'.
Proof.
  intros Hex (Hn & Hc & Hdn & Hdc).
  assert (Hbn : ∀ n i, i ∈ interfaces_of_node h n → (i < length (interfaces h))%nat).
  { intros n i Hi. apply Hn in Hi.
    destruct (interfaces h !! i) eqn:E; [|done]. by apply lookup_lt_Some in E. }
  assert (Hbc : ∀ c i, i ∈ interfaces_of_channel h c → (i < length (interfaces h))%nat).
  { intros c i Hi. apply Hc in Hi.
    destruct (interfaces h !! i) eqn:E; [|done]. by apply lookup_lt_Some in E. }
  destruct o as [cls dev comp incl|id net dly|nd ch id].
  - inversion Hex; subst h'; clear Hex. unfold Node_init. cbn [snd].
    assert (Hsame : ∀ n, interfaces_of_node
               (mkHeap (nodes h ++ [mkNode cls dev comp [] incl]) (channels h) (interfaces h)) n
             = interfaces_of_node h n).
    { intros n. unfold interfaces_of_node. cbn [nodes].
      destruct (decide (n < length (nodes h))%nat).
      - by rewrite lookup_app_l.
      - rewrite lookup_app_r by lia. rewrite (lookup_ge_None_2 (nodes h)) by lia.
        by destruct (n - length (nodes h))%nat. }
    split; [|split; [|split]].
    + intros n i. rewrite Hsame. apply Hn.
    + exact Hc.
    + intros n. rewrite Hsame. apply Hdn.
    + exact Hdc.
  - inversion Hex; subst h'; clear Hex. unfold Channel_init. cbn [snd].
    assert (Hsame : ∀ c, interfaces_of_channel
               (mkHeap (nodes h) (channels h ++ [mkChannel id net dly [] []]) (interfaces h)) c
             = interfaces_of_channel h c).
    { intros c. unfold interfaces_of_channel. cbn [channels].
      destruct (decide (c < length (channels h))%nat).
      - by rewrite lookup_app_l.
      - rewrite lookup_app_r by lia. rewrite (lookup_ge_None_2 (channels h)) by lia.
        by destruct (c - length (channels h))%nat. }
    split; [|split; [|split]].
    + exact Hn.
    + intros c i. rewrite Hsame. apply Hc.
    + exact Hdn.
    + intros c. rewrite Hsame. apply Hdc.
  - unfold exec in Hex.
    destruct (decide (nd < length (nodes h) ∧ ch < length (channels h))%nat) as [[Hnd Hch]|];
      [|discriminate].
    rewrite Interface_init_heap in Hex. inversion Hex; subst h'; clear Hex.
    destruct (lookup_lt_is_Some_2 _ _ Hnd) as [nd0 Hnd0].
    destruct (lookup_lt_is_Some_2 _ _ Hch) as [ch0 Hch0].
    set (new := mkInterface nd _ ch _).
    assert (Hnode : ∀ n, interfaces_of_node
        (mkHeap (alter (set_node_interfaces (interfaces_of_node h nd ++ [length (interfaces h)]))
                   nd (nodes h))
                (alter (set_channel_interfaces
                          (interfaces_of_channel h ch ++ [length (interfaces h)])) ch
                   (channels h))
                (interfaces h ++ [new])) n
      = if decide (n = nd) then interfaces_of_node h nd ++ [length (interfaces h)]
        else interfaces_of_node h n).
    { intros n. rewrite interfaces_of_node_alter. rewrite Hnd0. done. }
    assert (Hchan : ∀ c, interfaces_of_channel
        (mkHeap (alter (set_node_interfaces (interfaces_of_node h nd ++ [length (interfaces h)]))
                   nd (nodes h))
                (alter (set_channel_interfaces
                          (interfaces_of_channel h ch ++ [length (interfaces h)])) ch
                   (channels h))
                (interfaces h ++ [new])) c
      = if decide (c = ch) then interfaces_of_channel h ch ++ [length (interfaces h)]
        else interfaces_of_channel h c).
    { intros c. rewrite interfaces_of_channel_alter. rewrite Hch0. done. }
    assert (Hlook : ∀ (f : Interface → nat) i x,
      f <$> (interfaces h ++ [new]) !! i = Some x ↔
      f <$> interfaces h !! i = Some x ∨ (i = length (interfaces h) ∧ x = f new)).
    { intros f i x. rewrite !fmap_Some. split.
      - intros (y & Hy & ->). apply lookup_snoc_Some in Hy as [Hy|[-> ->]]; [|by right].
        left. by exists y.
      - intros [(y & Hy & ->)|[-> ->]].
        + exists y. split; [|done]. apply lookup_snoc_Some. by left.
        + exists new. split; [|done]. apply lookup_snoc_Some. by right. }
    split; [|split; [|split]].
    + intros n i. rewrite Hnode. cbn [interfaces]. rewrite Hlook.
      change (node new) with nd.
      destruct (decide (n = nd)) as [->|Hne].
      * rewrite elem_of_app, list_elem_of_singleton, Hn. intuition congruence.
      * rewrite Hn. intuition congruence.
    + intros c i. rewrite Hchan. cbn [interfaces]. rewrite Hlook.
      change (channel new) with ch.
      destruct (decide (c = ch)) as [->|Hne].
      * rewrite elem_of_app, list_elem_of_singleton, Hc. intuition congruence.
      * rewrite Hc. intuition congruence.
    + intros n. rewrite Hnode. destruct (decide (n = nd)) as [->|Hne]; [|apply Hdn].
      apply NoDup_app. split; [apply Hdn|]. split; [|apply NoDup_singleton].
      intros i Hi ->%list_elem_of_singleton. apply Hbn in Hi. lia.
    + intros c. rewrite Hchan. destruct (decide (c = ch)) as [->|Hne]; [|apply Hdc].
      apply NoDup_app. split; [apply Hdc|]. split; [|apply NoDup_singleton].
      intros i Hi ->%list_elem_of_singleton. apply Hbc in Hi. lia.
Qed.

Lemma build_from_links_ok ops h h' :
  build_from h ops = Some h' → links_ok h → links_ok h'.
Proof.
  revert h. induction ops as [|o ops IH]; intros h Hb Hl; simpl in Hb.
  - by inversion Hb; subst.
  - destruct (exec o h) as [h1|] eqn:E; simpl in Hb; [|discriminate].
    eapply IH; [exact Hb|]. by eapply exec_links_ok.
Qed.

Lemma links_ok_empty : links_ok empty_heap.
Proof.
  split; [|split; [|split]].
  - intros n i. unfold interfaces_of_node. cbn. rewrite lookup_nil. cbn.
    rewrite elem_of_nil. split; [done|by intros [=]].
  - intros c i. unfold interfaces_of_channel. cbn. rewrite lookup_nil. cbn.
    rewrite elem_of_nil. split; [done|by intros [=]].
  - intros n. unfold interfaces_of_node. cbn. rewrite lookup_nil. apply NoDup_nil_2.
  - intros c. unfold interfaces_of_channel. cbn. rewrite lookup_nil. apply NoDup_nil_2.
Qed.

(** X: however the constructors are called, the interface list of a
    node holds exactly the interfaces whose [node] is that node, the
    interface list of a channel exactly those whose [channel] is that
    channel, and no list holds an interface twice. *)
Theorem interface_backlinks ops h :
  build ops = Some h →
  (∀ n i, i ∈ interfaces_of_node h n ↔ node <$> interfaces h !! i = Some n) ∧
  (∀ c i, i ∈ interfaces_of_channel h c ↔ channel <$> interfaces h !! i = Some c) ∧
  (∀ n, NoDup (interfaces_of_node h n)) ∧
  (∀ c, NoDup (interfaces_of_channel h c)).
Proof.
  intros Hb. eapply (build_from_links_ok ops empty_heap h Hb), links_ok_empty.
Qed.

Lemma interface_backlinks_witness :
  ∃ h, build clash_script = Some h ∧
    (∀ n i, i ∈ interfaces_of_node h n ↔ node <$> interfaces h !! i = Some n) ∧
    (∀ c i, i ∈ interfaces_of_channel h c ↔ channel <$> interfaces h !! i = Some c) ∧
    (∀ n, NoDup (interfaces_of_node h n)) ∧
    (∀ c, NoDup (interfaces_of_channel h c)).
Proof.
  eexists. split; [vm_compute; reflexivity|].
  apply (interface_backlinks clash_script). vm_compute. reflexivity.
Defined.

(** * Addresses that the block does not have *)

Lemma result_mapM_raise {A B} (f : A → result B) l x :
  (∀ y e, f y = Raise e → e = IndexError) →
  x ∈ l → f x = Raise IndexError →
  result_mapM f l = Raise IndexError.
Proof.
  intros Hall Hx Hfx. induction l as [|y l IH]; [by apply elem_of_nil in Hx|].
  simpl. apply elem_of_cons in Hx as [<-|Hx].
  - by rewrite Hfx.
  - destruct (f y) as [b|e] eqn:E; simpl.
    + by rewrite (IH Hx).
    + by rewrite (Hall _ _ E).
Qed.

Lemma Interface_get_ip_raises h i e : Interface_get_ip h i = Raise e → e = IndexError.
Proof.
  unfold Interface_get_ip, net_getitem.
  destruct (interfaces h !! i) as [itf|]; [|by inversion 1].
  destruct (channels h !! channel itf) as [c|]; [|by inversion 1].
  destruct (decide _); simpl; by inversion 1.
Qed.

(** X: an interface whose position in its channel is past the last
    address of the block has no address: [get_ip] raises [IndexError],
    and so do [dump] and [get_ips] of the node that has the interface. *)
Theorem address_out_of_range ops h c ch k i n :
  build ops = Some h →
  channels h !! c = Some ch →
  channel_interfaces ch !! k = Some i →
  broadcast_address (network ch) < network_address (network ch) + Z.of_nat (k + 1) →
  Interface_get_ip h i = Raise IndexError ∧
  (i ∈ interfaces_of_node h n →
   Node_dump h n = Raise IndexError ∧ Node_get_ips h n = Raise IndexError).
Proof.
  intros Hb Hc Hk Hout.
  assert (Hm : channel_members_ok h).
  { eapply build_from_channel_members_ok; [exact Hb|].
    intros c0 ch0 k0 i0 H. cbn [empty_heap channels] in H. by rewrite lookup_nil in H. }
  destruct (Hm c ch k i Hc Hk) as (itf & Hi & Hci & Hoff).
  assert (Hip : Interface_get_ip h i = Raise IndexError).
  { unfold Interface_get_ip. rewrite Hi, Hci, Hc, Hoff. unfold net_getitem.
    rewrite decide_True by lia. done. }
  split; [done|]. intros Hin. split.
  - unfold Node_dump.
    rewrite (result_mapM_raise (Interface_dump h) _ i); [done| |done|].
    + intros y e. unfold Interface_dump.
      destruct (Interface_get_ip h y) as [[a p]|e'] eqn:E; simpl; [done|].
      intros [= <-]. by eapply Interface_get_ip_raises.
    + unfold Interface_dump. by rewrite Hip.
  - unfold Node_get_ips.
    rewrite (result_mapM_raise _ _ i); [done| |done|].
    + intros y e.
      destruct (Interface_get_ip h y) as [[a p]|e'] eqn:E; simpl; [done|].
      intros [= <-]. by eapply Interface_get_ip_raises.
    + by rewrite Hip.
Qed.

Lemma address_out_of_range_witness :
  ∃ h, build narrow_script = Some h ∧
       Interface_get_ip h 1 = Raise IndexError ∧
       (1%nat ∈ interfaces_of_node h 1 →
        Node_dump h 1 = Raise IndexError ∧ Node_get_ips h 1 = Raise IndexError).
Proof.
  eexists. split; [vm_compute; reflexivity|].
  eapply (address_out_of_range narrow_script _ 0%nat _ 1%nat 1%nat 1%nat).
  - vm_compute. reflexivity.
  - vm_compute. reflexivity.
  - vm_compute. reflexivity.
  - vm_compute. reflexivity.
Defined.

(** * The channels of a topology *)

Lemma collect_channels_spec h ifs chans :
  NoDup chans →
  let res := foldl (λ chans interface,
                      match interfaces h !! interface with
                      | Some i => if decide (channel i ∈ chans) then chans
                                  else chans ++ [channel i]
                      | None => chans
                      end) chans ifs in
  NoDup res ∧
  ∀ c, c ∈ res ↔ c ∈ chans ∨ ∃ i itf, i ∈ ifs ∧ interfaces h !! i = Some itf ∧ channel itf = c.
Proof.
  revert chans. induction ifs as [|i ifs IH]; intros chans Hnd; cbn [foldl].
  - split; [done|]. intros c. split; [by left|].
    intros [H|(i & itf & Hi & _)]; [done|]. by apply elem_of_nil in Hi.
  - set (chans1 := match interfaces h !! i with
                   | Some i0 => if decide (channel i0 ∈ chans) then chans
                                else chans ++ [channel i0]
                   | None => chans end).
    assert (Hnd1 : NoDup chans1).
    { subst chans1. destruct (interfaces h !! i) as [itf|]; [|done].
      destruct (decide _) as [|Hnin]; [done|].
      apply NoDup_app. split; [done|]. split; [|apply NoDup_singleton].
      by intros x Hx ->%list_elem_of_singleton. }
    assert (H1 : ∀ c, c ∈ chans1 ↔
                      c ∈ chans ∨ ∃ itf, interfaces h !! i = Some itf ∧ channel itf = c).
    { intros c. subst chans1. destruct (interfaces h !! i) as [itf|].
      - destruct (decide _) as [Hin|Hnin].
        + split; [by left|]. intros [H|(itf' & [= <-] & <-)]; done.
        + rewrite elem_of_app, list_elem_of_singleton. split.
          * intros [H| ->]; [by left|right]. by exists itf.
          * intros [H|(itf' & [= <-] & <-)]; [by left|by right].
      - split; [by left|]. by intros [H|(itf' & [=] & _)]. }
    destruct (IH chans1 Hnd1) as [Hres Hmem]. split; [exact Hres|].
    intros c. rewrite Hmem, H1. split.
    + intros [[H|(itf & Hi & Hc)]|(j & itf & Hj & Hl & Hc)].
      * by left.
      * right. exists i, itf. split; [apply list_elem_of_here|done].
      * right. exists j, itf. split; [by apply list_elem_of_further|done].
    + intros [H|(j & itf & Hj & Hl & Hc)]; [by left; left|].
      apply elem_of_cons in Hj as [->|Hj].
      * left; right. by exists itf.
      * right. by exists j, itf.
Qed.

Lemma collect_nodes_spec h nds chans :
  NoDup chans →
  let res := foldl (λ chans nd,
                      foldl (λ chans interface,
                               match interfaces h !! interface with
                               | Some i => if decide (channel i ∈ chans) then chans
                                           else chans ++ [channel i]
                               | None => chans
                               end) chans (interfaces_of_node h nd)) chans nds in
  NoDup res ∧ ∀ c, c ∈ res ↔ c ∈ chans ∨ ∃ n, n ∈ nds ∧ attached h n c.
Proof.
  revert chans. induction nds as [|nd nds IH]; intros chans Hnd; cbn [foldl].
  - split; [done|]. intros c. split; [by left|].
    intros [H|(n & Hn & _)]; [done|]. by apply elem_of_nil in Hn.
  - destruct (collect_channels_spec h (interfaces_of_node h nd) chans Hnd) as [Hnd1 H1].
    destruct (IH _ Hnd1) as [Hres Hmem]. split; [exact Hres|].
    intros c. rewrite Hmem, H1. unfold attached. split.
    + intros [[H|(i & itf & Hi & Hl & Hc)]|(n & Hn & Ha)].
      * by left.
      * right. exists nd. split; [apply list_elem_of_here|]. by exists i, itf.
      * right. exists n. split; [by apply list_elem_of_further|done].
    + intros [H|(n & Hn & Ha)]; [by left; left|].
      apply elem_of_cons in Hn as [->|Hn].
      * by left; right.
      * right. by exists n.
Qed.

Lemma Topology_get_channels_elem t h c :
  c ∈ Topology_get_channels t h ↔ ∃ n, n ∈ Topology_get_nodes t ∧ attached h n c.
Proof.
  destruct (collect_nodes_spec h (Topology_get_nodes t) [] (NoDup_nil_2)) as [_ Hmem].
  unfold Topology_get_channels. rewrite Hmem. rewrite elem_of_nil. intuition.
Qed.

(** X: [get_channels] lists every channel that some node of the
    topology has an interface on, each once, and nothing else. *)
Theorem get_channels_spec t h :
  NoDup (Topology_get_channels t h) ∧
  ∀ c, c ∈ Topology_get_channels t h ↔ ∃ n, n ∈ Topology_get_nodes t ∧ attached h n c.
Proof.
  destruct (collect_nodes_spec h (Topology_get_nodes t) [] (NoDup_nil_2)) as [Hnd Hmem].
  split; [exact Hnd|]. intros c. unfold Topology_get_channels. rewrite Hmem.
  rewrite elem_of_nil. intuition.
Qed.

(** * The traversal records shortest hop counts *)

Lemma neighbours_spec h c x :
  x ∈ neighbours h c ↔ ∃ o, o ∈ out_interfaces h c ∧ channel_of h o = Some x.
Proof. unfold neighbours. apply list_elem_of_omap. Qed.

Lemma graph_channel_of h h' o : graph h' = graph h → channel_of h' o = channel_of h o.
Proof. intros Hg. unfold channel_of. by rewrite (graph_interfaces _ _ Hg). Qed.

Lemma hops_graph h h' a n c : graph h' = graph h → hops h a n c → hops h' a n c.
Proof.
  intros Hg. induction 1 as [|n c x Hh IH Hx]; [constructor|].
  econstructor; [exact IH|]. by rewrite (graph_neighbours _ _ _ Hg).
Qed.

Lemma distance_graph h h' a c d : graph h' = graph h → distance h a c d → distance h' a c d.
Proof.
  intros Hg [Hh Hmin]. split; [by apply (hops_graph h)|].
  intros n Hn. apply Hmin. by apply (hops_graph h').
Qed.

Lemma distance_unique h a c d d' : distance h a c d → distance h a c d' → d = d'.
Proof. intros [H1 M1] [H2 M2]. specialize (M1 _ H2). specialize (M2 _ H1). lia. Qed.

Lemma hops_0 h a c : hops h a 0 c → c = a.
Proof. by inversion 1. Qed.

(** ** One expansion *)

Lemma apply_log_cons e log h : apply_log (e :: log) h = apply_log log (append_route e.1 e.2 h).
Proof. done. Qed.

Lemma foldl_visit_news self d outs :
  ∀ st, ∃ news,
    foldl (visit self d) st outs
    = mkBfs (list_to_set news.*1 ∪ known st) (queue st ++ news_queue d news)
            (apply_log (news_log self d news) (heap st)) ∧
    NoDup news.*1 ∧
    (∀ x o, (x, o) ∈ news →
            ¬ (x ∈ known st) ∧ channel_of (heap st) o = Some x ∧ o ∈ outs) ∧
    (∀ o x, o ∈ outs → channel_of (heap st) o = Some x → x ∈ known st ∨ x ∈ news.*1).
Proof.
  induction outs as [|o outs IH]; intros st.
  - exists []. cbn [foldl]. split; [|split; [constructor|split]].
    + destruct st as [K q g]. unfold news_queue, news_log, apply_log.
      cbn [fmap list_fmap fst foldl list_to_set known queue heap].
      rewrite app_nil_r. f_equal. apply leibniz_equiv. intros x.
      rewrite elem_of_union, elem_of_empty. tauto.
    + intros x o' H. by apply elem_of_nil in H.
    + intros o' x H. by apply elem_of_nil in H.
  - cbn [foldl]. destruct (channel_of (heap st) o) as [c|] eqn:Hc;
      [destruct (decide (c ∈ known st)) as [Hk|Hk]|].
    + rewrite visit_old by (intros c' Hc'; congruence).
      destruct (IH st) as (news & Heq & Hnd & Hnew & Hall).
      exists news. split; [done|]. split; [done|]. split.
      * intros x o' Hx. destruct (Hnew x o' Hx) as (? & ? & ?).
        split; [done|]. split; [done|]. by apply list_elem_of_further.
      * intros o' x Ho' Hx. apply elem_of_cons in Ho' as [->|Ho']; [|by eapply Hall].
        left. congruence.
    + rewrite (visit_new self d st o c Hc Hk).
      set (st1 := mkBfs _ _ _).
      destruct (IH st1) as (news & Heq & Hnd & Hnew & Hall).
      exists ((c, o) :: news). split; [|split; [|split]].
      * rewrite Heq. subst st1. cbn [known queue heap]. f_equal.
        -- apply leibniz_equiv. cbn [fmap list_fmap fst list_to_set].
           intros x. rewrite !elem_of_union, elem_of_singleton. tauto.
        -- by rewrite <- app_assoc.
      * cbn [fmap list_fmap fst]. apply NoDup_cons. split; [|done].
        intros Hin. apply list_elem_of_fmap in Hin as ([x o'] & -> & Hx).
        destruct (Hnew x o' Hx) as (Hnot & _). apply Hnot. subst st1. cbn [known].
        apply elem_of_union_l. by apply elem_of_singleton.
      * intros x o' Hx. apply elem_of_cons in Hx as [[= -> ->]|Hx].
        -- split; [done|]. split; [done|]. apply list_elem_of_here.
        -- destruct (Hnew x o' Hx) as (Hnot & Hch & Hin). subst st1. cbn [known heap] in *.
           split; [|split; [done|by apply list_elem_of_further]].
           intros Hx'. apply Hnot. by apply elem_of_union_r.
      * intros o' x Ho' Hx. cbn [fmap list_fmap fst].
        apply elem_of_cons in Ho' as [->|Ho'].
        -- right. rewrite Hc in Hx. inversion Hx; subst. apply list_elem_of_here.
        -- destruct (Hall o' x Ho') as [Hx'|Hx']; [done| |].
           ++ subst st1. cbn [known] in Hx'.
              apply elem_of_union in Hx' as [->%elem_of_singleton|Hx'].
              ** right. apply list_elem_of_here.
              ** by left.
           ++ right. by apply list_elem_of_further.
    + rewrite visit_old by (intros c' Hc'; congruence).
      destruct (IH st) as (news & Heq & Hnd & Hnew & Hall).
      exists news. split; [done|]. split; [done|]. split.
      * intros x o' Hx. destruct (Hnew x o' Hx) as (? & ? & ?).
        split; [done|]. split; [done|]. by apply list_elem_of_further.
      * intros o' x Ho' Hx. apply elem_of_cons in Ho' as [->|Ho']; [|by eapply Hall].
        congruence.
Qed.

Lemma news_queue_fst d news : (news_queue d news).*1 = news.*1.
Proof. unfold news_queue. rewrite <- list_fmap_compose. done. Qed.

Lemma news_log_fst self d news : (news_log self d news).*1 = news.*1.
Proof. unfold news_log. rewrite <- list_fmap_compose. done. Qed.

Lemma elem_of_news_queue d news c d' :
  (c, d') ∈ news_queue d news ↔ d' = (d + 1)%nat ∧ c ∈ news.*1.
Proof.
  unfold news_queue. rewrite !list_elem_of_fmap. split.
  - intros ([x o] & [= -> ->] & Hx). split; [done|]. by exists (x, o).
  - intros [-> ([x o] & -> & Hx)]. by exists (x, o).
Qed.

Lemma elem_of_news_log self d news c s gw d' :
  (c, (s, gw, d')) ∈ news_log self d news ↔ s = self ∧ d' = (d + 1)%nat ∧ (c, gw) ∈ news.
Proof.
  unfold news_log. rewrite list_elem_of_fmap. split.
  - by intros ([x o] & [= -> -> -> ->] & Hx).
  - intros (-> & -> & Hx). by exists (c, gw).
Qed.

(** ** The invariant *)

Lemma bfs_inv_init h a : bfs_inv h a {[a]} [(a, 0%nat)] [].
Proof.
  split.
  - intros c. rewrite elem_of_singleton. cbn. rewrite elem_of_nil. tauto.
  - constructor.
  - cbn. intros H. by apply elem_of_nil in H.
  - intros c s gw d H. by apply elem_of_nil in H.
  - intros c d Hc. apply list_elem_of_singleton in Hc. inversion Hc; subst.
    split; [by apply elem_of_singleton|]. split; [constructor|]. intros n _. lia.
  - repeat constructor.
  - intros c Hc. left. apply elem_of_singleton in Hc as ->. cbn. apply list_elem_of_here.
  - intros c0 d0 rest [= <- <- <-] x n Hh Hn.
    assert (n = 0%nat) as -> by lia. apply hops_0 in Hh as ->. by apply elem_of_singleton.
Qed.

Lemma bfs_inv_step h a K c0 d0 rest L news :
  bfs_inv h a K ((c0, d0) :: rest) L →
  NoDup news.*1 →
  (∀ x o, (x, o) ∈ news → ¬ (x ∈ K) ∧ channel_of h o = Some x ∧ o ∈ out_interfaces h c0) →
  (∀ o x, o ∈ out_interfaces h c0 → channel_of h o = Some x → x ∈ K ∨ x ∈ news.*1) →
  bfs_inv h a (list_to_set news.*1 ∪ K) (rest ++ news_queue d0 news)
    (L ++ news_log a d0 news).
Proof.
  intros [Hknown Hnodup Hself Hlog Hqueue Hsorted Hdone Hfront] Hnd Hnew Hall.
  assert (Hhead : c0 ∈ K ∧ distance h a c0 d0) by (apply Hqueue, list_elem_of_here).
  destruct Hhead as [Hc0 Hd0].
  apply StronglySorted_cons in Hsorted as [Hrest Hsorted].
  rewrite Forall_forall in Hrest.
  assert (HnewK : ∀ x, x ∈ news.*1 → ¬ (x ∈ K)).
  { intros x Hx. apply list_elem_of_fmap in Hx as ([x' o] & -> & Hx).
    by destruct (Hnew x' o Hx) as (H & _). }
  assert (Hnewd : ∀ x, x ∈ news.*1 → distance h a x (d0 + 1)).
  { intros x Hx. pose proof (HnewK x Hx) as Hnot.
    apply list_elem_of_fmap in Hx as ([x' o] & -> & Hx). cbn [fst] in *.
    destruct (Hnew x' o Hx) as (_ & Hch & Ho). split.
    - rewrite Nat.add_1_r. econstructor; [apply Hd0|]. apply neighbours_spec. by exists o.
    - intros n Hn. destruct (decide (n ≤ d0)%nat) as [Hle|]; [|lia].
      exfalso. apply Hnot. by eapply (Hfront c0 d0 rest eq_refl x' n). }
  assert (Hq' : ∀ c d, (c, d) ∈ rest ++ news_queue d0 news →
                       c ∈ list_to_set news.*1 ∪ K ∧ distance h a c d ∧ (d0 ≤ d ≤ d0 + 1)%nat).
  { intros c d Hc. apply elem_of_app in Hc as [Hc|Hc].
    - destruct (Hqueue c d) as [? ?]; [by apply list_elem_of_further|].
      split; [by apply elem_of_union_r|]. split; [done|]. apply (Hrest _ Hc).
    - apply elem_of_news_queue in Hc as [-> Hc].
      split; [by apply elem_of_union_l, elem_of_list_to_set|].
      split; [by apply Hnewd|lia]. }
  assert (Hsorted' : StronglySorted (λ x y : nat * nat, (x.2 ≤ y.2 ≤ x.2 + 1)%nat)
                       (rest ++ news_queue d0 news)).
  { apply StronglySorted_app. split; [|split; [done|]].
    - intros [c1 d1] [c2 d2] H1 H2. cbn [snd].
      apply elem_of_news_queue in H2 as [-> _]. specialize (Hrest _ H1). cbn [snd] in Hrest. lia.
    - unfold news_queue. clear. induction news as [|x news IH]; [constructor|].
      cbn [fmap list_fmap]. constructor; [exact IH|].
      apply Forall_forall. intros [c d] Hc. apply elem_of_news_queue in Hc as [-> _].
      cbn [snd]. lia. }
  assert (Hdone' : ∀ c, c ∈ list_to_set news.*1 ∪ K →
                        c ∈ (rest ++ news_queue d0 news).*1 ∨
                        ∀ x, x ∈ neighbours h c → x ∈ list_to_set news.*1 ∪ K).
  { intros c Hc. rewrite fmap_app, news_queue_fst, elem_of_app.
    apply elem_of_union in Hc as [Hc|Hc].
    - left. right. by apply elem_of_list_to_set in Hc.
    - destruct (Hdone c Hc) as [Hin|Hcl].
      + cbn [fmap list_fmap fst] in Hin. apply elem_of_cons in Hin as [->|Hin]; [|by left; left].
        right. intros x Hx. apply neighbours_spec in Hx as (o & Ho & Hch).
        destruct (Hall o x Ho Hch) as [?|?].
        * by apply elem_of_union_r.
        * by apply elem_of_union_l, elem_of_list_to_set.
      + right. intros x Hx. apply elem_of_union_r. by apply Hcl. }
  split.
  - intros c. rewrite elem_of_union, elem_of_list_to_set, Hknown.
    rewrite fmap_app, news_log_fst, elem_of_app. tauto.
  - rewrite fmap_app, news_log_fst. apply NoDup_app. split; [done|]. split; [|done].
    intros x Hx Hx'. apply (HnewK x Hx'). apply Hknown. by right.
  - rewrite fmap_app, news_log_fst, elem_of_app. intros [?|Hx]; [done|].
    apply (HnewK a Hx). apply Hknown. by left.
  - intros c s gw d Hc. apply elem_of_app in Hc as [Hc|Hc]; [by apply Hlog|].
    apply elem_of_news_log in Hc as (-> & -> & Hc).
    destruct (Hnew c gw Hc) as (_ & Hch & Ho).
    split; [done|]. split; [done|]. split.
    + apply Hnewd. apply list_elem_of_fmap. by exists (c, gw).
    + exists c0, d0. split; [lia|done].
  - intros c d Hc. destruct (Hq' c d Hc) as (? & ? & _). done.
  - exact Hsorted'.
  - exact Hdone'.
  - intros c1 d1 rest' Heq x n Hh Hn.
    assert (H1 : (c1, d1) ∈ rest ++ news_queue d0 news) by (rewrite Heq; apply list_elem_of_here).
    destruct (Hq' c1 d1 H1) as (_ & _ & Hd1).
    destruct (decide (n ≤ d0)%nat) as [Hle|Hgt].
    { apply elem_of_union_r. by eapply (Hfront c0 d0 rest eq_refl x n). }
    assert (n = S d0) as -> by lia. assert (d1 = S d0) as -> by lia.
    inversion Hh as [|n' y x' Hy Hx]; subst.
    assert (HyK : y ∈ K) by (by eapply (Hfront c0 d0 rest eq_refl y d0)).
    destruct (Hdone' y) as [Hin|Hcl]; [by apply elem_of_union_r| |by apply Hcl].
    exfalso. apply list_elem_of_fmap in Hin as ([y' dy] & -> & Hin). cbn [fst] in *.
    destruct (Hq' y' dy Hin) as (_ & [_ Hmin] & _). specialize (Hmin _ Hy).
    rewrite Heq in Hsorted'. apply StronglySorted_cons in Hsorted' as [Hfa _].
    rewrite Heq in Hin. apply elem_of_cons in Hin as [[= -> ->]|Hin]; [lia|].
    rewrite Forall_forall in Hfa. specialize (Hfa _ Hin). cbn [snd] in Hfa. lia.
Qed.

Lemma bfs_inv_closed h a K L n x :
  bfs_inv h a K [] L → hops h a n x → x ∈ K.
Proof.
  intros Hinv. induction 1 as [|n c x Hh IH Hx].
  - apply (inv_known _ _ _ _ _ Hinv). by left.
  - destruct (inv_done _ _ _ _ _ Hinv c IH) as [Hin|Hcl]; [|by apply Hcl].
    cbn in Hin. by apply elem_of_nil in Hin.
Qed.

(** ** The loop *)

Lemma distribute_route_loop_inv h a fuel :
  wf_heap h →
  ∀ K q L base,
    bfs_inv h a K q L →
    (∀ c, c ∈ K → (c < length (channels h))%nat ∨ c = a) →
    (length q + base = size K)%nat →
    (length (channels h) + 2 ≤ fuel + base)%nat →
    ∃ K' L',
      distribute_route_loop fuel a (mkBfs K q (apply_log L h)) = Some (apply_log L' h) ∧
      bfs_inv h a K' [] L'.
Proof.
  intros Hwf. induction fuel as [|fuel IH]; intros K q L base Hinv Hbound Hbal Hfuel.
  - pose proof (known_size_bound K (length (channels h)) a Hbound). lia.
  - cbn [distribute_route_loop queue].
    destruct q as [|[c0 d0] rest]; [by exists K, L|].
    cbn [known heap]. rewrite expand_flat. cbn [heap].
    rewrite (graph_out_interfaces h) by apply graph_apply_log.
    destruct (foldl_visit_news a d0 (out_interfaces h c0) (mkBfs K rest (apply_log L h)))
      as (news & Heq & Hnd & Hnew & Hall).
    rewrite Heq. cbn [known queue heap] in *. rewrite <- apply_log_app.
    assert (Hch : ∀ o, channel_of (apply_log L h) o = channel_of h o).
    { intros o. apply graph_channel_of, graph_apply_log. }
    assert (Hnew' : ∀ x o, (x, o) ∈ news →
              ¬ (x ∈ K) ∧ channel_of h o = Some x ∧ o ∈ out_interfaces h c0).
    { intros x o Hx. destruct (Hnew x o Hx) as (? & ? & ?). by rewrite Hch in *. }
    assert (Hdisj : list_to_set (C := gset nat) news.*1 ## K).
    { intros x Hx HK. apply elem_of_list_to_set in Hx.
      apply list_elem_of_fmap in Hx as ([x' o] & -> & Hx).
      by destruct (Hnew' x' o Hx) as (H & _). }
    apply (IH _ _ _ (S base)).
    + apply (bfs_inv_step h a K c0 d0 rest L news); [done..|]. intros o x Ho Hx. apply (Hall o x Ho). by rewrite Hch.
    + intros c Hc. apply elem_of_union in Hc as [Hc|Hc]; [|by apply Hbound].
      left. apply elem_of_list_to_set in Hc.
      apply list_elem_of_fmap in Hc as ([x' o] & -> & Hx). cbn [fst].
      destruct (Hnew' x' o Hx) as (_ & Hco & _). unfold channel_of in Hco.
      destruct (interfaces h !! o) as [i|] eqn:Hi; [|done]. inversion Hco; subst.
      unfold wf_heap in Hwf. rewrite Forall_forall in Hwf.
      apply Hwf. by eapply list_elem_of_lookup_2.
    + rewrite size_union by done. rewrite size_list_to_set by done.
      rewrite length_app. unfold news_queue. rewrite !length_fmap. cbn [length] in Hbal. lia.
    + lia.
Qed.

Lemma filter_fst_unique {B} (L : list (nat * B)) c r :
  NoDup L.*1 → (c, r) ∈ L → filter (λ e : nat * B, e.1 = c) L = [(c, r)].
Proof.
  intros Hnd Hc. induction L as [|e L IH]; [by apply elem_of_nil in Hc|].
  cbn [fmap list_fmap] in Hnd. apply NoDup_cons in Hnd as [Hne Hnd].
  apply elem_of_cons in Hc as [<-|Hc].
  - rewrite filter_cons_True by done. f_equal.
    apply filter_none. apply Forall_forall. intros e He Heq. apply Hne.
    cbn [fst] in *. rewrite <- Heq. by apply list_elem_of_fmap_2.
  - rewrite filter_cons_False; [by apply IH|].
    intros Heq. apply Hne. rewrite Heq. by apply (list_elem_of_fmap_2 fst) in Hc.
Qed.

(** A traversal from [a] ends, with a log for which the invariant holds
    with an empty queue. *)
Lemma Channel_distribute_route_inv h a :
  wf_heap h →
  ∃ K' L',
    Channel_distribute_route a h = Some (apply_log L' h) ∧ bfs_inv h a K' [] L'.
Proof.
  intros Hwf. unfold Channel_distribute_route.
  destruct (distribute_route_loop_inv h a (length (channels h) + 2) Hwf
              {[a]} [(a, 0%nat)] [] 0%nat) as (K' & L' & Hrun & Hinv).
  { apply bfs_inv_init. }
  { intros c ->%elem_of_singleton. by right. }
  { by rewrite size_singleton. }
  { lia. }
  by exists K', L'.
Qed.

Lemma channel_of_valid h o c :
  wf_heap h → channel_of h o = Some c → (c < length (channels h))%nat.
Proof.
  intros Hwf Hch. unfold channel_of in Hch.
  destruct (interfaces h !! o) as [i|] eqn:Hi; [|done]. inversion Hch; subst.
  unfold wf_heap in Hwf. rewrite Forall_forall in Hwf.
  apply Hwf. by eapply list_elem_of_lookup_2.
Qed.

(** What a traversal from [a] appends, channel by channel. *)
Lemma Channel_distribute_route_spec h a :
  wf_heap h →
  ∃ h',
    Channel_distribute_route a h = Some h' ∧ graph h' = graph h ∧
    routes_of h' a = routes_of h a ∧
    (∀ c n, c ≠ a → hops h a n c →
       ∃ gw d c',
         distance h a c (S d) ∧ distance h a c' d ∧
         channel_of h gw = Some c ∧ gw ∈ out_interfaces h c' ∧
         routes_of h' c = routes_of h c ++ [(a, gw, S d)]) ∧
    (∀ c, (∀ n, ¬ hops h a n c) → routes_of h' c = routes_of h c).
Proof.
  intros Hwf. destruct (Channel_distribute_route_inv h a Hwf) as (K' & L' & Hrun & Hinv).
  exists (apply_log L' h).
  split; [exact Hrun|]. split; [apply graph_apply_log|].
  assert (Hnone : ∀ c, ¬ (c ∈ L'.*1) → routes_of (apply_log L' h) c = routes_of h c).
  { intros c Hc. rewrite routes_of_apply_log.
    rewrite (filter_none (λ e : nat * RouteRecord, e.1 = c)).
    - destruct (decide _); by rewrite app_nil_r.
    - apply Forall_forall. intros e He Heq. apply Hc. rewrite <- Heq.
      by apply list_elem_of_fmap_2. }
  split; [apply Hnone, (inv_self _ _ _ _ _ Hinv)|]. split.
  - intros c n Hne Hh.
    pose proof (bfs_inv_closed _ _ _ _ _ _ Hinv Hh) as HcK.
    apply (inv_known _ _ _ _ _ Hinv) in HcK as [?|Hc]; [done|].
    apply list_elem_of_fmap in Hc as ([c1 [[s gw] d]] & -> & Hc). cbn [fst] in *.
    destruct (inv_log _ _ _ _ _ Hinv _ _ _ _ Hc)
      as (-> & Hch & Hdist & c' & d' & -> & Hd' & Hgw).
    exists gw, d', c'. do 4 (split; [done|]).
    rewrite routes_of_apply_log.
    rewrite decide_True by (by eapply channel_of_valid). f_equal.
    by rewrite (filter_fst_unique L' c1 (a, gw, S d') (inv_nodup _ _ _ _ _ Hinv) Hc).
  - intros c Hun. apply Hnone. intros Hc.
    apply list_elem_of_fmap in Hc as ([c1 [[s gw] d]] & -> & Hc). cbn [fst] in *.
    destruct (inv_log _ _ _ _ _ Hinv _ _ _ _ Hc) as (_ & _ & [Hh _] & _).
    by apply (Hun d).
Qed.

(** Every record that a traversal from [a] appends is one of origin [a],
    stored in another channel, with the least number of hops. *)
Lemma Channel_distribute_route_sound h a h' c r :
  wf_heap h → Channel_distribute_route a h = Some h' →
  r ∈ routes_of h' c →
  r ∈ routes_of h c ∨ (r.1.1 = a ∧ c ≠ a ∧ distance h a c r.2).
Proof.
  intros Hwf Hrun Hr.
  destruct (Channel_distribute_route_inv h a Hwf) as (K' & L' & Hrun' & Hinv).
  rewrite Hrun in Hrun'. inversion Hrun'; subst h'; clear Hrun'.
  rewrite routes_of_apply_log in Hr. apply elem_of_app in Hr as [Hr|Hr]; [by left|right].
  destruct (decide _); [|by apply elem_of_nil in Hr].
  apply list_elem_of_fmap in Hr as ([c1 [[s gw] d]] & -> & He).
  apply list_elem_of_filter in He as [Hc He]. cbn [fst snd] in *. subst c1.
  destruct (inv_log _ _ _ _ _ Hinv _ _ _ _ He) as (-> & _ & Hd & _).
  split; [done|]. split; [|done]. intros ->.
  apply (inv_self _ _ _ _ _ Hinv). by apply (list_elem_of_fmap_2 fst) in He.
Qed.

Lemma distances_from_snoc h h' o c r :
  routes_of h' c = routes_of h c ++ [r] →
  distances_from h' o c
  = distances_from h o c ++ (if decide (r.1.1 = o) then [r.2] else []).
Proof.
  intros Hr. unfold distances_from. rewrite Hr, filter_app, fmap_app. f_equal.
  rewrite filter_cons, filter_nil. by destruct (decide _).
Qed.

Lemma distances_from_same h h' o c :
  routes_of h' c = routes_of h c → distances_from h' o c = distances_from h o c.
Proof. intros Hr. unfold distances_from. by rewrite Hr. Qed.

(** One traversal for every channel of an enumeration. *)
Lemma distribute_routes_in_spec order :
  ∀ h, NoDup order → wf_heap h →
  ∃ h',
    distribute_routes_in order h = Some h' ∧ graph h' = graph h ∧
    ∀ a c,
      (a ∈ order → c ≠ a → ∀ n, hops h a n c →
       ∃ d, distance h a c d ∧ distances_from h' a c = distances_from h a c ++ [d]) ∧
      (¬ (a ∈ order) ∨ c = a ∨ (∀ n, ¬ hops h a n c) →
       distances_from h' a c = distances_from h a c) ∧
      (∀ d, d ∈ distances_from h' a c →
            d ∈ distances_from h a c ∨ (a ∈ order ∧ c ≠ a ∧ distance h a c d)).
Proof.
  induction order as [|s order IH]; intros h Hnd Hwf.
  - exists h. split; [done|]. split; [done|]. intros a c. split; [|split; [done|by left]].
    intros Ha. by apply elem_of_nil in Ha.
  - apply NoDup_cons in Hnd as [Hs Hnd].
    destruct (Channel_distribute_route_spec h s Hwf) as (h1 & Hrun & Hg1 & Hself & Hreach & Hun).
    pose proof (graph_wf_heap _ _ Hg1 Hwf) as Hwf1.
    destruct (IH h1 Hnd Hwf1) as (h' & Hrest & Hg' & Hspec).
    exists h'. cbn [distribute_routes_in]. rewrite Hrun. split; [exact Hrest|].
    split; [congruence|]. intros a c.
    assert (Hother : a ≠ s → distances_from h1 a c = distances_from h a c).
    { intros Hne. destruct (run_other s a h Hwf (not_eq_sym Hne)) as (h1' & Hrun' & _ & Hd).
      rewrite Hrun in Hrun'. inversion Hrun'; subst h1'. apply Hd. }
    assert (Hhops : ∀ n, hops h1 a n c ↔ hops h a n c).
    { intros n. split; apply hops_graph; [done|by symmetry]. }
    destruct (Hspec a c) as (Hin & Hout & Hsound). split; [|split].
    + intros Ha Hne n Hh. apply elem_of_cons in Ha as [->|Ha].
      * destruct (Hreach c n Hne Hh) as (gw & d & c' & Hd & _ & _ & _ & Hr).
        exists (S d). split; [done|].
        rewrite Hout by (by left).
        rewrite (distances_from_snoc h h1 s c _ Hr). cbn [fst snd].
        by rewrite decide_True.
      * destruct (Hin Ha Hne n) as (d & Hd & Heq); [by apply Hhops|].
        exists d. split; [by apply (distance_graph h1)|].
        rewrite Heq, Hother; [done|]. by intros ->.
    + intros Hcase. destruct (decide (a = s)) as [->|Hne].
      * rewrite Hout by (by left). apply distances_from_same.
        destruct Hcase as [Hnot|[->|Hno]].
        -- exfalso. apply Hnot, list_elem_of_here.
        -- exact Hself.
        -- by apply Hun.
      * rewrite Hout, Hother; [done..|].
        destruct Hcase as [Hnot|[->|Hno]].
        -- left. intros Ha. apply Hnot. by apply list_elem_of_further.
        -- by right; left.
        -- right; right. intros n Hh. apply (Hno n). by apply Hhops.
    + intros d Hd. destruct (Hsound d Hd) as [Hd1|(Ha & Hne & Hdist)].
      * destruct (decide (a = s)) as [->|Hne]; [|left; by rewrite <- Hother].
        unfold distances_from in Hd1.
        apply list_elem_of_fmap in Hd1 as (r & -> & Hr).
        apply list_elem_of_filter in Hr as [Ho Hr].
        destruct (Channel_distribute_route_sound h s h1 c r Hwf Hrun Hr)
          as [Hold|(_ & Hne & Hdist)].
        -- left. unfold distances_from. apply list_elem_of_fmap_2.
           by apply list_elem_of_filter.
        -- right. split; [apply list_elem_of_here|done].
      * right. split; [by apply list_elem_of_further|]. split; [done|].
        by apply (distance_graph h1).
Qed.

Lemma chain5_wf : wf_heap (heap_of chain5).
Proof. apply (bool_decide_unpack _). vm_compute. exact I. Qed.

Lemma chain5_fresh : no_routes (heap_of chain5).
Proof. apply (bool_decide_unpack _). vm_compute. exact I. Qed.

(** X: one call of [distribute_route] on channel [a] terminates and
    changes nothing but the route lists.  It leaves the list of [a]
    itself and of every channel out of reach as they are, and appends to
    every other channel [c] exactly one record: its distance is the least
    number of hops from [a] to [c], and its gateway is an interface on
    [c] of a node that is also on a channel one hop nearer to [a]. *)
Theorem distribute_route_shortest h a :
  wf_heap h →
  ∃ h',
    Channel_distribute_route a h = Some h' ∧ graph h' = graph h ∧
    routes_of h' a = routes_of h a ∧
    (∀ c n, c ≠ a → hops h a n c →
       ∃ gw d c',
         distance h a c (S d) ∧ distance h a c' d ∧
         channel_of h gw = Some c ∧ gw ∈ out_interfaces h c' ∧
         routes_of h' c = routes_of h c ++ [(a, gw, S d)]) ∧
    (∀ c, (∀ n, ¬ hops h a n c) → routes_of h' c = routes_of h c).
Proof. apply Channel_distribute_route_spec. Qed.

Lemma distribute_route_shortest_witness :
  ∃ h',
    Channel_distribute_route 0 (heap_of chain5) = Some h' ∧
    graph h' = graph (heap_of chain5) ∧
    routes_of h' 0 = routes_of (heap_of chain5) 0 ∧
    (∀ c n, c ≠ 0%nat → hops (heap_of chain5) 0 n c →
       ∃ gw d c',
         distance (heap_of chain5) 0 c (S d) ∧ distance (heap_of chain5) 0 c' d ∧
         channel_of (heap_of chain5) gw = Some c ∧ gw ∈ out_interfaces (heap_of chain5) c' ∧
         routes_of h' c = routes_of (heap_of chain5) c ++ [(0%nat, gw, S d)]) ∧
    (∀ c, (∀ n, ¬ hops (heap_of chain5) 0 n c) → routes_of h' c = routes_of (heap_of chain5) c).
Proof. apply (distribute_route_shortest (heap_of chain5) 0), chain5_wf. Defined.

(** X: after [distribute_routes] on a fresh topology, a channel [c]
    holds exactly one record for every other channel [a] of the
    enumeration from which it can be reached, with the least number of
    hops from [a] to [c] as distance, and none for itself, for channels
    out of reach or for channels outside the enumeration. *)
Theorem distribute_routes_shortest order h :
  NoDup order → wf_heap h → no_routes h →
  ∃ h',
    distribute_routes_in order h = Some h' ∧ graph h' = graph h ∧
    ∀ a c,
      (a ∈ order → c ≠ a → ∀ n, hops h a n c →
       ∃ d, distance h a c d ∧ distances_from h' a c = [d]) ∧
      (¬ (a ∈ order) ∨ c = a ∨ (∀ n, ¬ hops h a n c) → distances_from h' a c = []).
Proof.
  intros Hnd Hwf Hno.
  destruct (distribute_routes_in_spec order h Hnd Hwf) as (h' & Hrun & Hg & Hspec).
  exists h'. split; [done|]. split; [done|]. intros a c.
  destruct (Hspec a c) as (Hin & Hout & _). split.
  - intros Ha Hne n Hh. destruct (Hin Ha Hne n Hh) as (d & Hd & Heq).
    exists d. split; [done|]. by rewrite Heq, (no_routes_distances _ _ _ Hno).
  - intros Hcase. by rewrite (Hout Hcase), (no_routes_distances _ _ _ Hno).
Qed.

Lemma distribute_routes_shortest_witness :
  ∃ h',
    distribute_routes_in [2; 0; 3; 1]%nat (heap_of chain5) = Some h' ∧
    graph h' = graph (heap_of chain5) ∧
    ∀ a c,
      (a ∈ [2; 0; 3; 1]%nat → c ≠ a → ∀ n, hops (heap_of chain5) a n c →
       ∃ d, distance (heap_of chain5) a c d ∧ distances_from h' a c = [d]) ∧
      (¬ (a ∈ [2; 0; 3; 1]%nat) ∨ c = a ∨ (∀ n, ¬ hops (heap_of chain5) a n c) →
       distances_from h' a c = []).
Proof.
  apply (distribute_routes_shortest [2; 0; 3; 1]%nat (heap_of chain5)).
  - apply (bool_decide_unpack _). vm_compute. exact I.
  - apply chain5_wf.
  - apply chain5_fresh.
Defined.

(** * The table of a node *)

Lemma dict_get_elem {V} k (v : V) d : dict_get Nat.eqb k d = Some v → (k, v) ∈ d.
Proof.
  induction d as [|[k' v'] d IH]; simpl; [done|].
  destruct (k' =? k)%nat eqn:E.
  - apply Nat.eqb_eq in E. intros [= ->]. subst. apply list_elem_of_here.
  - intros H. apply list_elem_of_further. by apply IH.
Qed.

Lemma dict_get_None {V} k (d : list (nat * V)) : dict_get Nat.eqb k d = None → ¬ (k ∈ d.*1).
Proof.
  induction d as [|[k' v'] d IH]; simpl.
  - intros _ H. by apply elem_of_nil in H.
  - destruct (k' =? k)%nat eqn:E; [done|]. apply Nat.eqb_neq in E.
    intros H Hin. apply elem_of_cons in Hin as [->|Hin]; [done|]. by apply IH.
Qed.

Lemma elem_of_dict_set {V} k (v : V) d e :
  e ∈ dict_set Nat.eqb k v d → e = (k, v) ∨ e ∈ d.
Proof.
  induction d as [|[k' v'] d IH]; simpl.
  - intros H%list_elem_of_singleton. by left.
  - destruct (k' =? k)%nat eqn:E.
    + apply Nat.eqb_eq in E. subst k'. intros H. apply elem_of_cons in H as [->|H].
      * by left.
      * right. by apply list_elem_of_further.
    + intros H. apply elem_of_cons in H as [->|H].
      * right. apply list_elem_of_here.
      * destruct (IH H) as [?|?]; [by left|right]. by apply list_elem_of_further.
Qed.

Lemma dict_set_keys {V} k (v : V) d :
  (dict_set Nat.eqb k v d).*1 = if decide (k ∈ d.*1) then d.*1 else d.*1 ++ [k].
Proof.
  induction d as [|[k' v'] d IH]; cbn [dict_set fmap list_fmap fst].
  - rewrite decide_False; [done|]. intros H. by apply elem_of_nil in H.
  - destruct (k' =? k)%nat eqn:E; cbn [fmap list_fmap fst].
    + apply Nat.eqb_eq in E. subst k'.
      rewrite decide_True; [done|]. apply list_elem_of_here.
    + apply Nat.eqb_neq in E. rewrite IH.
      destruct (decide (k ∈ d.*1)) as [Hin|Hnin].
      * rewrite decide_True; [done|]. by apply list_elem_of_further.
      * rewrite decide_False; [done|]. intros H. apply elem_of_cons in H as [->|H]; done.
Qed.

Lemma dict_set_NoDup {V} k (v : V) d : NoDup d.*1 → NoDup (dict_set Nat.eqb k v d).*1.
Proof.
  intros Hnd. rewrite dict_set_keys. destruct (decide _) as [|Hnin]; [done|].
  apply NoDup_app. split; [done|]. split; [|apply NoDup_singleton].
  by intros x Hx ->%list_elem_of_singleton.
Qed.

(** A table whose entries all come from records that the node reads. *)
Lemma update_route_sound (P : nat → RouteRecord → Prop) i tbl r :
  P i r →
  NoDup tbl.*1 ∧ (∀ o i' gw d, (o, (i', gw, d)) ∈ tbl → P i' (o, gw, d)) →
  NoDup (update_route i tbl r).*1 ∧
  (∀ o i' gw d, (o, (i', gw, d)) ∈ update_route i tbl r → P i' (o, gw, d)).
Proof.
  destruct r as [[o gw] d]. intros Hr [Hnd Hall]. unfold update_route.
  assert (Hset : NoDup (dict_set Nat.eqb o (i, gw, d) tbl).*1 ∧
                 ∀ o' i' gw' d', (o', (i', gw', d')) ∈ dict_set Nat.eqb o (i, gw, d) tbl →
                                 P i' (o', gw', d')).
  { split; [by apply dict_set_NoDup|]. intros o' i' gw' d' H.
    apply elem_of_dict_set in H as [[= -> -> -> ->]|H]; [done|by apply Hall]. }
  destruct (dict_get Nat.eqb o tbl) as [[[i0 gw0] d0]|]; [|done].
  by destruct (decide _).
Qed.

Lemma foldl_update_route_sound (P : nat → RouteRecord → Prop) i rs :
  ∀ tbl,
    Forall (P i) rs →
    NoDup tbl.*1 ∧ (∀ o i' gw d, (o, (i', gw, d)) ∈ tbl → P i' (o, gw, d)) →
    NoDup (foldl (update_route i) tbl rs).*1 ∧
    (∀ o i' gw d, (o, (i', gw, d)) ∈ foldl (update_route i) tbl rs → P i' (o, gw, d)).
Proof.
  induction rs as [|r rs IH]; intros tbl Hrs Ht; [done|].
  apply Forall_cons in Hrs as [Hr Hrs]. cbn [foldl]. apply IH; [done|].
  by apply update_route_sound.
Qed.

Lemma Node_get_routes_unfold h n :
  Node_get_routes h n
  = foldl (λ tbl interface, foldl (update_route interface) tbl (records_at h interface))
      [] (interfaces_of_node h n).
Proof. done. Qed.

Lemma Node_get_routes_spec h n :
  NoDup (Node_get_routes h n).*1 ∧
  (∀ o i gw d, (o, (i, gw, d)) ∈ Node_get_routes h n →
     i ∈ interfaces_of_node h n ∧ (o, gw, d) ∈ records_at h i) ∧
  (∀ i o gw d, i ∈ interfaces_of_node h n → (o, gw, d) ∈ records_at h i →
     ∃ i' gw' d', (o, (i', gw', d')) ∈ Node_get_routes h n ∧ (d' ≤ d)%nat).
Proof.
  rewrite Node_get_routes_unfold. generalize (interfaces_of_node h n). intros ifs.
  set (P := λ (i : nat) (r : RouteRecord), i ∈ ifs ∧ r ∈ records_at h i).
  assert (Hsound : ∀ l tbl,
    l ⊆ ifs →
    NoDup tbl.*1 ∧ (∀ o i' gw d, (o, (i', gw, d)) ∈ tbl → P i' (o, gw, d)) →
    NoDup (foldl (λ tbl i, foldl (update_route i) tbl (records_at h i)) tbl l).*1 ∧
    (∀ o i' gw d,
       (o, (i', gw, d)) ∈ foldl (λ tbl i, foldl (update_route i) tbl (records_at h i)) tbl l →
       P i' (o, gw, d))).
  { induction l as [|i l IH]; intros tbl Hl Ht; [done|]. cbn [foldl].
    apply IH; [intros x Hx; by apply Hl, list_elem_of_further|].
    apply foldl_update_route_sound; [|done].
    apply Forall_forall. intros r Hr. split; [|done]. apply Hl, list_elem_of_here. }
  assert (Hcomplete : ∀ l tbl i r,
    i ∈ l → r ∈ records_at h i →
    dominates (foldl (λ tbl i, foldl (update_route i) tbl (records_at h i)) tbl l) r).
  { induction l as [|j l IH]; intros tbl i r Hi Hr; [by apply elem_of_nil in Hi|].
    cbn [foldl]. apply elem_of_cons in Hi as [->|Hi]; [|by eapply IH].
    assert (Hd : dominates (foldl (update_route j) tbl (records_at h j)) r).
    { pose proof (foldl_update_route_dominates j tbl (records_at h j)) as H.
      rewrite Forall_forall in H. by apply H. }
    revert Hd. generalize (foldl (update_route j) tbl (records_at h j)). clear.
    induction l as [|k l IH]; intros t Hd; [done|]. cbn [foldl]. apply IH.
    by apply foldl_update_route_keeps. }
  destruct (Hsound ifs []) as [Hnd Hall]; [done| |].
  { split; [constructor|]. intros o i' gw d H. by apply elem_of_nil in H. }
  split; [exact Hnd|]. split; [exact Hall|].
  intros i o gw d Hi Hr. destruct (Hcomplete ifs [] i (o, gw, d) Hi Hr) as ([[i' gw'] d'] & Hget & Hle).
  exists i', gw', d'. split; [|exact Hle]. by apply dict_get_elem.
Qed.

(** X: the table of a node has one entry for every origin of which the
    node reads a record through one of its interfaces, and no other.
    The entry is one of those records, together with the interface it was
    read through, and no record of that origin that the node reads has a
    smaller distance. *)
Theorem get_routes_minimum h n :
  NoDup (Node_get_routes h n).*1 ∧
  (∀ o i gw d, (o, (i, gw, d)) ∈ Node_get_routes h n →
     i ∈ interfaces_of_node h n ∧ (o, gw, d) ∈ records_at h i) ∧
  (∀ i o gw d, i ∈ interfaces_of_node h n → (o, gw, d) ∈ records_at h i →
     ∃ i' gw' d', (o, (i', gw', d')) ∈ Node_get_routes h n ∧ (d' ≤ d)%nat).
Proof. apply Node_get_routes_spec. Qed.

(** * Tables after distribution *)

Lemma records_at_channel h i r :
  r ∈ records_at h i → ∃ c, channel_of h i = Some c ∧ r ∈ routes_of h c.
Proof.
  unfold records_at, channel_of. destruct (interfaces h !! i) as [itf|]; cbn.
  - intros Hr. by exists (channel itf).
  - intros Hr. by apply elem_of_nil in Hr.
Qed.

Lemma records_at_of_channel h i c r :
  channel_of h i = Some c → r ∈ routes_of h c → r ∈ records_at h i.
Proof.
  unfold records_at, channel_of. destruct (interfaces h !! i) as [itf|]; cbn; [|done].
  by intros [= ->].
Qed.

(** X: after [distribute_routes] on a fresh topology, the table of a
    node gives, for an origin channel [a], the least number of hops from
    [a] to one of the channels that the node is on (other than [a]
    itself), and names an interface of the node on a channel at that
    number of hops; it has an entry for [a] whenever one of those
    channels can be reached from [a]. *)
Theorem table_shortest order h n :
  NoDup order → wf_heap h → no_routes h →
  ∃ h',
    distribute_routes_in order h = Some h' ∧
    (∀ a i gw d, (a, (i, gw, d)) ∈ Node_get_routes h' n →
       ∃ c, i ∈ interfaces_of_node h n ∧ channel_of h i = Some c ∧
            a ∈ order ∧ c ≠ a ∧ distance h a c d) ∧
    (∀ a i c m,
       a ∈ order → i ∈ interfaces_of_node h n → channel_of h i = Some c →
       c ≠ a → hops h a m c →
       ∃ i' gw d, (a, (i', gw, d)) ∈ Node_get_routes h' n ∧ (d ≤ m)%nat).
Proof.
  intros Hnd Hwf Hno.
  destruct (distribute_routes_in_spec order h Hnd Hwf) as (h' & Hrun & Hg & Hspec).
  exists h'. split; [exact Hrun|].
  destruct (Node_get_routes_spec h' n) as (_ & Hsound & Hcomplete).
  split.
  - intros a i gw d He. destruct (Hsound a i gw d He) as [Hi Hr].
    rewrite (graph_interfaces_of_node _ _ Hg) in Hi.
    apply records_at_channel in Hr as (c & Hc & Hr).
    rewrite (graph_channel_of _ _ _ Hg) in Hc.
    exists c. split; [done|]. split; [done|].
    destruct (Hspec a c) as (_ & _ & Hs).
    assert (Hd : d ∈ distances_from h' a c).
    { unfold distances_from. apply (list_elem_of_fmap_2' _ _ (a, gw, d)); [|done].
      by apply list_elem_of_filter. }
    destruct (Hs d Hd) as [Hold|?]; [|done].
    rewrite (no_routes_distances _ _ _ Hno) in Hold. by apply elem_of_nil in Hold.
  - intros a i c m Ha Hi Hc Hne Hh.
    destruct (Hspec a c) as (Hin & _ & _).
    destruct (Hin Ha Hne m Hh) as (d & [_ Hmin] & Heq).
    rewrite (no_routes_distances _ _ _ Hno) in Heq. cbn [app] in Heq.
    assert (Hd : d ∈ distances_from h' a c) by (rewrite Heq; apply list_elem_of_here).
    unfold distances_from in Hd. apply list_elem_of_fmap in Hd as ([[o gw] d0] & -> & Hr).
    apply list_elem_of_filter in Hr as [Ho Hr]. cbn [fst snd] in *. subst o.
    destruct (Hcomplete i a gw d0) as (i' & gw' & d' & He & Hle).
    + by rewrite (graph_interfaces_of_node _ _ Hg).
    + apply (records_at_of_channel _ _ c); [|done]. by rewrite (graph_channel_of _ _ _ Hg).
    + exists i', gw', d'. split; [done|]. specialize (Hmin _ Hh). lia.
Qed.

Lemma table_shortest_witness :
  ∃ h',
    distribute_routes_in [2; 0; 3; 1]%nat (heap_of chain5) = Some h' ∧
    (∀ a i gw d, (a, (i, gw, d)) ∈ Node_get_routes h' 4 →
       ∃ c, i ∈ interfaces_of_node (heap_of chain5) 4 ∧
            channel_of (heap_of chain5) i = Some c ∧
            a ∈ [2; 0; 3; 1]%nat ∧ c ≠ a ∧ distance (heap_of chain5) a c d) ∧
    (∀ a i c m,
       a ∈ [2; 0; 3; 1]%nat → i ∈ interfaces_of_node (heap_of chain5) 4 →
       channel_of (heap_of chain5) i = Some c →
       c ≠ a → hops (heap_of chain5) a m c →
       ∃ i' gw d, (a, (i', gw, d)) ∈ Node_get_routes h' 4 ∧ (d ≤ m)%nat).
Proof.
  apply (table_shortest [2; 0; 3; 1]%nat (heap_of chain5) 4).
  - apply (bool_decide_unpack _). vm_compute. exact I.
  - apply chain5_wf.
  - apply chain5_fresh.
Defined.

(** * What aggregation keeps *)

Lemma inside_refl n : inside n n.
Proof. unfold inside. lia. Qed.

Lemma inside_trans a b c : inside a b → inside b c → inside a c.
Proof. unfold inside. lia. Qed.

Lemma half_of_double a m : 0 < m → a `mod` m = 0 → a `mod` (2 * m) ≤ m.
Proof.
  intros Hm Ha. apply Z.mod_divide in Ha as [k ->]; [|lia].
  rewrite (Z.mul_comm k m), (Z.mul_comm 2 m), Z.mul_mod_distr_l by lia.
  pose proof (Z.mod_pos_bound k 2 ltac:(lia)). nia.
Qed.

Lemma inside_supernet n : valid_network n → inside (supernet n) n.
Proof.
  intros Hv. destruct (decide (prefixlen n = 0%nat)) as [H0|H0].
  { unfold supernet. destruct (decide _); [apply inside_refl|done]. }
  pose proof (supernet_valid n Hv) as Hvs.
  unfold inside. rewrite (broadcast_of_valid _ Hv), (broadcast_of_valid _ Hvs).
  rewrite (supernet_eq n Hv H0). cbn [network_address prefixlen].
  apply valid_network_inv in Hv as (Hle & Hr & Hm).
  set (a := network_address n) in *. set (p := prefixlen n) in *.
  replace (32 - Z.of_nat (p - 1)) with (33 - Z.of_nat p) by lia.
  assert (Hpow : 2 ^ (33 - Z.of_nat p) = 2 * 2 ^ (32 - Z.of_nat p)).
  { rewrite <- Z.pow_succ_r by lia. f_equal. lia. }
  assert (Hpos : 0 < 2 ^ (32 - Z.of_nat p)) by (apply Z.pow_pos_nonneg; lia).
  pose proof (half_of_double a _ Hpos Hm) as Hhalf. rewrite <- Hpow in Hhalf.
  pose proof (Z.mod_pos_bound a (2 ^ (33 - Z.of_nat p)) ltac:(lia)). lia.
Qed.

(** ** The merge loop *)

Lemma merge_top_spec a below :
  valid_network a.1 → Forall (λ b : IPv4Network * RouteEntry, valid_network b.1) below →
  ∃ dropped rest t,
    below = dropped ++ rest ∧ merge_top a below = (t, a.2) :: rest ∧
    valid_network t ∧ inside t a.1 ∧
    Forall (λ b : IPv4Network * RouteEntry, inside t b.1) dropped.
Proof.
  revert a. induction below as [|b below IH]; intros a Ha Hb.
  - exists [], [], a.1. split; [done|]. destruct a as [k v]. cbn.
    split; [done|]. split; [done|]. split; [apply inside_refl|constructor].
  - apply Forall_cons in Hb as [Hb Hbelow]. cbn [merge_top].
    destruct (net_eqb (supernet a.1) (supernet b.1) && (a.2.1.2 =? b.2.1.2)%nat) eqn:E.
    + apply andb_true_iff in E as [E _].
      apply net_eqb_true in E; [|by apply supernet_valid..].
      destruct (IH (supernet a.1, a.2)) as (dropped & rest & t & -> & Hm & Ht & Hin & Hdr);
        [by apply supernet_valid|done|].
      cbn [fst snd] in *.
      exists (b :: dropped), rest, t. split; [done|]. split; [exact Hm|]. split; [done|].
      split; [eapply inside_trans; [exact Hin|by apply inside_supernet]|].
      constructor; [|done].
      eapply inside_trans; [exact Hin|]. rewrite E. by apply inside_supernet.
    + exists [], (b :: below), a.1. split; [done|]. destruct a as [k v]. cbn [fst snd].
      split; [done|]. split; [done|]. split; [apply inside_refl|constructor].
Qed.

(** The stack after the loop has run over [l]: every destination of [l]
    lies inside a block on the stack, and every block on the stack has
    the value of a destination of [l] that lies inside it. *)
Lemma foldl_merge_step_spec l :
  ∀ stack done,
    Forall (λ b : IPv4Network * RouteEntry, valid_network b.1) l →
    Forall (λ b : IPv4Network * RouteEntry, valid_network b.1) stack →
    (∀ e, e ∈ done → ∃ s, s ∈ stack ∧ inside s.1 e.1) →
    (∀ s, s ∈ stack → ∃ e, e ∈ done ∧ e.2 = s.2 ∧ inside s.1 e.1) →
    let stack' := foldl merge_step stack l in
    Forall (λ b : IPv4Network * RouteEntry, valid_network b.1) stack' ∧
    (∀ e, e ∈ done ++ l → ∃ s, s ∈ stack' ∧ inside s.1 e.1) ∧
    (∀ s, s ∈ stack' → ∃ e, e ∈ done ++ l ∧ e.2 = s.2 ∧ inside s.1 e.1).
Proof.
  induction l as [|x l IH]; intros stack done Hl Hst Hcov Hval; cbn [foldl].
  - rewrite app_nil_r. done.
  - apply Forall_cons in Hl as [Hx Hl].
    destruct (merge_top_spec x stack Hx Hst) as (dropped & rest & t & -> & Hm & Ht & Hin & Hdr).
    apply Forall_app in Hst as [Hvd Hvr]. rewrite Forall_forall in Hdr.
    specialize (IH (merge_step (dropped ++ rest) x) (done ++ [x]) Hl).
    unfold merge_step in *. rewrite Hm in *.
    rewrite <- (app_assoc done [x] l) in IH. cbn [app] in IH. apply IH.
    + constructor; done.
    + intros e He. apply elem_of_app in He as [He|He%list_elem_of_singleton].
      * destruct (Hcov e He) as (s & Hs & Hse). apply elem_of_app in Hs as [Hs|Hs].
        -- exists (t, x.2). split; [apply list_elem_of_here|]. cbn [fst].
           eapply inside_trans; [by apply Hdr|done].
        -- exists s. split; [by apply list_elem_of_further|done].
      * subst e. exists (t, x.2). split; [apply list_elem_of_here|done].
    + intros s Hs. apply elem_of_cons in Hs as [->|Hs].
      * exists x. split; [apply elem_of_app; right; apply list_elem_of_here|done].
      * destruct (Hval s) as (e & He & Hev & Hes); [apply elem_of_app; by right|].
        exists e. split; [apply elem_of_app; by left|done].
Qed.

(** ** The final dictionary *)

Lemma dict_set_net_elem k v (d : list (IPv4Network * RouteEntry)) e :
  e ∈ dict_set net_eqb k v d → e ∈ d ∨ (net_eqb e.1 k = true ∧ e.2 = v).
Proof.
  induction d as [|[k' v'] d IH]; cbn [dict_set].
  - intros ->%list_elem_of_singleton. right. split; [apply net_eqb_refl|done].
  - destruct (net_eqb k' k) eqn:E; intros He; apply elem_of_cons in He as [->|He].
    + by right.
    + left. by apply list_elem_of_further.
    + left. apply list_elem_of_here.
    + destruct (IH He) as [?|?]; [left; by apply list_elem_of_further|by right].
Qed.

Lemma dict_set_net_old k v (d : list (IPv4Network * RouteEntry)) e :
  e ∈ d → ∃ v', (e.1, v') ∈ dict_set net_eqb k v d.
Proof.
  induction d as [|[k' v'] d IH]; cbn [dict_set]; intros He; [by apply elem_of_nil in He|].
  apply elem_of_cons in He as [->|He]; cbn [fst].
  - destruct (net_eqb k' k); eexists; apply list_elem_of_here.
  - destruct (IH He) as (v0 & H0).
    destruct (net_eqb k' k); [exists e.2; destruct e|exists v0];
      by apply list_elem_of_further.
Qed.

Lemma dict_set_net_new k v (d : list (IPv4Network * RouteEntry)) :
  ∃ k', (k', v) ∈ dict_set net_eqb k v d ∧ net_eqb k' k = true.
Proof.
  induction d as [|[k' v'] d IH]; cbn [dict_set].
  - exists k. split; [apply list_elem_of_here|apply net_eqb_refl].
  - destruct (net_eqb k' k) eqn:E.
    + exists k'. split; [apply list_elem_of_here|done].
    + destruct IH as (k0 & H0 & E0). exists k0. split; [by apply list_elem_of_further|done].
Qed.

Lemma net_eqb_inside_l k k' x : net_eqb k k' = true → inside k' x → inside k x.
Proof.
  unfold net_eqb, inside, broadcast_address, hostmask. intros H.
  apply andb_true_iff in H as [Ha Hm]. apply Z.eqb_eq in Ha, Hm. by rewrite Ha, Hm.
Qed.

Lemma dict_of_list_net_spec l :
  ∀ d done,
    (∀ e, e ∈ done → ∃ s, s ∈ d ∧ inside s.1 e.1) →
    (∀ s, s ∈ d → ∃ e, e ∈ done ∧ e.2 = s.2 ∧ inside s.1 e.1) →
    let d' := foldl (λ d (e : IPv4Network * RouteEntry), dict_set net_eqb e.1 e.2 d) d l in
    (∀ e, e ∈ done ++ l → ∃ s, s ∈ d' ∧ inside s.1 e.1) ∧
    (∀ s, s ∈ d' → ∃ e, e ∈ done ++ l ∧ e.2 = s.2 ∧ inside s.1 e.1).
Proof.
  induction l as [|x l IH]; intros d done Hcov Hval; cbn [foldl].
  - by rewrite app_nil_r.
  - specialize (IH (dict_set net_eqb x.1 x.2 d) (done ++ [x])).
    rewrite <- (app_assoc done [x] l) in IH. cbn [app] in IH. apply IH.
    + intros e He. apply elem_of_app in He as [He|He%list_elem_of_singleton].
      * destruct (Hcov e He) as (s & Hs & Hse).
        destruct (dict_set_net_old x.1 x.2 d s Hs) as (v' & Hv').
        by exists (s.1, v').
      * subst e. destruct (dict_set_net_new x.1 x.2 d) as (k' & Hk' & E).
        exists (k', x.2). split; [done|]. cbn [fst].
        eapply net_eqb_inside_l; [exact E|apply inside_refl].
    + intros s Hs. apply dict_set_net_elem in Hs as [Hs|[E Hv]].
      * destruct (Hval s Hs) as (e & He & ? & ?). exists e.
        split; [apply elem_of_app; by left|done].
      * exists x. split; [apply elem_of_app; right; apply list_elem_of_here|].
        split; [done|]. eapply net_eqb_inside_l; [exact E|apply inside_refl].
Qed.

Lemma Node_get_simplified_routes_spec h n :
  Forall (λ e : nat * RouteEntry, valid_network (network_of h e.1)) (Node_get_routes h n) →
  (∀ c v, (c, v) ∈ Node_get_routes h n →
     ∃ net v', (net, v') ∈ Node_get_simplified_routes h n ∧ inside net (network_of h c)) ∧
  (∀ net v, (net, v) ∈ Node_get_simplified_routes h n →
     ∃ c, (c, v) ∈ Node_get_routes h n ∧ inside net (network_of h c)).
Proof.
  intros Hvalid. unfold Node_get_simplified_routes, simplify, dict_of_list.
  set (src := (λ e : nat * RouteEntry, (network_of h e.1, e.2)) <$> Node_get_routes h n).
  assert (Hsrc : Forall (λ b : IPv4Network * RouteEntry, valid_network b.1) (sort_routes src)).
  { rewrite sort_routes_perm. subst src. apply Forall_fmap.
    eapply Forall_impl; [exact Hvalid|done]. }
  destruct (foldl_merge_step_spec (sort_routes src) [] [] Hsrc) as (_ & Hcov & Hval);
    [constructor| | |].
  { intros e He. by apply elem_of_nil in He. }
  { intros s Hs. by apply elem_of_nil in Hs. }
  cbn [app] in Hcov, Hval.
  destruct (dict_of_list_net_spec (rev (foldl merge_step [] (sort_routes src))) [] [])
    as (Hcov' & Hval').
  { intros e He. by apply elem_of_nil in He. }
  { intros s Hs. by apply elem_of_nil in Hs. }
  cbn [app] in Hcov', Hval'.
  assert (Hrev : ∀ x : IPv4Network * RouteEntry,
            x ∈ rev (foldl merge_step [] (sort_routes src))
            ↔ x ∈ foldl merge_step [] (sort_routes src)).
  { intros x. rewrite !list_elem_of_In. symmetry. apply in_rev. }
  split.
  - intros c v Hc.
    assert (He : (network_of h c, v) ∈ sort_routes src).
    { rewrite sort_routes_perm. subst src.
      by apply (list_elem_of_fmap_2 (λ e : nat * RouteEntry, (network_of h e.1, e.2)) _ (c, v)). }
    destruct (Hcov _ He) as (s & Hs & Hse). apply Hrev in Hs.
    destruct (Hcov' _ Hs) as ([net v'] & Hd & Hds). exists net, v'. split; [done|].
    cbn [fst] in *. by eapply inside_trans.
  - intros net v Hd. destruct (Hval' _ Hd) as (s & Hs & Hsv & Hsi). apply Hrev in Hs.
    destruct (Hval _ Hs) as (e & He & Hev & Hei).
    rewrite sort_routes_perm in He. subst src.
    apply list_elem_of_fmap in He as ([c v0] & -> & Hc). cbn [fst snd] in *.
    exists c. split; [congruence|]. by eapply inside_trans.
Qed.

(** X: aggregation loses no destination and invents no route.  When the
    networks of a node's table are valid, every destination of the table
    lies inside the block of some aggregated entry, and every aggregated
    entry carries the interface, gateway and distance of a table entry
    whose destination lies inside its block. *)
Theorem simplified_routes_cover h n :
  Forall (λ e : nat * RouteEntry, valid_network (network_of h e.1)) (Node_get_routes h n) →
  (∀ c v, (c, v) ∈ Node_get_routes h n →
     ∃ net v', (net, v') ∈ Node_get_simplified_routes h n ∧ inside net (network_of h c)) ∧
  (∀ net v, (net, v) ∈ Node_get_simplified_routes h n →
     ∃ c, (c, v) ∈ Node_get_routes h n ∧ inside net (network_of h c)).
Proof. apply Node_get_simplified_routes_spec. Qed.

Lemma simplified_routes_cover_witness :
  let h := after_distribution (seq 0 9) (heap_of star_far) in
  (∀ c v, (c, v) ∈ Node_get_routes h 5 →
     ∃ net v', (net, v') ∈ Node_get_simplified_routes h 5 ∧ inside net (network_of h c)) ∧
  (∀ net v, (net, v) ∈ Node_get_simplified_routes h 5 →
     ∃ c, (c, v) ∈ Node_get_routes h 5 ∧ inside net (network_of h c)).
Proof.
  apply (simplified_routes_cover (after_distribution (seq 0 9) (heap_of star_far)) 5).
  apply (bool_decide_unpack _). vm_compute. exact I.
Defined.

(** * Aggregation of destinations that do not overlap *)

Lemma mod_double a m : 0 < m → a `mod` m = 0 → a `mod` (2 * m) = 0 ∨ a `mod` (2 * m) = m.
Proof.
  intros Hm Ha. apply Z.mod_divide in Ha as [k ->]; [|lia].
  rewrite (Z.mul_comm k m), (Z.mul_comm 2 m), Z.mul_mod_distr_l by lia.
  pose proof (Z.mod_pos_bound k 2 ltac:(lia)).
  assert (k `mod` 2 = 0 ∨ k `mod` 2 = 1) as [->| ->] by lia; lia.
Qed.

Lemma overlaps_sym a b : overlaps a b → overlaps b a.
Proof. intros (x & Ha & Hb). by exists x. Qed.

Lemma has_own_address n : valid_network n → has_address n (network_address n).
Proof.
  intros Hv. unfold has_address. rewrite (broadcast_of_valid n Hv).
  apply valid_network_inv in Hv as (Hle & _ & _).
  assert (0 < 2 ^ (32 - Z.of_nat (prefixlen n))) by (apply Z.pow_pos_nonneg; lia). lia.
Qed.

Lemma apart_intro a b :
  broadcast_address a < network_address b ∨ broadcast_address b < network_address a →
  ¬ overlaps a b.
Proof. intros H (x & Ha & Hb). lia. Qed.

Lemma overlaps_self n : valid_network n → overlaps n n.
Proof. intros Hv. exists (network_address n). split; by apply has_own_address. Qed.

Lemma inside_has_address a b x : inside a b → has_address b x → has_address a x.
Proof. unfold inside, has_address. lia. Qed.

Lemma whole_space_overlaps a b :
  valid_network a → valid_network b → prefixlen a = 0%nat → overlaps a b.
Proof.
  intros Ha Hb H0. exists (network_address b). split; [|by apply has_own_address].
  rewrite (broadcast_of_valid a Ha).
  apply valid_network_inv in Ha as (_ & Hr & Hm). apply valid_network_inv in Hb as (_ & Hrb & _).
  rewrite H0 in *. change (32 - Z.of_nat 0) with 32 in *.
  rewrite Z.mod_small in Hm by lia. lia.
Qed.

(** Two valid blocks with the same supernet that share no address are
    the two halves of it. *)
Lemma sibling_union a b x :
  valid_network a → valid_network b → ¬ overlaps a b → supernet a = supernet b →
  has_address (supernet a) x → has_address a x ∨ has_address b x.
Proof.
  intros Ha Hb Hno Heq Hx.
  destruct (decide (prefixlen a = 0%nat)) as [Hpa|Hpa].
  { exfalso. by apply Hno, whole_space_overlaps. }
  destruct (decide (prefixlen b = 0%nat)) as [Hpb|Hpb].
  { exfalso. by apply Hno, overlaps_sym, whole_space_overlaps. }
  pose proof (supernet_valid a Ha) as Hsa.
  unfold has_address in *. rewrite (broadcast_of_valid _ Hsa) in Hx.
  rewrite (broadcast_of_valid _ Ha), (broadcast_of_valid _ Hb).
  rewrite (supernet_eq a Ha Hpa), (supernet_eq b Hb Hpb) in Heq.
  rewrite (supernet_eq a Ha Hpa) in Hx. cbn [network_address prefixlen] in Hx.
  inversion Heq as [[Haddr Hp]]. assert (Hpp : prefixlen b = prefixlen a) by lia.
  rewrite Hpp in *. clear Hp Hpb Heq.
  assert (Hself : ¬ (network_address a = network_address b)).
  { intros Hab. apply Hno. exists (network_address a). split; [by apply has_own_address|].
    rewrite Hab. by apply has_own_address. }
  apply valid_network_inv in Ha as (Hle & Hra & Hma).
  apply valid_network_inv in Hb as (_ & Hrb & Hmb). rewrite Hpp in Hmb.
  set (A := network_address a) in *. set (B := network_address b) in *.
  set (p := prefixlen a) in *.
  replace (32 - Z.of_nat (p - 1)) with (33 - Z.of_nat p) in Hx by lia.
  assert (Hpow : 2 ^ (33 - Z.of_nat p) = 2 * 2 ^ (32 - Z.of_nat p)).
  { rewrite <- Z.pow_succ_r by lia. f_equal. lia. }
  assert (Hpos : 0 < 2 ^ (32 - Z.of_nat p)) by (apply Z.pow_pos_nonneg; lia).
  rewrite Hpow in *.
  destruct (mod_double A _ Hpos Hma) as [HA|HA], (mod_double B _ Hpos Hmb) as [HB|HB];
    rewrite HA, HB in *; lia.
Qed.

(** ** The merge loop *)

Lemma merge_top_exact a below :
  valid_network a.1 →
  Forall (λ b : IPv4Network * RouteEntry, valid_network b.1) below →
  Forall (λ b : IPv4Network * RouteEntry, ¬ overlaps a.1 b.1) below →
  pairwise_apart below →
  ∃ dropped rest t,
    below = dropped ++ rest ∧ merge_top a below = (t, a.2) :: rest ∧
    valid_network t ∧ inside t a.1 ∧
    Forall (λ b : IPv4Network * RouteEntry, inside t b.1 ∧ gateway_of b = gateway_of a) dropped ∧
    (∀ x, has_address t x → has_address a.1 x ∨ ∃ b, b ∈ dropped ∧ has_address b.1 x).
Proof.
  revert a. induction below as [|b below IH]; intros a Ha Hv Hab Hpw.
  - exists [], [], a.1. split; [done|]. destruct a as [k v]. cbn.
    split; [done|]. split; [done|]. split; [apply inside_refl|]. split; [constructor|by left].
  - apply Forall_cons in Hv as [Hb Hv]. apply Forall_cons in Hab as [Hnab Hab].
    apply StronglySorted_cons in Hpw as [Hbb Hpw]. cbn [merge_top].
    destruct (net_eqb (supernet a.1) (supernet b.1) && (a.2.1.2 =? b.2.1.2)%nat) eqn:E.
    + apply andb_true_iff in E as [E Egw]. apply Nat.eqb_eq in Egw.
      apply net_eqb_true in E; [|by apply supernet_valid..].
      assert (Hsib : ∀ x, has_address (supernet a.1) x → has_address a.1 x ∨ has_address b.1 x).
      { intros x. by apply sibling_union. }
      destruct (IH (supernet a.1, a.2)) as (dropped & rest & t & -> & Hm & Ht & Hin & Hdr & Hex).
      * by apply supernet_valid.
      * done.
      * cbn [fst]. rewrite Forall_forall in Hab, Hbb. apply Forall_forall.
        intros c Hc (x & Hx & Hxc). destruct (Hsib x Hx) as [Hxa|Hxb].
        -- apply (Hab c Hc). by exists x.
        -- apply (Hbb c Hc). by exists x.
      * done.
      * cbn [fst snd] in *.
        exists (b :: dropped), rest, t. split; [done|]. split; [exact Hm|]. split; [done|].
        split; [eapply inside_trans; [exact Hin|by apply inside_supernet]|]. split.
        -- constructor; [|done]. split; [|done].
           eapply inside_trans; [exact Hin|]. rewrite E. by apply inside_supernet.
        -- intros x Hx. destruct (Hex x Hx) as [Hs|(b' & Hb' & Hxb')].
           ++ destruct (Hsib x Hs) as [?|?]; [by left|right].
              exists b. split; [apply list_elem_of_here|done].
           ++ right. exists b'. split; [by apply list_elem_of_further|done].
    + exists [], (b :: below), a.1. split; [done|]. destruct a as [k v]. cbn [fst snd].
      split; [done|]. split; [done|]. split; [apply inside_refl|]. split; [constructor|by left].
Qed.

Lemma foldl_merge_exact l :
  ∀ stack done,
    Forall (λ b : IPv4Network * RouteEntry, valid_network b.1) l →
    pairwise_apart l →
    (∀ e y, e ∈ done → y ∈ l → ¬ overlaps e.1 y.1) →
    Forall (λ b : IPv4Network * RouteEntry, valid_network b.1) stack →
    pairwise_apart stack →
    (∀ e, e ∈ done → ∃ s, s ∈ stack ∧ inside s.1 e.1 ∧ gateway_of s = gateway_of e) →
    (∀ s x, s ∈ stack → has_address s.1 x →
            ∃ e, e ∈ done ∧ has_address e.1 x ∧ gateway_of e = gateway_of s) →
    let stack' := foldl merge_step stack l in
    Forall (λ b : IPv4Network * RouteEntry, valid_network b.1) stack' ∧
    pairwise_apart stack' ∧
    (∀ e, e ∈ done ++ l → ∃ s, s ∈ stack' ∧ inside s.1 e.1 ∧ gateway_of s = gateway_of e) ∧
    (∀ s x, s ∈ stack' → has_address s.1 x →
            ∃ e, e ∈ done ++ l ∧ has_address e.1 x ∧ gateway_of e = gateway_of s).
Proof.
  induction l as [|x l IH]; intros stack done Hl Hpl Hdl Hst Hps Hcov Hex; cbn [foldl].
  - rewrite app_nil_r. done.
  - apply Forall_cons in Hl as [Hx Hl]. apply StronglySorted_cons in Hpl as [Hxl Hpl].
    rewrite Forall_forall in Hxl.
    assert (Hxs : Forall (λ b : IPv4Network * RouteEntry, ¬ overlaps x.1 b.1) stack).
    { apply Forall_forall. intros s Hs (y & Hyx & Hys).
      destruct (Hex s y Hs Hys) as (e & He & Hye & _).
      apply (Hdl e x He (list_elem_of_here _ _)). by exists y. }
    destruct (merge_top_exact x stack Hx Hst Hxs Hps)
      as (dropped & rest & t & -> & Hm & Ht & Hin & Hdr & Hunion).
    apply Forall_app in Hst as [Hvd Hvr]. rewrite Forall_forall in Hdr.
    pose proof (StronglySorted_app_1_r _ _ _ Hps) as Hpr.
    specialize (IH (merge_step (dropped ++ rest) x) (done ++ [x]) Hl Hpl).
    unfold merge_step in *. rewrite Hm in *.
    rewrite <- (app_assoc done [x] l) in IH. cbn [app] in IH. apply IH.
    + intros e y He Hy. apply elem_of_app in He as [He|He%list_elem_of_singleton].
      * apply Hdl; [done|by apply list_elem_of_further].
      * subst e. by apply Hxl.
    + constructor; done.
    + apply StronglySorted_cons. split; [|done]. apply Forall_forall.
      intros r Hr (y & Hyt & Hyr). cbn [fst] in Hyt.
      destruct (Hunion y Hyt) as [Hyx|(b & Hb & Hyb)].
      * rewrite Forall_forall in Hxs. apply (Hxs r); [apply elem_of_app; by right|by exists y].
      * apply (StronglySorted_app_1_elem_of _ _ _ b r Hps Hb Hr). by exists y.
    + intros e He. apply elem_of_app in He as [He|He%list_elem_of_singleton].
      * destruct (Hcov e He) as (s & Hs & Hse & Hg). apply elem_of_app in Hs as [Hs|Hs].
        -- exists (t, x.2). split; [apply list_elem_of_here|]. cbn [fst].
           destruct (Hdr s Hs) as [Hts Hgs].
           split; [by eapply inside_trans|]. unfold gateway_of in *. cbn [snd]. congruence.
        -- exists s. split; [by apply list_elem_of_further|done].
      * subst e. exists (t, x.2). split; [apply list_elem_of_here|done].
    + intros s y Hs Hy. apply elem_of_cons in Hs as [->|Hs].
      * cbn [fst] in Hy. destruct (Hunion y Hy) as [Hyx|(b & Hb & Hyb)].
        -- exists x. split; [apply elem_of_app; right; apply list_elem_of_here|done].
        -- destruct (Hex b y) as (e & He & Hye & Hg); [apply elem_of_app; by left|done|].
           exists e. split; [apply elem_of_app; by left|]. split; [done|].
           destruct (Hdr b Hb) as [_ Hgb]. unfold gateway_of in *. cbn [snd]. congruence.
      * destruct (Hex s y) as (e & He & Hye & Hg); [apply elem_of_app; by right|done|].
        exists e. split; [apply elem_of_app; by left|done].
Qed.

(** ** Sorting and the final dictionary *)

Lemma insert_route_apart e l :
  Forall (λ b : IPv4Network * RouteEntry, ¬ overlaps e.1 b.1) l →
  pairwise_apart l → pairwise_apart (insert_route e l).
Proof.
  unfold pairwise_apart. induction l as [|x l IH]; intros He Hl; cbn [insert_route].
  - repeat constructor.
  - apply Forall_cons in He as [Hex He]. pose proof Hl as Hl0.
    apply StronglySorted_cons in Hl as [Hxl Hl].
    destruct (net_ltb x.1 e.1).
    + apply StronglySorted_cons. split; [|by apply IH].
      rewrite insert_route_perm. constructor; [|done].
      intros H. by apply Hex, overlaps_sym.
    + apply StronglySorted_cons. split; [|done]. by constructor.
Qed.

Lemma sort_routes_apart l : pairwise_apart l → pairwise_apart (sort_routes l).
Proof.
  unfold sort_routes. induction l as [|x l IH]; intros Hl; cbn [foldr]; [constructor|].
  apply StronglySorted_cons in Hl as [Hxl Hl]. apply insert_route_apart; [|by apply IH].
  fold (sort_routes l). by rewrite sort_routes_perm.
Qed.

Lemma pairwise_apart_rev l : pairwise_apart l → pairwise_apart (rev l).
Proof.
  unfold pairwise_apart. induction l as [|x l IH]; intros Hl; cbn [rev]; [constructor|].
  apply StronglySorted_cons in Hl as [Hxl Hl]. apply StronglySorted_app.
  split; [|split; [by apply IH|repeat constructor]].
  intros a b Ha ->%list_elem_of_singleton Hab.
  rewrite Forall_forall in Hxl. apply (Hxl a).
  - apply list_elem_of_In, in_rev. by apply list_elem_of_In.
  - by apply overlaps_sym.
Qed.

Lemma dict_set_fresh k v (d : list (IPv4Network * RouteEntry)) :
  Forall (λ b : IPv4Network * RouteEntry, net_eqb b.1 k = false) d →
  dict_set net_eqb k v d = d ++ [(k, v)].
Proof.
  induction 1 as [|[k' v'] d Hk Hd IH]; cbn [dict_set]; [done|].
  cbn [fst] in Hk. rewrite Hk, IH. done.
Qed.

Lemma dict_of_list_apart l :
  Forall (λ b : IPv4Network * RouteEntry, valid_network b.1) l →
  pairwise_apart l → dict_of_list net_eqb l = l.
Proof.
  intros Hv Hp. unfold dict_of_list.
  assert (Hgen : ∀ d, pairwise_apart (d ++ l) →
            Forall (λ b : IPv4Network * RouteEntry, valid_network b.1) (d ++ l) →
            foldl (λ d (e : IPv4Network * RouteEntry), dict_set net_eqb e.1 e.2 d) d l = d ++ l).
  { clear. induction l as [|x l IH]; intros d Hp Hv; cbn [foldl]; [by rewrite app_nil_r|].
    rewrite dict_set_fresh.
    - destruct x as [k v]. cbn [fst snd]. rewrite IH; rewrite <- app_assoc; done.
    - apply Forall_forall. intros b Hb.
      destruct (net_eqb b.1 x.1) eqn:E; [exfalso|done].
      rewrite Forall_forall in Hv.
      assert (Hvb : valid_network b.1) by (apply Hv, elem_of_app; by left).
      assert (Hvx : valid_network x.1).
      { apply Hv, elem_of_app. right. apply list_elem_of_here. }
      apply net_eqb_true in E; [|done..].
      apply (StronglySorted_app_1_elem_of _ _ _ b x Hp Hb (list_elem_of_here _ _)).
      rewrite E. by apply overlaps_self. }
  by apply (Hgen []).
Qed.

Lemma table_apart h (T : list (nat * RouteEntry)) :
  NoDup T.*1 →
  (∀ c v c' v', (c, v) ∈ T → (c', v') ∈ T → c ≠ c' →
                ¬ overlaps (network_of h c) (network_of h c')) →
  pairwise_apart ((λ e : nat * RouteEntry, (network_of h e.1, e.2)) <$> T).
Proof.
  unfold pairwise_apart. induction T as [|[c v] T IH]; intros Hnd Hno; cbn [fmap list_fmap].
  - constructor.
  - cbn [fmap list_fmap fst] in Hnd. apply NoDup_cons in Hnd as [Hc Hnd].
    apply StronglySorted_cons. split.
    + apply Forall_fmap, Forall_forall. intros [c' v'] Hc'. cbn [fst snd].
      apply (Hno c v c' v'); [apply list_elem_of_here|by apply list_elem_of_further|].
      intros ->. apply Hc. by apply (list_elem_of_fmap_2 fst) in Hc'.
    + apply IH; [done|]. intros c1 v1 c2 v2 H1 H2.
      apply (Hno c1 v1 c2 v2); by apply list_elem_of_further.
Qed.

(** X: when the destinations of a node's table are valid networks of
    which no two overlap (blocks of one pool, for one), the aggregated
    table routes every address as the table does: every destination lies
    inside the block of an aggregated entry with the same gateway, and
    every address of the block of an aggregated entry belongs to a
    destination of the table with that gateway. *)
Theorem simplified_routes_exact h n :
  Forall (λ e : nat * RouteEntry, valid_network (network_of h e.1)) (Node_get_routes h n) →
  (∀ c v c' v', (c, v) ∈ Node_get_routes h n → (c', v') ∈ Node_get_routes h n → c ≠ c' →
                ¬ overlaps (network_of h c) (network_of h c')) →
  (∀ e, e ∈ Node_get_routes h n →
     ∃ s, s ∈ Node_get_simplified_routes h n ∧
          inside s.1 (network_of h e.1) ∧ gateway_of s = gateway_of e) ∧
  (∀ s x, s ∈ Node_get_simplified_routes h n → has_address s.1 x →
     ∃ e, e ∈ Node_get_routes h n ∧
          has_address (network_of h e.1) x ∧ gateway_of e = gateway_of s).
Proof.
  intros Hvalid Hno. unfold Node_get_simplified_routes, simplify.
  set (src := (λ e : nat * RouteEntry, (network_of h e.1, e.2)) <$> Node_get_routes h n).
  assert (Hpsrc : pairwise_apart src).
  { apply table_apart; [|done]. apply Node_get_routes_spec. }
  assert (Hvs : Forall (λ b : IPv4Network * RouteEntry, valid_network b.1) (sort_routes src)).
  { rewrite sort_routes_perm. subst src. apply Forall_fmap.
    eapply Forall_impl; [exact Hvalid|done]. }
  destruct (foldl_merge_exact (sort_routes src) [] [] Hvs) as (Hv & Hp & Hcov & Hex).
  { by apply sort_routes_apart. }
  { intros e y He. by apply elem_of_nil in He. }
  { constructor. }
  { constructor. }
  { intros e He. by apply elem_of_nil in He. }
  { intros s x Hs. by apply elem_of_nil in Hs. }
  cbn [app] in Hcov, Hex.
  assert (Hrev : ∀ x : IPv4Network * RouteEntry,
            x ∈ rev (foldl merge_step [] (sort_routes src))
            ↔ x ∈ foldl merge_step [] (sort_routes src)).
  { intros x. rewrite !list_elem_of_In. symmetry. apply in_rev. }
  rewrite dict_of_list_apart.
  2: { apply Forall_forall. intros b Hb. rewrite Forall_forall in Hv. by apply Hv, Hrev. }
  2: { by apply pairwise_apart_rev. }
  split.
  - intros [c v] He.
    assert (Hs : (network_of h c, v) ∈ sort_routes src).
    { rewrite sort_routes_perm. subst src.
      by apply (list_elem_of_fmap_2 (λ e : nat * RouteEntry, (network_of h e.1, e.2)) _ (c, v)). }
    destruct (Hcov _ Hs) as (s & Hsin & Hsi & Hg). exists s. by rewrite Hrev.
  - intros s x Hs Hx. apply Hrev in Hs.
    destruct (Hex s x Hs Hx) as (e & He & Hxe & Hg).
    rewrite sort_routes_perm in He. subst src.
    apply list_elem_of_fmap in He as ([c v] & -> & Hc). by exists (c, v).
Qed.

Lemma simplified_routes_exact_witness :
  let h := after_distribution (seq 0 9) (heap_of star_far) in
  (∀ e, e ∈ Node_get_routes h 5 →
     ∃ s, s ∈ Node_get_simplified_routes h 5 ∧
          inside s.1 (network_of h e.1) ∧ gateway_of s = gateway_of e) ∧
  (∀ s x, s ∈ Node_get_simplified_routes h 5 → has_address s.1 x →
     ∃ e, e ∈ Node_get_routes h 5 ∧
          has_address (network_of h e.1) x ∧ gateway_of e = gateway_of s).
Proof.
  apply (simplified_routes_exact (after_distribution (seq 0 9) (heap_of star_far)) 5).
  - apply (bool_decide_unpack _). vm_compute. exact I.
  - intros c v c' v' Hc Hc' Hne. apply apart_intro.
    assert (Hall : Forall (λ e : nat * RouteEntry,
              Forall (λ e' : nat * RouteEntry,
                e.1 ≠ e'.1 →
                broadcast_address
                  (network_of (after_distribution (seq 0 9) (heap_of star_far)) e.1)
                < network_address
                    (network_of (after_distribution (seq 0 9) (heap_of star_far)) e'.1) ∨
                broadcast_address
                  (network_of (after_distribution (seq 0 9) (heap_of star_far)) e'.1)
                < network_address
                    (network_of (after_distribution (seq 0 9) (heap_of star_far)) e.1))
                (Node_get_routes (after_distribution (seq 0 9) (heap_of star_far)) 5))
              (Node_get_routes (after_distribution (seq 0 9) (heap_of star_far)) 5)).
    { apply (bool_decide_unpack _). vm_compute. exact I. }
    rewrite Forall_forall in Hall. specialize (Hall _ Hc).
    rewrite Forall_forall in Hall. by apply (Hall _ Hc').
Defined.

(** * The two reports *)

Lemma result_mapM_Ok {A B} (f : A → result B) l ys :
  result_mapM f l = Ok ys → Forall2 (λ x y, f x = Ok y) l ys.
Proof.
  revert ys. induction l as [|x l IH]; intros ys H; simpl in H.
  - inversion H. constructor.
  - destruct (f x) as [y|] eqn:E; simpl in H; [|discriminate].
    destruct (result_mapM f l) as [ys'|]; simpl in H; [|discriminate].
    inversion H; subst. constructor; [done|]. by apply IH.
Qed.

Lemma result_mapM_Forall2 {A B} (f : A → result B) l ys :
  Forall2 (λ x y, f x = Ok y) l ys → result_mapM f l = Ok ys.
Proof.
  induction 1 as [|x y l ys Hxy _ IH]; simpl; [done|]. by rewrite Hxy, IH.
Qed.

Lemma Node_dump_Ok h n d :
  Node_dump h n = Ok d →
  dump_node_id d = Node_get_id h n ∧
  result_mapM (Interface_dump h) (interfaces_of_node h n) = Ok (dump_interfaces d).
Proof.
  unfold Node_dump. intros H.
  destruct (result_mapM (Interface_dump h) (interfaces_of_node h n)) as [ifs|]; simpl in H;
    [|discriminate].
  destruct (if from_option include_routes false (nodes h !! n)
            then result_bind (Node_dump_routes h n) (λ rs, Ok (Some rs)) else Ok None)
    as [rs|]; simpl in H; [|discriminate].
  by inversion H; subst.
Qed.

(** X: [get_ips] and [dump] agree.  When [dump] of a node succeeds,
    [get_ips] succeeds too, under the same node identifier, and lists,
    interface by interface, the address that the dump gives with its
    prefix length. *)
Theorem get_ips_matches_dump h n d :
  Node_dump h n = Ok d →
  ∃ g, Node_get_ips h n = Ok g ∧ ips_id g = dump_node_id d ∧
       Forall2 (λ ip itf, ∃ p : nat, dump_ip itf = ip +:+ "/" +:+ pretty p)
         (ips_interfaces g) (dump_interfaces d).
Proof.
  intros Hd. apply Node_dump_Ok in Hd as [Hid Hifs].
  apply result_mapM_Ok in Hifs.
  assert (Hips : ∃ ips,
    Forall2 (λ i ip, result_bind (Interface_get_ip h i) (λ ip, Ok (str_address ip.1)) = Ok ip)
      (interfaces_of_node h n) ips ∧
    Forall2 (λ ip itf, ∃ p : nat, dump_ip itf = ip +:+ "/" +:+ pretty p) ips (dump_interfaces d)).
  { induction Hifs as [|i itf l ifs Hi _ IH].
    - exists []. split; constructor.
    - destruct IH as (ips & H1 & H2). unfold Interface_dump in Hi.
      destruct (Interface_get_ip h i) as [[a p]|] eqn:E; simpl in Hi; [|discriminate].
      inversion Hi; subst itf; clear Hi.
      exists (str_address a :: ips). split; constructor; [by rewrite E|done| |done].
      by exists p. }
  destruct Hips as (ips & H1 & H2).
  exists (mkIpsDump (Node_get_id h n) ips). split; [|split; [by rewrite Hid|done]].
  unfold Node_get_ips. by rewrite (result_mapM_Forall2 _ _ _ H1).
Qed.

Lemma get_ips_matches_dump_witness :
  ∃ d g, Node_dump (heap_of chain3) 1 = Ok d ∧ Node_get_ips (heap_of chain3) 1 = Ok g ∧
         ips_id g = dump_node_id d ∧
         Forall2 (λ ip itf, ∃ p : nat, dump_ip itf = ip +:+ "/" +:+ pretty p)
           (ips_interfaces g) (dump_interfaces d).
Proof.
  assert (E : ∃ d, Node_dump (heap_of chain3) 1 = Ok d).
  { vm_compute. eexists. reflexivity. }
  destruct E as [d E].
  destruct (get_ips_matches_dump (heap_of chain3) 1 d E) as (g & H1 & H2 & H3).
  exists d, g. split; [exact E|]. split; [exact H1|]. split; [exact H2|exact H3].
Defined.

(** X: the dump of a topology is closed under its channel references:
    the channel identifier in the dump of any interface of any dumped
    node is the identifier of one of the dumped channels. *)
Theorem dump_channels_resolve order t h d :
  order ≡ₚ Topology_get_channels t h →
  Topology_dump_in order t h = Ok d →
  ∀ nd itf, nd ∈ dump_nodes d → itf ∈ dump_interfaces nd →
    ∃ cd, cd ∈ dump_channels d ∧ channel_dump_id cd = dump_channel itf.
Proof.
  intros Hperm Hd nd itf Hnd Hitf. unfold Topology_dump_in in Hd.
  destruct (result_mapM (Node_dump h) (Topology_get_nodes t)) as [ns|] eqn:Hns; simpl in Hd;
    [|discriminate].
  inversion Hd; subst d; clear Hd. cbn [dump_nodes dump_channels] in *.
  apply result_mapM_Ok in Hns.
  apply list_elem_of_lookup in Hnd as [k Hk].
  destruct (Forall2_lookup_r _ _ _ _ _ Hns Hk) as (n & Hn & Hdump).
  apply Node_dump_Ok in Hdump as [_ Hifs]. apply result_mapM_Ok in Hifs.
  apply list_elem_of_lookup in Hitf as [j Hj].
  destruct (Forall2_lookup_r _ _ _ _ _ Hifs Hj) as (i & Hi & Hidump).
  unfold Interface_dump, Interface_get_ip in Hidump.
  destruct (interfaces h !! i) as [I|] eqn:HI; [|discriminate].
  destruct (channels h !! channel I) as [C|] eqn:HC; [|discriminate].
  destruct (net_getitem _ _) as [a|]; simpl in Hidump; [|discriminate].
  inversion Hidump; subst itf; clear Hidump. cbn [dump_channel]. rewrite HC. cbn.
  exists (Channel_dump h (channel I)). split.
  - apply list_elem_of_fmap_2. rewrite Hperm. apply Topology_get_channels_elem.
    exists n. split; [by eapply list_elem_of_lookup_2|].
    exists i, I. split; [by eapply list_elem_of_lookup_2|done].
  - unfold Channel_dump. cbn [channel_dump_id]. by rewrite HC.
Qed.

Lemma dump_channels_resolve_witness :
  ∃ d, Topology_dump_in [1; 0]%nat (topology_of chain3) (heap_of chain3) = Ok d ∧
    ∀ nd itf, nd ∈ dump_nodes d → itf ∈ dump_interfaces nd →
      ∃ cd, cd ∈ dump_channels d ∧ channel_dump_id cd = dump_channel itf.
Proof.
  assert (E : ∃ d, Topology_dump_in [1; 0]%nat (topology_of chain3) (heap_of chain3) = Ok d).
  { vm_compute. eexists. reflexivity. }
  destruct E as [d E]. exists d. split; [exact E|].
  apply (dump_channels_resolve [1; 0]%nat (topology_of chain3) (heap_of chain3) d);
    [|exact E].
  vm_compute. apply perm_swap.
Defined.

(** * A tile beside destinations in the other half of the /27 *)

(** ** A run of the merge loop on top of a stack it does not touch *)

Lemma merge_top_on_top a R s S :
  Forall (λ e : IPv4Network * RouteEntry,
            net_eqb (supernet e.1) (supernet s.1) && (e.2.1.2 =? s.2.1.2)%nat = false)
         (merge_top a R) →
  merge_top a (R ++ s :: S) = merge_top a R ++ s :: S.
Proof.
  revert a. induction R as [|b R IH]; intros a H; cbn [merge_top app] in *.
  - apply Forall_cons in H as [H _]. by rewrite H.
  - destruct (net_eqb (supernet a.1) (supernet b.1) && (a.2.1.2 =? b.2.1.2)%nat); [|done].
    by apply IH.
Qed.

Lemma foldl_merge_on_top l s S :
  ∀ R,
    (∀ l1 l2, l = l1 ++ l2 → l1 ≠ [] →
       Forall (λ e : IPv4Network * RouteEntry,
                 net_eqb (supernet e.1) (supernet s.1) && (e.2.1.2 =? s.2.1.2)%nat = false)
              (foldl merge_step R l1)) →
    foldl merge_step (R ++ s :: S) l = foldl merge_step R l ++ s :: S.
Proof.
  induction l as [|x l IH]; intros R H; [done|].
  cbn [foldl]. unfold merge_step at 2 4.
  rewrite merge_top_on_top by (apply (H [x] l); done).
  apply IH. intros l1 l2 -> Hne. apply (H (x :: l1) l2); done.
Qed.

Section beside.
Context (X : Z) (HX : valid_network (mkNet X 28)).

Local Abbreviation S27 := (supernet (mkNet X 28)).
Local Abbreviation sib := (other_half (mkNet X 28)).

(** ** The other /28 *)

Lemma sib_eq : sib = mkNet (2 * (X - X `mod` 32) + 16 - X) 28.
Proof.
  unfold other_half. rewrite (S27_eq X HX). cbn [network_address prefixlen].
  by change (2 ^ (32 - Z.of_nat 28)) with 16.
Qed.

Lemma sib_cases :
  (X `mod` 32 = 0 ∧ sib = mkNet (X + 16) 28) ∨ (X `mod` 32 = 16 ∧ sib = mkNet (X - 16) 28).
Proof.
  rewrite sib_eq. pose proof (tile_base X HX) as (Hm & Hlo & Hhi).
  assert (X `mod` 32 = 0 ∨ X `mod` 32 = 16) as [H|H] by mod_lia; [left|right];
    (split; [done|]); f_equal; lia.
Qed.

Lemma sib_valid : valid_network sib.
Proof.
  rewrite sib_eq. pose proof (tile_base X HX) as (Hm & Hlo & Hhi).
  apply valid_network_intro; [lia| |].
  - change (2 ^ 32) with 4294967296 in *. mod_lia.
  - cbn. change (2 ^ (32 - Z.of_nat 28)) with 16. mod_lia.
Qed.

(** A valid block inside the other /28, in numbers. *)
Lemma inside_sib k :
  valid_network k → inside sib k →
  (27 < prefixlen k)%nat ∧
  2 * (X - X `mod` 32) + 16 - X ≤ network_address k ∧
  network_address k + 2 ^ (32 - Z.of_nat (prefixlen k)) ≤ 2 * (X - X `mod` 32) + 32 - X.
Proof.
  intros Hv [Hlo Hhi].
  rewrite (broadcast_of_valid _ Hv), (broadcast_of_valid _ sib_valid) in Hhi.
  rewrite sib_eq in *. cbn [network_address prefixlen] in *.
  change (2 ^ (32 - Z.of_nat 28)) with 16 in Hhi.
  apply valid_network_inv in Hv as (Hle & Hr & _).
  assert (Hpow : 2 ^ (32 - Z.of_nat (prefixlen k)) ≤ 2 ^ 4) by (change (2 ^ 4) with 16; mod_lia).
  apply pow2_le_inv in Hpow; [|lia..]. split; [lia|]. split; mod_lia.
Qed.

Lemma inside_sib_range k :
  valid_network k → inside sib k →
  X - X `mod` 32 ≤ network_address k ≤ X - X `mod` 32 + 31.
Proof.
  intros Hv Hin. destruct (inside_sib k Hv Hin) as (Hp & Hlo & Hhi).
  pose proof (tile_base X HX) as (Hm & _ & _).
  pose proof (valid_network_inv _ Hv) as (Hle & _ & _).
  assert (0 < 2 ^ (32 - Z.of_nat (prefixlen k))) by (apply Z.pow_pos_nonneg; lia).
  mod_lia.
Qed.

Lemma inside_sib_not_tile k : valid_network k → inside sib k → ¬ inside (mkNet X 28) k.
Proof.
  intros Hv Hin [Hlo Hhi]. destruct (inside_sib k Hv Hin) as (Hp & Hlo' & Hhi').
  rewrite (broadcast_of_valid _ Hv), (broadcast_of_valid _ HX) in Hhi.
  cbn [network_address prefixlen] in *. change (2 ^ (32 - Z.of_nat 28)) with 16 in Hhi.
  pose proof (tile_base X HX) as (Hm & _ & _).
  pose proof (valid_network_inv _ Hv) as (Hle & _ & _).
  assert (0 < 2 ^ (32 - Z.of_nat (prefixlen k))) by (apply Z.pow_pos_nonneg; lia).
  mod_lia.
Qed.

(** A block inside the other /28 whose supernet is the /27 is the other
    /28. *)
Lemma inside_sib_whole k :
  valid_network k → inside sib k → supernet k = S27 → k = sib.
Proof.
  intros Hv Hin Hs. destruct (inside_sib k Hv Hin) as (Hp & Hlo & Hhi).
  rewrite (supernet_eq k Hv) in Hs by lia. rewrite (S27_eq X HX) in Hs.
  rewrite sib_eq.
  inversion Hs as [[Ha Hpre]]. assert (Hp28 : prefixlen k = 28%nat) by lia.
  destruct k as [a p]. cbn [network_address prefixlen] in *. subst p.
  f_equal. change (2 ^ (32 - Z.of_nat 28)) with 16 in Hhi. mod_lia.
Qed.

(** A block inside the other /28 does not merge with a part of the
    tile: its supernet is not that of a /30 or a /29 of the tile. *)
Lemma inside_sib_no_merge k a p :
  valid_network k → inside sib k →
  valid_network (mkNet a p) → (28 < p)%nat → inside (mkNet X 28) (mkNet a p) →
  net_eqb (supernet (mkNet a p)) (supernet k) = false.
Proof.
  intros Hv Hin Hva Hp [Hlo Hhi]. destruct (inside_sib k Hv Hin) as (Hpk & Hlo' & Hhi').
  destruct (net_eqb _ _) eqn:E; [|done]. exfalso.
  apply net_eqb_true in E; [|by apply supernet_valid..].
  rewrite (supernet_eq _ Hva), (supernet_eq k Hv) in E by (cbn [prefixlen]; lia).
  cbn [network_address prefixlen] in *. inversion E as [[Ha Hpre]].
  assert (Hpp : prefixlen k = p) by lia. rewrite Hpp in *.
  rewrite (broadcast_of_valid _ Hva), (broadcast_of_valid _ HX) in Hhi.
  cbn [network_address prefixlen] in *. change (2 ^ (32 - Z.of_nat 28)) with 16 in Hhi.
  pose proof (tile_base X HX) as (Hm & _ & _).
  apply valid_network_inv in Hva as (Hle & _ & Hma). cbn [network_address prefixlen] in *.
  apply valid_network_inv in Hv as (_ & _ & Hmk). rewrite Hpp in Hmk.
  assert (Hcases : p = 29%nat ∨ p = 30%nat ∨ p = 31%nat ∨ p = 32%nat) by lia.
  destruct Hcases as [->|[->|[->| ->]]];
    [change (2 ^ (33 - Z.of_nat 29)) with 16 in *; change (2 ^ (32 - Z.of_nat 29)) with 8 in *
    |change (2 ^ (33 - Z.of_nat 30)) with 8 in *; change (2 ^ (32 - Z.of_nat 30)) with 4 in *
    |change (2 ^ (33 - Z.of_nat 31)) with 4 in *; change (2 ^ (32 - Z.of_nat 31)) with 2 in *
    |change (2 ^ (33 - Z.of_nat 32)) with 2 in *; change (2 ^ (32 - Z.of_nat 32)) with 1 in *];
    mod_lia.
Qed.
End beside.

(** ** The tile on any stack that lets its parts stay *)

Section tile_on.
Context (X : Z) (HX : valid_network (mkNet X 28)).

Local Abbreviation S27 := (supernet (mkNet X 28)).

Lemma four_merge_on below i0 i1 i2 i3 g d0 d1 d2 d3 :
  (∀ a p v, valid_network (mkNet a p) → (28 < p)%nat → inside (mkNet X 28) (mkNet a p) →
            merge_top (mkNet a p, v) below = (mkNet a p, v) :: below) →
  merge_top (mkNet X 28, (i3, g, d3)) below = (mkNet X 28, (i3, g, d3)) :: below →
  foldl merge_step below
    [ (mkNet X 30, (i0, g, d0)); (mkNet (X + 4) 30, (i1, g, d1));
      (mkNet (X + 8) 30, (i2, g, d2)); (mkNet (X + 12) 30, (i3, g, d3)) ]
  = (mkNet X 28, (i3, g, d3)) :: below.
Proof.
  intros Hpart Hwhole. pose proof (tile_base X HX) as (Hm & Hlo & Hhi).
  assert (Hv30 : ∀ a, X ≤ a ≤ X + 12 → a `mod` 4 = 0 → valid_network (mkNet a 30)).
  { intros a Ha Ha4. apply valid_network_intro; [mod_lia|mod_lia|done]. }
  assert (Hv29 : ∀ a, X ≤ a ≤ X + 8 → a `mod` 8 = 0 → valid_network (mkNet a 29)).
  { intros a Ha Ha8. apply valid_network_intro; [mod_lia|mod_lia|done]. }
  assert (Hi30 : ∀ a, X ≤ a ≤ X + 12 → a `mod` 4 = 0 → inside (mkNet X 28) (mkNet a 30)).
  { intros a Ha Ha4. unfold inside.
    rewrite (broadcast_of_valid _ (Hv30 a Ha Ha4)), (broadcast_of_valid _ HX).
    cbn [network_address prefixlen]. change (2 ^ (32 - Z.of_nat 30)) with 4.
    change (2 ^ (32 - Z.of_nat 28)) with 16. lia. }
  assert (Hi29 : ∀ a, X ≤ a ≤ X + 8 → a `mod` 8 = 0 → inside (mkNet X 28) (mkNet a 29)).
  { intros a Ha Ha8. unfold inside.
    rewrite (broadcast_of_valid _ (Hv29 a Ha Ha8)), (broadcast_of_valid _ HX).
    cbn [network_address prefixlen]. change (2 ^ (32 - Z.of_nat 29)) with 8.
    change (2 ^ (32 - Z.of_nat 28)) with 16. lia. }
  assert (Hs30 : ∀ a, X ≤ a ≤ X + 12 → a `mod` 4 = 0 →
                      supernet (mkNet a 30) = mkNet (a - a `mod` 8) 29).
  { intros a Ha Ha4. by rewrite (supernet_eq _ (Hv30 a Ha Ha4)). }
  assert (Hs29 : ∀ a, X ≤ a ≤ X + 8 → a `mod` 8 = 0 →
                      supernet (mkNet a 29) = mkNet (a - a `mod` 16) 28).
  { intros a Ha Ha8. by rewrite (supernet_eq _ (Hv29 a Ha Ha8)). }
  cbn [foldl]. unfold merge_step.
  rewrite (Hpart X 30%nat); [|apply Hv30; mod_lia|lia|apply Hi30; mod_lia].
  cbn [merge_top fst snd].
  rewrite (Hs30 (X + 4)), (Hs30 X) by mod_lia.
  replace (X + 4 - (X + 4) `mod` 8) with X by mod_lia.
  replace (X - X `mod` 8) with X by mod_lia.
  rewrite net_eqb_refl, Nat.eqb_refl. cbn [andb].
  rewrite (Hpart X 29%nat); [|apply Hv29; mod_lia|lia|apply Hi29; mod_lia].
  cbn [merge_top fst snd].
  rewrite (Hs30 (X + 8)), (Hs29 X) by mod_lia.
  rewrite (net_eqb_prefix (mkNet _ 29) (mkNet _ 28)); cbn [prefixlen];
    [|apply valid_network_intro; [mod_lia|mod_lia|]|apply valid_network_intro; [mod_lia|mod_lia|]|mod_lia].
  2: { change (2 ^ (32 - Z.of_nat 29)) with 8. mod_lia. }
  2: { change (2 ^ (32 - Z.of_nat 28)) with 16. mod_lia. }
  cbn [andb].
  cbn [merge_top fst snd].
  rewrite (Hs30 (X + 12)), (Hs30 (X + 8)) by mod_lia.
  replace (X + 12 - (X + 12) `mod` 8) with (X + 8) by mod_lia.
  replace (X + 8 - (X + 8) `mod` 8) with (X + 8) by mod_lia.
  rewrite net_eqb_refl, Nat.eqb_refl. cbn [andb merge_top fst snd].
  rewrite (Hs29 (X + 8)), (Hs29 X) by mod_lia.
  replace (X + 8 - (X + 8) `mod` 16) with X by mod_lia.
  replace (X - X `mod` 16) with X by mod_lia.
  rewrite net_eqb_refl. cbn [andb].
  exact Hwhole.
Qed.

(** ** Later destinations above blocks of the /27 *)

Lemma merge_top_over e above r below :
  apart S27 e → Forall (apart S27) above →
  valid_network r.1 → (27 < prefixlen r.1)%nat →
  X - X `mod` 32 ≤ network_address r.1 ≤ X - X `mod` 32 + 31 →
  ∃ above',
    merge_top e (above ++ r :: below) = above' ++ r :: below ∧ Forall (apart S27) above'.
Proof.
  intros He Ha Hv Hp Hr. revert e He. induction Ha as [|b rest Hb Hrest IH]; intros e He.
  - exists [e]. split; [|by constructor]. cbn [app merge_top].
    by rewrite net_eqb_sym, (no_merge X HX r.1 e Hv Hp Hr He).
  - cbn [app merge_top]. destruct (_ && _).
    + apply IH. by apply apart_supernet.
    + exists (e :: b :: rest). split; [done|]. constructor; [done|]. by constructor.
Qed.

Lemma foldl_merge_over l r below :
  Forall (apart S27) l →
  valid_network r.1 → (27 < prefixlen r.1)%nat →
  X - X `mod` 32 ≤ network_address r.1 ≤ X - X `mod` 32 + 31 →
  ∀ above, Forall (apart S27) above →
  ∃ above',
    foldl merge_step (above ++ r :: below) l = above' ++ r :: below ∧
    Forall (apart S27) above'.
Proof.
  intros Hl Hv Hp Hr. induction Hl as [|e l He Hl IH]; intros above Ha.
  - by exists above.
  - cbn [foldl]. unfold merge_step at 2.
    destruct (merge_top_over e above r below He Ha Hv Hp Hr) as (above' & -> & Ha').
    by apply IH.
Qed.

(** ** The dictionary *)

Lemma dict_fold_filter_notin l (d : list (IPv4Network * RouteEntry)) :
  Forall (λ e : IPv4Network * RouteEntry, ¬ inside (mkNet X 28) e.1) l →
  filter (λ e, inside (mkNet X 28) e.1) (foldl (λ d e, dict_set net_eqb e.1 e.2 d) d l)
  = filter (λ e, inside (mkNet X 28) e.1) d.
Proof.
  intros Hl. revert d. induction Hl as [|e l He Hl IH]; intros d; [done|].
  cbn [foldl]. rewrite IH. by apply dict_set_filter_out.
Qed.

Lemma dict_filter_single l1 v l2 :
  Forall (λ e : IPv4Network * RouteEntry, ¬ inside (mkNet X 28) e.1) l1 →
  Forall (λ e : IPv4Network * RouteEntry, ¬ inside (mkNet X 28) e.1) l2 →
  filter (λ e, inside (mkNet X 28) e.1) (dict_of_list net_eqb (l1 ++ (mkNet X 28, v) :: l2))
  = [(mkNet X 28, v)].
Proof.
  intros H1 H2. unfold dict_of_list. rewrite foldl_app. cbn [foldl fst snd].
  rewrite dict_fold_filter_notin by done.
  apply dict_set_filter_new; [apply inside_refl|].
  by rewrite dict_fold_filter_notin.
Qed.
End tile_on.

(** ** The merge loop on destinations inside the other /28 *)

Section sibs.
Context (X : Z) (HX : valid_network (mkNet X 28)) (g : nat).
Context (ss : list (IPv4Network * RouteEntry)).
Hypothesis Hss : Forall (λ e : IPv4Network * RouteEntry,
                           valid_network e.1 ∧ inside (other_half (mkNet X 28)) e.1) ss.
Hypothesis Hapart : pairwise_apart ss.
Hypothesis Hgap :
  ∃ x, has_address (other_half (mkNet X 28)) x ∧
       ∀ e, e ∈ ss → has_address e.1 x → gateway_of e ≠ g.

Local Abbreviation S27 := (supernet (mkNet X 28)).
Local Abbreviation sib := (other_half (mkNet X 28)).

(** Whatever the loop has on its stack after some of these destinations:
    a valid block inside the other /28, and not the whole of it with
    gateway [g]. *)
Lemma sib_stack_entries l1 l2 e :
  ss = l1 ++ l2 → e ∈ foldl merge_step [] l1 →
  valid_network e.1 ∧ inside sib e.1 ∧ (e.1 = sib → gateway_of e ≠ g).
Proof.
  intros Heq He. rewrite Heq in Hss, Hapart.
  apply Forall_app in Hss as [Hl1 _].
  pose proof (StronglySorted_app_1_l _ _ _ Hapart) as Hp1.
  destruct (foldl_merge_exact l1 [] []) as (Hv & _ & _ & Hex).
  { eapply Forall_impl; [exact Hl1|]. by intros ? [? ?]. }
  { exact Hp1. }
  { intros ? ? H. by apply elem_of_nil in H. }
  { constructor. }
  { constructor. }
  { intros ? H. by apply elem_of_nil in H. }
  { intros ? ? H. by apply elem_of_nil in H. }
  cbn [app] in Hex. rewrite Forall_forall in Hv, Hl1.
  pose proof (Hv e He) as Hve. split; [done|].
  assert (Hin : ∀ x, has_address e.1 x → has_address sib x).
  { intros x Hx. destruct (Hex e x He Hx) as (o & Ho & Hxo & _).
    destruct (Hl1 o Ho) as [_ Hoin]. by eapply inside_has_address. }
  split.
  - pose proof (Hin _ (has_own_address _ Hve)) as [H1 _].
    assert (Hb : has_address e.1 (broadcast_address e.1)).
    { pose proof (has_own_address _ Hve) as [? ?]. unfold has_address. lia. }
    pose proof (Hin _ Hb) as [_ H2]. by split.
  - intros Hes Hg. destruct Hgap as (x & Hx & Hno). rewrite <- Hes in Hx.
    destruct (Hex e x He Hx) as (o & Ho & Hxo & Hgo).
    apply (Hno o); [rewrite Heq; apply elem_of_app; by left|done|congruence].
Qed.

Lemma sib_stack_nomerge_tile l1 l2 e v :
  ss = l1 ++ l2 → e ∈ foldl merge_step [] l1 → gateway_of (mkNet X 28, v) = g →
  net_eqb (supernet e.1) (supernet (mkNet X 28)) && (e.2.1.2 =? v.1.2)%nat = false.
Proof.
  intros Heq He Hg. destruct (sib_stack_entries l1 l2 e Heq He) as (Hv & Hin & Hne).
  destruct (net_eqb _ _) eqn:E; [|done]. cbn [andb].
  apply net_eqb_true in E; [|by apply supernet_valid..].
  apply (inside_sib_whole X HX _ Hv Hin) in E. apply Nat.eqb_neq.
  specialize (Hne E). unfold gateway_of in *. cbn [snd] in Hg. congruence.
Qed.

Lemma sib_stack_nomerge_apart l1 l2 e b :
  ss = l1 ++ l2 → e ∈ foldl merge_step [] l1 → apart S27 b →
  net_eqb (supernet e.1) (supernet b.1) && (e.2.1.2 =? b.2.1.2)%nat = false.
Proof.
  intros Heq He Hb. destruct (sib_stack_entries l1 l2 e Heq He) as (Hv & Hin & _).
  destruct (inside_sib X HX _ Hv Hin) as (Hp & _ & _).
  rewrite (no_merge X HX e.1 b Hv Hp (inside_sib_range X HX _ Hv Hin) Hb). done.
Qed.

(** The loop on these destinations leaves a stack of entries apart from
    the /27 as it is. *)
Lemma sib_on_apart B :
  Forall (apart S27) B → foldl merge_step B ss = foldl merge_step [] ss ++ B.
Proof.
  intros HB. destruct HB as [|b B Hb HB]; [by rewrite app_nil_r|].
  apply (foldl_merge_on_top ss b B []). intros l1 l2 Heq Hne.
  apply Forall_forall. intros e He. by eapply sib_stack_nomerge_apart.
Qed.

(** A part of the tile stays on top of a block inside the other /28. *)
Lemma tile_part_stays a p v r rest :
  valid_network r.1 → inside sib r.1 →
  valid_network (mkNet a p) → (28 < p)%nat → inside (mkNet X 28) (mkNet a p) →
  merge_top (mkNet a p, v) (r :: rest) = (mkNet a p, v) :: r :: rest.
Proof.
  intros Hvr Hir Hva Hp Hin. cbn [merge_top fst snd].
  by rewrite (inside_sib_no_merge X HX r.1 a p Hvr Hir Hva Hp Hin).
Qed.

Lemma tile_stays v r rest :
  valid_network r.1 → inside sib r.1 → (r.1 = sib → gateway_of r ≠ g) →
  gateway_of (mkNet X 28, v) = g →
  merge_top (mkNet X 28, v) (r :: rest) = (mkNet X 28, v) :: r :: rest.
Proof.
  intros Hvr Hir Hne Hg. cbn [merge_top fst snd].
  destruct (net_eqb _ _) eqn:E; [|done]. cbn [andb].
  apply net_eqb_true in E; [|by apply supernet_valid..]. symmetry in E.
  apply (inside_sib_whole X HX _ Hvr Hir) in E. specialize (Hne E).
  assert ((v.1.2 =? r.2.1.2)%nat = false) as ->; [|done].
  apply Nat.eqb_neq. unfold gateway_of in *. cbn [snd] in Hg. congruence.
Qed.

(** The aggregated table of the tile, these destinations and entries
    apart from the /27, whichever of the two /28 comes first. *)
Lemma simplify_beside pre post band i0 i1 i2 i3 d0 d1 d2 d3 :
  Forall (apart S27) pre → Forall (apart S27) post →
  let four := [ (mkNet X 30, (i0, g, d0)); (mkNet (X + 4) 30, (i1, g, d1));
                (mkNet (X + 8) 30, (i2, g, d2)); (mkNet (X + 12) 30, (i3, g, d3)) ] in
  band = four ++ ss ∨ band = ss ++ four →
  filter (λ e, inside (mkNet X 28) e.1)
    (dict_of_list net_eqb (simplify (pre ++ band ++ post)))
  = [(mkNet X 28, (i3, g, d3))].
Proof.
  intros Hpre Hpost four Hband. unfold simplify. rewrite !foldl_app.
  set (B := foldl merge_step [] pre).
  assert (HB : Forall (apart S27) B) by (apply (foldl_merge_apart X HX); [constructor|done]).
  set (Rs := foldl merge_step [] ss).
  assert (HRs : Forall (λ e : IPv4Network * RouteEntry,
                          valid_network e.1 ∧ inside sib e.1 ∧ (e.1 = sib → gateway_of e ≠ g)) Rs).
  { apply Forall_forall. intros e He.
    apply (sib_stack_entries ss [] e); [by rewrite app_nil_r|done]. }
  assert (HRs_out : Forall (λ e : IPv4Network * RouteEntry, ¬ inside (mkNet X 28) e.1) Rs).
  { eapply Forall_impl; [exact HRs|]. intros e (Hv & Hin & _).
    by apply (inside_sib_not_tile X HX). }
  assert (HB_out : Forall (λ e : IPv4Network * RouteEntry, ¬ inside (mkNet X 28) e.1) B).
  { eapply Forall_impl; [exact HB|]. intros e He. by apply (apart_not_inside X HX). }
  pose proof (tile_base X HX) as (Hm & Hlo & Hhi).
  assert (Hours : X - X `mod` 32 ≤ X ≤ X - X `mod` 32 + 31) by mod_lia.
  destruct Hband as [-> | ->]; rewrite foldl_app.
  - (* the tile first *)
    fold B. unfold four. rewrite (four_merge X HX B) by done.
    change ((mkNet X 28, (i3, g, d3)) :: B) with ([] ++ (mkNet X 28, (i3, g, d3)) :: B).
    rewrite (foldl_merge_on_top ss (mkNet X 28, (i3, g, d3)) B []).
    2: { intros l1 l2 Heq Hne. apply Forall_forall. intros e He.
         by apply (sib_stack_nomerge_tile l1 l2 e (i3, g, d3)). }
    fold Rs.
    assert (Hpostrun : ∃ above,
      foldl merge_step (Rs ++ (mkNet X 28, (i3, g, d3)) :: B) post
      = above ++ Rs ++ (mkNet X 28, (i3, g, d3)) :: B ∧ Forall (apart S27) above).
    { destruct Rs as [|r Rs'] eqn:ERs.
      - apply (foldl_merge_over X HX post (mkNet X 28, (i3, g, d3)) B Hpost HX
                 ltac:(cbn; lia) Hours [] ltac:(constructor)).
      - apply Forall_cons in HRs as [(Hvr & Hir & _) _].
        destruct (inside_sib X HX _ Hvr Hir) as (Hp & _ & _).
        apply (foldl_merge_over X HX post r (Rs' ++ (mkNet X 28, (i3, g, d3)) :: B) Hpost
                 Hvr Hp (inside_sib_range X HX _ Hvr Hir) [] ltac:(constructor)). }
    destruct Hpostrun as (above & -> & Habove).
    rewrite !rev_app_distr. cbn [rev]. rewrite <- !app_assoc. cbn [app].
    apply dict_filter_single.
    + by apply Forall_rev.
    + apply Forall_app. split; apply Forall_rev; [done|].
      eapply Forall_impl; [exact Habove|]. intros e He. by apply (apart_not_inside X HX).
  - (* the other /28 first *)
    fold B. rewrite (sib_on_apart B HB). fold Rs. unfold four.
    rewrite (four_merge_on X HX (Rs ++ B)).
    + destruct (foldl_merge_above X HX post (i3, g, d3) (Rs ++ B) Hpost [] ltac:(constructor))
        as (above & Heq & Habove).
      cbn [app] in Heq. rewrite Heq.
      rewrite !rev_app_distr. cbn [rev]. rewrite <- !app_assoc. cbn [app].
      apply dict_filter_single.
      * apply Forall_rev, Forall_app. by split.
      * apply Forall_rev. eapply Forall_impl; [exact Habove|].
        intros e He. by apply (apart_not_inside X HX).
    + intros a p v Hva Hp Hin. destruct Rs as [|r Rs'] eqn:ERs.
      * cbn [app]. apply (merge_top_stays X HX); [done|cbn; lia| |done].
        destruct Hin as [Hl Hh]. rewrite (broadcast_of_valid _ Hva), (broadcast_of_valid _ HX) in Hh.
        cbn [network_address prefixlen] in *.
        change (2 ^ (32 - Z.of_nat 28)) with 16 in Hh.
        pose proof (valid_network_inv _ Hva) as (Hle & _ & _). cbn [prefixlen] in Hle.
        assert (0 < 2 ^ (32 - Z.of_nat p)) by (apply Z.pow_pos_nonneg; lia). mod_lia.
      * apply Forall_cons in HRs as [(Hvr & Hir & _) _]. by apply tile_part_stays.
    + destruct Rs as [|r Rs'] eqn:ERs.
      * cbn [app]. apply (merge_top_stays X HX); [done|cbn; lia|done|done].
      * apply Forall_cons in HRs as [(Hvr & Hir & Hne) _]. by apply tile_stays.
Qed.
End sibs.

(** ** The sort order *)

(** Sorted destinations that do not overlap are strictly sorted. *)
Lemma sorted_strict (l : list (IPv4Network * RouteEntry)) :
  StronglySorted route_le l →
  Forall (λ e : IPv4Network * RouteEntry, valid_network e.1) l →
  pairwise_apart l →
  StronglySorted route_lt l.
Proof.
  induction 1 as [|x l Hl IH Hx]; intros Hv Hp; [constructor|].
  apply Forall_cons in Hv as [Hvx Hv]. apply StronglySorted_cons in Hp as [Hpx Hp].
  constructor; [by apply IH|].
  rewrite Forall_forall in Hx, Hv, Hpx. apply Forall_forall. intros y Hy.
  specialize (Hx y Hy). specialize (Hv y Hy). specialize (Hpx y Hy).
  unfold route_le in Hx. unfold route_lt. apply net_ltb_false in Hx. apply net_ltb_spec.
  destruct Hx as [?|[Ha Hm]]; [by left|right]. split; [done|].
  destruct (decide (netmask x.1 = netmask y.1)) as [Hmm|?]; [|lia].
  exfalso. apply Hpx.
  assert (x.1 = y.1) as ->; [|by apply overlaps_self].
  apply net_eqb_true; [done..|]. unfold net_eqb. rewrite Ha, Hmm, !Z.eqb_refl. done.
Qed.

Section region.
Context (X : Z) (HX : valid_network (mkNet X 28)).

Local Abbreviation S27 := (supernet (mkNet X 28)).
Local Abbreviation lo := (mkNet (X - X `mod` 32) 28, (0, 0, 0)%nat).
Local Abbreviation hi := (mkNet (X - X `mod` 32 + 31) 32, (0, 0, 0)%nat).

(** Blocks of prefix length 28 or more inside the /27 stand together in
    the sort order, and entries apart from the /27 stand before or after
    them. *)
Lemma region_in_band (e : IPv4Network * RouteEntry) :
  valid_network e.1 → (27 < prefixlen e.1)%nat →
  X - X `mod` 32 ≤ network_address e.1 ≤ X - X `mod` 32 + 31 →
  route_le lo e ∧ route_le e hi.
Proof.
  intros Hv Hp Hr. unfold route_le. rewrite !net_ltb_false. cbn [fst network_address].
  apply valid_network_inv in Hv as (Hle & _ & _).
  rewrite (netmask_pow2 e.1 Hle), (netmask_pow2 (mkNet _ 28)), (netmask_pow2 (mkNet _ 32))
    by (cbn [prefixlen]; lia).
  cbn [prefixlen]. change (2 ^ (32 - Z.of_nat 28)) with (2 ^ 4).
  change (2 ^ (32 - Z.of_nat 32)) with 1.
  assert (2 ^ (32 - Z.of_nat (prefixlen e.1)) ≤ 2 ^ 4) by (apply Z.pow_le_mono_r; lia).
  assert (0 < 2 ^ (32 - Z.of_nat (prefixlen e.1))) by (apply Z.pow_pos_nonneg; lia).
  split; lia.
Qed.

Lemma apart_outside_region o :
  apart S27 o → ¬ (route_le lo o ∧ route_le o hi).
Proof.
  intros [Hv Hc]. pose proof (proj1 (clear_of_S27 X HX _) Hc) as Hc'.
  unfold route_le. rewrite !net_ltb_false. cbn [fst network_address].
  pose proof (tile_base X HX) as (Hm & Hlo & Hhi).
  apply valid_network_inv in Hv as (Hle & Hr & Hal).
  rewrite (netmask_pow2 o.1 Hle), (netmask_pow2 (mkNet _ 28)), (netmask_pow2 (mkNet _ 32))
    by (cbn [prefixlen]; lia).
  cbn [prefixlen]. change (2 ^ (32 - Z.of_nat 28)) with (2 ^ 4).
  intros [H1 H2].
  destruct (decide (27 < prefixlen o.1)%nat) as [Hlong|Hshort].
  - apply (Hc' Hlong). lia.
  - assert (H32 : network_address o.1 `mod` 32 = 0).
    { apply (mod_pow2_32 _ (32 - Z.of_nat (prefixlen o.1))); [lia|done]. }
    assert (Heq : network_address o.1 = X - X `mod` 32) by mod_lia.
    assert (Hpow : 2 ^ (32 - Z.of_nat (prefixlen o.1)) ≤ 2 ^ 4) by lia.
    apply pow2_le_inv in Hpow; lia.
Qed.

Lemma four_sorted (v0 v1 v2 v3 : RouteEntry) :
  StronglySorted route_lt
    [ (mkNet X 30, v0); (mkNet (X + 4) 30, v1); (mkNet (X + 8) 30, v2);
      (mkNet (X + 12) 30, v3) ].
Proof.
  repeat (constructor;
          [|repeat (constructor; [unfold route_lt; apply net_ltb_spec;
                                  cbn [fst network_address]; lia|]); constructor]).
  constructor.
Qed.

Lemma four_in_band (v0 v1 v2 v3 : RouteEntry) :
  Forall (λ e : IPv4Network * RouteEntry, route_le lo e ∧ route_le e hi)
    [ (mkNet X 30, v0); (mkNet (X + 4) 30, v1); (mkNet (X + 8) 30, v2);
      (mkNet (X + 12) 30, v3) ].
Proof.
  pose proof (tile_base X HX) as (Hm & Hlo & Hhi).
  repeat (constructor;
          [apply region_in_band; cbn [fst prefixlen network_address];
           [apply valid_network_intro; [lia|change (2 ^ 32) with 4294967296 in *; mod_lia|
                                        change (2 ^ (32 - Z.of_nat 30)) with 4; mod_lia]
           |lia|mod_lia]|]).
  constructor.
Qed.
End region.

(** C3, as the code has it.  When a node's table holds four /30
    destinations that tile a /28, all through the same gateway
    interface, the aggregated table has exactly one entry inside the /28:
    the /28 itself, with that gateway and with the interface and the
    distance of the last /30; so none of the four /30 and neither of the
    two /29 is left.  This holds unless the other /28 of the /27 above is
    aggregated through the same gateway too.  It is proved for a table
    whose destinations inside that other /28 do not overlap one another
    and do not cover it completely through that gateway (some address of
    it lies in no such destination), and whose further destinations are
    not blocks of prefix length 28 or more that start inside the /27. *)
Theorem aggregation_tile h n X c0 c1 c2 c3 i0 i1 i2 i3 g d0 d1 d2 d3 beside others :
  valid_network (mkNet X 28) →
  Node_get_routes h n
  ≡ₚ [(c0, (i0, g, d0)); (c1, (i1, g, d1)); (c2, (i2, g, d2)); (c3, (i3, g, d3))]
     ++ beside ++ others →
  network_of h c0 = mkNet X 30 →
  network_of h c1 = mkNet (X + 4) 30 →
  network_of h c2 = mkNet (X + 8) 30 →
  network_of h c3 = mkNet (X + 12) 30 →
  Forall (λ e : nat * RouteEntry,
            valid_network (network_of h e.1) ∧
            inside (other_half (mkNet X 28)) (network_of h e.1)) beside →
  pairwise_apart ((λ e : nat * RouteEntry, (network_of h e.1, e.2)) <$> beside) →
  (∃ x, has_address (other_half (mkNet X 28)) x ∧
        ∀ e, e ∈ beside → has_address (network_of h e.1) x → gateway_of e ≠ g) →
  Forall (λ e : nat * RouteEntry,
            valid_network (network_of h e.1) ∧
            clear_of (supernet (mkNet X 28)) (network_of h e.1)) others →
  filter (λ e, inside (mkNet X 28) e.1) (Node_get_simplified_routes h n)
  = [(mkNet X 28, (i3, g, d3))].
Proof.
  intros HX Htable H0 H1 H2 H3 Hbeside Hbapart Hgap Hothers.
  unfold Node_get_simplified_routes.
  set (f := λ e : nat * RouteEntry, (network_of h e.1, e.2)) in *.
  set (four := [ (mkNet X 30, (i0, g, d0)); (mkNet (X + 4) 30, (i1, g, d1));
                 (mkNet (X + 8) 30, (i2, g, d2)); (mkNet (X + 12) 30, (i3, g, d3)) ]).
  set (ss := sort_routes (f <$> beside)).
  assert (Hss : Forall (λ e : IPv4Network * RouteEntry,
                          valid_network e.1 ∧ inside (other_half (mkNet X 28)) e.1) ss).
  { subst ss. rewrite sort_routes_perm. apply Forall_fmap.
    eapply Forall_impl; [exact Hbeside|done]. }
  assert (Hssapart : pairwise_apart ss) by (by apply sort_routes_apart).
  assert (Hssgap : ∃ x, has_address (other_half (mkNet X 28)) x ∧
                        ∀ e, e ∈ ss → has_address e.1 x → gateway_of e ≠ g).
  { destruct Hgap as (x & Hx & Hno). exists x. split; [done|]. intros e He.
    subst ss. rewrite sort_routes_perm in He.
    apply list_elem_of_fmap in He as (e0 & -> & He0). by apply Hno. }
  assert (Hsssorted : StronglySorted route_lt ss).
  { apply sorted_strict; [apply sort_routes_sorted| |done].
    eapply Forall_impl; [exact Hss|]. by intros e [? ?]. }
  assert (Hssband : Forall (λ e : IPv4Network * RouteEntry,
            route_le (mkNet (X - X `mod` 32) 28, (0, 0, 0)%nat) e ∧
            route_le e (mkNet (X - X `mod` 32 + 31) 32, (0, 0, 0)%nat)) ss).
  { eapply Forall_impl; [exact Hss|]. intros e [Hv Hin].
    destruct (inside_sib X HX _ Hv Hin) as (Hp & _ & _).
    apply region_in_band; [done..|]. by apply inside_sib_range. }
  assert (Hapart : Forall (apart (supernet (mkNet X 28))) (f <$> others)).
  { apply Forall_fmap. eapply Forall_impl; [exact Hothers|]. by intros e [? ?]. }
  assert (Hfour : f <$> [(c0, (i0, g, d0)); (c1, (i1, g, d1)); (c2, (i2, g, d2));
                         (c3, (i3, g, d3))] = four).
  { unfold f, four; cbn [fmap list_fmap fst snd]. by rewrite H0, H1, H2, H3. }
  assert (Hperm : sort_routes (f <$> Node_get_routes h n) ≡ₚ four ++ ss ++ (f <$> others)).
  { rewrite sort_routes_perm, Htable, !fmap_app, Hfour. subst ss.
    by rewrite sort_routes_perm. }
  destruct (tile_base X HX) as (Hm & Hlo & Hhi).
  assert (Hside : ∀ x y : IPv4Network * RouteEntry, x ∈ four → y ∈ ss →
            (X `mod` 32 = 0 → route_lt x y) ∧ (X `mod` 32 ≠ 0 → route_lt y x)).
  { intros x y Hx Hy. rewrite Forall_forall in Hss. destruct (Hss y Hy) as [Hv Hin].
    destruct (inside_sib X HX _ Hv Hin) as (Hp & Hl & Hh).
    pose proof (valid_network_inv _ Hv) as (Hle & _ & _).
    assert (0 < 2 ^ (32 - Z.of_nat (prefixlen y.1))) by (apply Z.pow_pos_nonneg; lia).
    assert (Hxa : X ≤ network_address x.1 ≤ X + 12).
    { unfold four in Hx.
      repeat (apply elem_of_cons in Hx as [->|Hx]; [cbn; lia|]). by apply elem_of_nil in Hx. }
    unfold route_lt. split; intros Hc; apply net_ltb_spec; left; mod_lia. }
  assert (Hbandperm : ∃ band,
    (band = four ++ ss ∨ band = ss ++ four) ∧ StronglySorted route_lt band ∧
    band ≡ₚ four ++ ss).
  { destruct (decide (X `mod` 32 = 0)) as [Hx0|Hx0].
    - exists (four ++ ss). split; [by left|]. split; [|done].
      apply StronglySorted_app. split; [|split; [apply four_sorted|done]].
      intros x y Hx Hy. by apply (Hside x y Hx Hy).
    - exists (ss ++ four). split; [by right|]. split; [|apply Permutation_app_comm].
      apply StronglySorted_app. split; [|split; [done|apply four_sorted]].
      intros y x Hy Hx. by apply (Hside x y Hx Hy). }
  destruct Hbandperm as (band & Hband & Hbsorted & Hbperm).
  destruct (sorted_band (sort_routes (f <$> Node_get_routes h n)) band (f <$> others)
              (mkNet (X - X `mod` 32) 28, (0, 0, 0)%nat)
              (mkNet (X - X `mod` 32 + 31) 32, (0, 0, 0)%nat))
    as (pre & post & Heq & Hpp).
  - apply sort_routes_sorted.
  - by rewrite Hperm, Hbperm, app_assoc.
  - exact Hbsorted.
  - rewrite Hbperm. apply Forall_app. split; [by apply four_in_band|done].
  - eapply Forall_impl; [exact Hapart|]. intros o Ho. by apply apart_outside_region.
  - rewrite Heq.
    apply (simplify_beside X HX g ss Hss Hssapart Hssgap pre post band i0 i1 i2 i3 d0 d1 d2 d3).
    + rewrite <- Hpp in Hapart. by apply Forall_app in Hapart as [? _].
    + rewrite <- Hpp in Hapart. by apply Forall_app in Hapart as [_ ?].
    + exact Hband.
Qed.

Lemma aggregation_tile_witness :
  let h := after_distribution (seq 0 9) (heap_of star_six_far) in
  Node_get_routes h 7
  = [(0, (13, 12, 1)); (1, (13, 12, 1)); (2, (13, 12, 1)); (3, (13, 12, 1));
     (4, (13, 12, 1)); (5, (13, 12, 1)); (8, (13, 12, 1))]%nat ∧
  filter (λ e, inside (mkNet 167772160 28) e.1) (Node_get_simplified_routes h 7)
  = [(mkNet 167772160 28, (13, 12, 1))%nat].
Proof.
  intros h. split; [vm_compute; reflexivity|].
  apply (aggregation_tile h 7 167772160 0 1 2 3 13 13 13 13 12 1 1 1 1
           [(4, (13, 12, 1)); (5, (13, 12, 1))] [(8, (13, 12, 1))])%nat.
  - apply (bool_decide_unpack _). vm_compute. exact I.
  - vm_compute. reflexivity.
  - vm_compute. reflexivity.
  - vm_compute. reflexivity.
  - vm_compute. reflexivity.
  - vm_compute. reflexivity.
  - apply (bool_decide_unpack _). vm_compute. exact I.
  - repeat constructor; apply apart_intro; vm_compute; intuition congruence.
  - exists 167772184. split.
    + apply (bool_decide_unpack _). vm_compute. exact I.
    + intros e He [Hl Hh]. exfalso.
      repeat (apply elem_of_cons in He as [->|He]; [vm_compute in Hl, Hh; congruence|]).
      by apply elem_of_nil in He.
  - constructor; [|constructor]. split.
    + apply (bool_decide_unpack _). vm_compute. exact I.
    + unfold clear_of. apply (bool_decide_unpack _). vm_compute. exact I.
Defined.

(** The destinations inside the other /28 must not overlap.  Two channels
    that are both on 10.0.0.16/29 leave the upper half of 10.0.0.16/28
    without a destination, yet the merge loop takes the two equal /29 for
    the two halves of that /28, and the /28 it makes of them merges with
    10.0.0.0/28 into the /27. *)
Lemma aggregation_twin_blocks :
  ∃ h, build twin_script = Some h ∧
       let hh := after_distribution (seq 0 7) h in
       Node_get_routes hh 7
       = [(0, (13, 12, 1)); (1, (13, 12, 1)); (2, (13, 12, 1)); (3, (13, 12, 1));
          (4, (13, 12, 1)); (5, (13, 12, 1))]%nat ∧
       network_of hh <$> seq 0 6
       = [mkNet 167772160 30; mkNet 167772164 30; mkNet 167772168 30; mkNet 167772172 30;
          mkNet 167772176 29; mkNet 167772176 29] ∧
       Node_get_simplified_routes hh 7 = [(mkNet 167772160 27, (13, 12, 1))%nat].
Proof. eexists. split; [vm_compute; reflexivity|]. vm_compute. repeat split. Qed.
